(** * kodo: the linear block decoder

    A shallow embedding of [kodo::linear_block_decoder], the on-line
    Gauss-Jordan elimination engine of the kodo network-coding library, and
    of the symbol storage it sits on ([kodo::deep_symbol_storage]).

    Layout of the development:
    - list primitives standing for [std::fill_n], [std::copy] and indexed
      writes;
    - the field capability ([FieldOps]) the decoder is a template over, and
      the laws a field has ([FieldLaws]);
    - the decoder state, the memory the coded path works on (the caller's
      buffers or, in the swap path, a stored row aliased as working buffer);
    - the decoder's member functions, one definition per function;
    - two concrete fields, GF(2) over byte payloads and GF(5);
    - the invariants and the theorems. *)

From Stdlib Require Import List Arith NArith Bool Lia Ring.
Import ListNotations.

(** ** List primitives *)

Section ListPrimitives.
Context {A : Type}.

(** [v[i] = x]; an index past the end would be out of bounds in the
    source, the list is left as it is. *)
Fixpoint set_nth (i : nat) (x : A) (l : list A) : list A :=
  match l, i with
  | [], _ => []
  | _ :: t, O => x :: t
  | h :: t, S i' => h :: set_nth i' x t
  end.

(** [std::fill_n(l.begin(), n, x)]. *)
Fixpoint fill_n (l : list A) (n : nat) (x : A) : list A :=
  match n, l with
  | S n', _ :: t => x :: fill_n t n' x
  | _, _ => l
  end.

(** [std::copy(src, src + n, dst)]. *)
Fixpoint copy (src : list A) (n : nat) (dst : list A) : list A :=
  match n, src, dst with
  | S n', s :: src', _ :: dst' => s :: copy src' n' dst'
  | _, _, _ => dst
  end.

(** An in-place element-wise update [dst[j] = f(dst[j], src[j])] over the
    row; [dst] keeps its length. *)
Fixpoint zip_into {B : Type} (f : A -> B -> A) (dst : list A) (src : list B)
  : list A :=
  match dst, src with
  | d :: dst', s :: src' => f d s :: zip_into f dst' src'
  | _, _ => dst
  end.
End ListPrimitives.

(** ** The field capability

    The decoder is a template over [SuperCoder], from which it takes the
    field ([field_type], [fifi::is_binary]) and the row operations
    [subtract], [multiply], [multiply_subtract] and [invert].  A coefficient
    read with [vector_type::coefficient] is a field element ([coeff]); one
    [value_type] of a symbol's payload ([elem]) is a field element too, or,
    in the binary field, a machine word of packed bits that [subtract] XORs
    as a whole.  [elem] is therefore a module over [coeff]. *)

Class FieldOps : Type := {
  coeff : Type;
  elem : Type;
  is_binary : bool;
  czero : coeff;
  cone : coeff;
  cadd : coeff -> coeff -> coeff;
  csub : coeff -> coeff -> coeff;
  cmul : coeff -> coeff -> coeff;
  copp : coeff -> coeff;
  invert : coeff -> coeff;
  (** the truth value of a [value_type] in [if (value)] *)
  nonzero : coeff -> bool;
  ezero : elem;
  eadd : elem -> elem -> elem;
  esub : elem -> elem -> elem;
  escale : coeff -> elem -> elem
}.

Class FieldLaws (O : FieldOps) : Prop := {
  coeff_ring : ring_theory czero cone cadd cmul csub copp (@eq coeff);
  one_neq_zero : cone <> czero;
  invert_l : forall x, x <> czero -> cmul (invert x) x = cone;
  nonzero_spec : forall x, nonzero x = false <-> x = czero;
  binary_spec : is_binary = true -> forall x, x = czero \/ x = cone;
  eadd_assoc : forall x y z, eadd x (eadd y z) = eadd (eadd x y) z;
  eadd_comm : forall x y, eadd x y = eadd y x;
  eadd_0_l : forall x, eadd ezero x = x;
  esub_def : forall x y, esub x y = eadd x (escale (copp cone) y);
  escale_0 : forall x, escale czero x = ezero;
  escale_1 : forall x, escale cone x = x;
  escale_mul : forall a b x, escale (cmul a b) x = escale a (escale b x);
  escale_add_l : forall a b x,
      escale (cadd a b) x = eadd (escale a x) (escale b x);
  escale_add_r : forall a x y,
      escale a (eadd x y) = eadd (escale a x) (escale a y)
}.

Section Decoder.
Context {O : FieldOps}.

(** *** Row operations of the field layer *)

Definition subtract_id (dst src : list coeff) : list coeff :=
  zip_into csub dst src.

Definition subtract_data (dst src : list elem) : list elem :=
  zip_into esub dst src.

Definition multiply_subtract_id (dst src : list coeff) (c : coeff)
  : list coeff :=
  zip_into (fun d s => csub d (cmul s c)) dst src.

Definition multiply_subtract_data (dst src : list elem) (c : coeff)
  : list elem :=
  zip_into (fun d s => esub d (escale c s)) dst src.

Definition multiply_id (row : list coeff) (c : coeff) : list coeff :=
  map (fun x => cmul x c) row.

Definition multiply_data (row : list elem) (c : coeff) : list elem :=
  map (escale c) row.

(** [vector_type::coefficient] and [vector_type::set_coefficient]. *)
Definition coefficient (index : nat) (v : list coeff) : coeff :=
  nth index v czero.

Definition set_coefficient (index : nat) (v : list coeff) (x : coeff)
  : list coeff :=
  set_nth index x v.

(** *** The decoder state

    [m_rank] is a [uint32_t] that the code increments: it is kept in [N]
    with the wrap-around of [++] written out.  Indices ([m_maximum_pivot],
    loop counters, pivots) are positions below [symbols] and are only
    compared and assigned; they are list positions.  The two bitsets have
    the length given at [construct]; the row stores are addressed by slot:
    [vector_storage] holds the coefficient rows ([SuperCoder::vector]),
    [symbol_storage] the payload rows ([SuperCoder::symbol], the windows
    of [deep_symbol_storage::m_data]). *)

Record decoder : Type := mkDecoder {
  symbols : nat;
  symbol_length : nat;
  m_rank : N;
  m_maximum_pivot : nat;
  m_uncoded : list bool;
  m_coded : list bool;
  vector_storage : list (list coeff);
  symbol_storage : list (list elem)
}.

Definition vector_length (d : decoder) : nat := symbols d.

Definition vector (index : nat) (d : decoder) : list coeff :=
  nth index (vector_storage d) [].

(** [SuperCoder::symbol(index)]: the window of the payload buffer at
    [index * symbol_size()], as a row of its own.  The rows stand for the
    windows when the windows lie inside the buffer and apart from one
    another, which the dimensions of [reachable_within] ensure: the
    lemmas [rows_initialize] and [rows_write_symbol] relate the buffer of
    [DeepSymbolStorage] and its rows. *)
Definition symbol (index : nat) (d : decoder) : list elem :=
  nth index (symbol_storage d) [].

Definition with_rank (r : N) (d : decoder) : decoder :=
  mkDecoder (symbols d) (symbol_length d) r (m_maximum_pivot d)
            (m_uncoded d) (m_coded d) (vector_storage d) (symbol_storage d).

Definition with_maximum_pivot (p : nat) (d : decoder) : decoder :=
  mkDecoder (symbols d) (symbol_length d) (m_rank d) p
            (m_uncoded d) (m_coded d) (vector_storage d) (symbol_storage d).

Definition with_uncoded (index : nat) (x : bool) (d : decoder) : decoder :=
  mkDecoder (symbols d) (symbol_length d) (m_rank d) (m_maximum_pivot d)
            (set_nth index x (m_uncoded d)) (m_coded d)
            (vector_storage d) (symbol_storage d).

Definition with_coded (index : nat) (x : bool) (d : decoder) : decoder :=
  mkDecoder (symbols d) (symbol_length d) (m_rank d) (m_maximum_pivot d)
            (m_uncoded d) (set_nth index x (m_coded d))
            (vector_storage d) (symbol_storage d).

Definition with_vector (index : nat) (v : list coeff) (d : decoder)
  : decoder :=
  mkDecoder (symbols d) (symbol_length d) (m_rank d) (m_maximum_pivot d)
            (m_uncoded d) (m_coded d)
            (set_nth index v (vector_storage d)) (symbol_storage d).

Definition with_symbol (index : nat) (s : list elem) (d : decoder)
  : decoder :=
  mkDecoder (symbols d) (symbol_length d) (m_rank d) (m_maximum_pivot d)
            (m_uncoded d) (m_coded d)
            (vector_storage d) (set_nth index s (symbol_storage d)).

(** [++m_rank] on a [uint32_t]. *)
Definition incr32 (n : N) : N := ((n + 1) mod 2 ^ 32)%N.

(** *** Working buffers

    [decode] works in place on the two buffers of its caller;
    [swap_decode] hands [decode_with_vector] pointers into the row stores
    themselves, and [decode_raw] hands [backward_substitute] the caller's
    payload together with a stored coefficient row.  A buffer is therefore
    a reference, and reads and writes go through the memory. *)

Inductive buffer : Type :=
| Caller
| Slot (index : nat).

Record memory : Type := mkMemory {
  dec : decoder;
  caller_data : list elem;
  caller_id : list coeff
}.

Definition on_dec (f : decoder -> decoder) (m : memory) : memory :=
  mkMemory (f (dec m)) (caller_data m) (caller_id m).

Definition load_id (b : buffer) (m : memory) : list coeff :=
  match b with
  | Caller => caller_id m
  | Slot i => vector i (dec m)
  end.

Definition load_data (b : buffer) (m : memory) : list elem :=
  match b with
  | Caller => caller_data m
  | Slot i => symbol i (dec m)
  end.

Definition store_id (b : buffer) (v : list coeff) (m : memory) : memory :=
  match b with
  | Caller => mkMemory (dec m) (caller_data m) v
  | Slot i => on_dec (with_vector i v) m
  end.

Definition store_data (b : buffer) (s : list elem) (m : memory) : memory :=
  match b with
  | Caller => mkMemory (dec m) s (caller_id m)
  | Slot i => on_dec (with_symbol i s) m
  end.

(** *** Construction and initialisation *)

(** [linear_block_decoder()] followed by [construct]: the bitsets are
    resized to [max_symbols].  [SuperCoder::construct] of the payload
    store, which asserts [max_symbols * max_symbol_size > 0] and sizes the
    buffer, is [DeepSymbolStorage.construct]; here its assertion and the
    size of its buffer are preconditions, those of [reachable_within]. *)
Definition construct (max_symbols max_symbol_size : nat) : decoder :=
  mkDecoder 0 0 0%N 0
            (repeat false max_symbols) (repeat false max_symbols) [] [].

(** Modelled from the spec: [SuperCoder::initialize] of the coefficient
    row store (the layer that declares [SuperCoder::vector] is not part of
    the sources at hand).  The specification has the decoder
    "re-initialized per block [...], resetting rank, max_pivot, bitsets,
    rows to zero": [symbols] coefficient rows of [symbols] zeros. *)
Definition initialize_vector_storage (symbols : nat) : list (list coeff) :=
  repeat (repeat czero symbols) symbols.

(** [deep_symbol_storage::initialize]: [std::fill] of the whole payload
    buffer with zero; slot [i] is the window of [symbol_size] values at
    [i * symbol_size].  These are the rows of the zeroed buffer when the
    buffer holds the block ([rows_initialize]), that is for the
    dimensions of [reachable_within]. *)
Definition initialize_symbol_storage (symbols symbol_size : nat)
  : list (list elem) :=
  repeat (repeat ezero symbol_size) symbols.

Definition initialize (symbols' symbol_size : nat) (d : decoder) : decoder :=
  mkDecoder symbols' symbol_size 0%N 0
            (fill_n (m_uncoded d) symbols' false)
            (fill_n (m_coded d) symbols' false)
            (initialize_vector_storage symbols')
            (initialize_symbol_storage symbols' symbol_size).

(** *** Queries *)

Definition is_complete (d : decoder) : bool :=
  (m_rank d =? N.of_nat (symbols d))%N.

Definition rank (d : decoder) : N := m_rank d.

Definition symbol_exists (index : nat) (d : decoder) : bool :=
  nth index (m_coded d) false || nth index (m_uncoded d) false.

(** *** The elimination steps *)

(** The block both forward loops run on a stored row [i]: subtract it,
    times [c] outside the binary field, from the working buffers. *)
Definition subtract_stored (data id : buffer) (i : nat) (c : coeff)
           (m : memory) : memory :=
  if is_binary then
    let m1 := store_id id (subtract_id (load_id id m) (vector i (dec m))) m in
    store_data data
               (subtract_data (load_data data m1) (symbol i (dec m1))) m1
  else
    let m1 :=
      store_id id (multiply_subtract_id (load_id id m) (vector i (dec m)) c)
               m in
    store_data data
               (multiply_subtract_data (load_data data m1)
                                       (symbol i (dec m1)) c) m1.

Fixpoint forward_substitute_to_pivot_loop (data id : buffer)
         (indices : list nat) (m : memory) : memory * option nat :=
  match indices with
  | [] => (m, None)
  | i :: rest =>
      let current_coefficient := coefficient i (load_id id m) in
      if nonzero current_coefficient then
        if symbol_exists i (dec m) then
          forward_substitute_to_pivot_loop
            data id rest (subtract_stored data id i current_coefficient m)
        else (m, Some i)
      else forward_substitute_to_pivot_loop data id rest m
  end.

Definition forward_substitute_to_pivot (data id : buffer) (m : memory)
  : memory * option nat :=
  forward_substitute_to_pivot_loop data id (seq 0 (symbols (dec m))) m.

(** The assertions [normalize] makes on entry. *)
Definition normalize_asserts (id : buffer) (pivot_index : nat) (m : memory)
  : bool :=
  (pivot_index <? symbols (dec m))
  && negb (nth pivot_index (m_uncoded (dec m)) false)
  && negb (nth pivot_index (m_coded (dec m)) false)
  && nonzero (coefficient pivot_index (load_id id m)).

Definition normalize (data id : buffer) (pivot_index : nat) (m : memory)
  : memory :=
  let coefficient' := coefficient pivot_index (load_id id m) in
  let inverted_coefficient := invert coefficient' in
  let m1 := store_id id (multiply_id (load_id id m) inverted_coefficient) m in
  store_data data (multiply_data (load_data data m1) inverted_coefficient) m1.

Definition forward_substitute_from_pivot (data id : buffer)
           (pivot_index : nat) (m : memory) : memory :=
  fold_left
    (fun m i =>
       let value := coefficient i (load_id id m) in
       if nonzero value then
         if symbol_exists i (dec m) then subtract_stored data id i value m
         else m
       else m)
    (seq (pivot_index + 1) (m_maximum_pivot (dec m) - pivot_index)) m.

(** The block of [backward_substitute] on a coded row [i]: subtract the
    working buffers, times [value] outside the binary field, from it. *)
Definition subtract_into_stored (data id : buffer) (i : nat) (value : coeff)
           (m : memory) : memory :=
  if is_binary then
    let m1 :=
      store_id (Slot i) (subtract_id (vector i (dec m)) (load_id id m)) m in
    store_data (Slot i)
               (subtract_data (symbol i (dec m1)) (load_data data m1)) m1
  else
    let m1 :=
      store_id (Slot i)
               (multiply_subtract_id (vector i (dec m)) (load_id id m) value)
               m in
    store_data (Slot i)
               (multiply_subtract_data (symbol i (dec m1))
                                       (load_data data m1) value) m1.

Definition backward_substitute (data id : buffer) (pivot_index : nat)
           (m : memory) : memory :=
  fold_left
    (fun m i =>
       if nth i (m_uncoded (dec m)) false then m
       else if i =? pivot_index then m
       else if nth i (m_coded (dec m)) false then
         let value := coefficient pivot_index (vector i (dec m)) in
         if nonzero value then subtract_into_stored data id i value m
         else m
       else m)
    (seq 0 (m_maximum_pivot (dec m) + 1)) m.

Definition store_coded_symbol (data id : buffer) (pivot_index : nat)
           (m : memory) : memory :=
  let m1 :=
    store_id (Slot pivot_index)
             (copy (load_id id m) (vector_length (dec m))
                   (vector pivot_index (dec m))) m in
  store_data (Slot pivot_index)
             (copy (load_data data m1) (symbol_length (dec m1))
                   (symbol pivot_index (dec m1))) m1.

Definition store_uncoded_symbol (data : buffer) (pivot_index : nat)
           (m : memory) : memory :=
  let m1 :=
    store_data (Slot pivot_index)
               (copy (load_data data m) (symbol_length (dec m))
                     (symbol pivot_index (dec m))) m in
  store_id (Slot pivot_index)
           (set_coefficient pivot_index (vector pivot_index (dec m1)) cone)
           m1.

(** [++m_rank], the occupancy bit and the maximum pivot, as the coded and
    the raw path both end. *)
Definition raise_maximum_pivot (index : nat) (d : decoder) : decoder :=
  if m_maximum_pivot d <? index then with_maximum_pivot index d else d.

Definition decode_with_vector (data id : buffer) (m : memory) : memory :=
  let (m1, pivot_index) := forward_substitute_to_pivot data id m in
  match pivot_index with
  | None => m1
  | Some p =>
      let m2 := if is_binary then m1 else normalize data id p m1 in
      let m3 := forward_substitute_from_pivot data id p m2 in
      let m4 := backward_substitute data id p m3 in
      let m5 := store_coded_symbol data id p m4 in
      on_dec (fun d =>
                raise_maximum_pivot
                  p (with_coded p true (with_rank (incr32 (m_rank d)) d)))
             m5
  end.

Definition swap_decode (data : buffer) (pivot_index : nat) (m : memory)
  : memory :=
  let m1 := on_dec (with_coded pivot_index false) m in
  let m2 :=
    store_id (Slot pivot_index)
             (set_coefficient pivot_index (vector pivot_index (dec m1)) czero)
             m1 in
  let m3 :=
    store_data (Slot pivot_index)
               (subtract_data (symbol pivot_index (dec m2))
                              (load_data data m2)) m2 in
  let m4 := decode_with_vector (Slot pivot_index) (Slot pivot_index) m3 in
  let m5 :=
    store_id (Slot pivot_index)
             (fill_n (vector pivot_index (dec m4)) (vector_length (dec m4))
                     czero) m4 in
  let m6 := store_uncoded_symbol data pivot_index m5 in
  on_dec (with_uncoded pivot_index true) m6.

(** The memory a public call runs in: the decoder and the caller's two
    buffers. *)
Definition decode_mem (symbol_data : list elem) (symbol_id : list coeff)
           (d : decoder) : memory :=
  decode_with_vector Caller Caller (mkMemory d symbol_data symbol_id).

Definition decode (symbol_data : list elem) (symbol_id : list coeff)
           (d : decoder) : decoder :=
  dec (decode_mem symbol_data symbol_id d).

Definition decode_raw (symbol_data : list elem) (symbol_index : nat)
           (d : decoder) : decoder :=
  if nth symbol_index (m_uncoded d) false then d
  else
    let m := mkMemory d symbol_data [] in
    if nth symbol_index (m_coded d) false then
      dec (swap_decode Caller symbol_index m)
    else
      let m1 := store_uncoded_symbol Caller symbol_index m in
      let m2 := backward_substitute Caller (Slot symbol_index)
                                    symbol_index m1 in
      raise_maximum_pivot
        symbol_index
        (with_uncoded symbol_index true
                      (with_rank (incr32 (m_rank (dec m2))) (dec m2))).

End Decoder.

(** ** Two concrete fields *)

(** GF(2), [fifi::binary]: a coefficient is one bit, a payload value is a
    machine word whose bits are eight field elements at once; subtraction
    is XOR. *)
Module GF2.
Definition scale (c : bool) (x : N) : N := if c then x else 0%N.

#[export] Instance ops : FieldOps := {|
  coeff := bool;
  elem := N;
  is_binary := true;
  czero := false;
  cone := true;
  cadd := xorb;
  csub := xorb;
  cmul := andb;
  copp := fun x => x;
  invert := fun x => x;
  nonzero := fun x => x;
  ezero := 0%N;
  eadd := N.lxor;
  esub := N.lxor;
  escale := scale
|}.
End GF2.

(** GF(5), a prime field standing for the non-binary fields: the residues
    modulo 5, payload values being field elements. *)
Module GF5.
Inductive t : Type := R0 | R1 | R2 | R3 | R4.

Definition to_nat (x : t) : nat :=
  match x with R0 => 0 | R1 => 1 | R2 => 2 | R3 => 3 | R4 => 4 end.

Definition of_nat (n : nat) : t :=
  match n mod 5 with
  | 0 => R0 | 1 => R1 | 2 => R2 | 3 => R3 | _ => R4
  end.

Definition add (x y : t) : t := of_nat (to_nat x + to_nat y).
Definition opp (x : t) : t := of_nat (5 - to_nat x).
Definition sub (x y : t) : t := add x (opp y).
Definition mul (x y : t) : t := of_nat (to_nat x * to_nat y).
Definition inv (x : t) : t :=
  match x with R0 => R0 | R1 => R1 | R2 => R3 | R3 => R2 | R4 => R4 end.
Definition is_nonzero (x : t) : bool :=
  match x with R0 => false | _ => true end.

#[export] Instance ops : FieldOps := {|
  coeff := t;
  elem := t;
  is_binary := false;
  czero := R0;
  cone := R1;
  cadd := add;
  csub := sub;
  cmul := mul;
  copp := opp;
  invert := inv;
  nonzero := is_nonzero;
  ezero := R0;
  eadd := add;
  esub := sub;
  escale := mul
|}.
End GF5.

(** * Specification vocabulary *)

Section Vocabulary.
Context {O : FieldOps}.

(** The elementary row [e_i] of length [n]. *)
Definition elementary (n i : nat) : list coeff :=
  set_nth i cone (repeat czero n).

Definition zero_row (n : nat) (v : list coeff) : Prop :=
  forall j, j < n -> coefficient j v = czero.

(** The number of occupied slots, [|{i : uncoded[i] \/ coded[i]}|]. *)
Definition count_occupied (d : decoder) : nat :=
  length (filter (fun i => symbol_exists i d) (seq 0 (symbols d))).

(** INV-2. *)
Definition rank_counts (d : decoder) : Prop :=
  m_rank d = N.of_nat (count_occupied d).

(** What every occupied row looks like, whatever the rows of the empty
    slots hold: the dimensions of the stores, the exclusive occupancy
    bits, the bound [m_maximum_pivot] gives, and the reduced echelon form
    of the occupied rows. *)
Record shape (d : decoder) : Prop := {
  shape_symbols : 0 < symbols d;
  shape_uint32 : (N.of_nat (symbols d) < 2 ^ 32)%N;
  shape_uncoded_length : symbols d <= length (m_uncoded d);
  shape_coded_length : symbols d <= length (m_coded d);
  shape_vector_storage : length (vector_storage d) = symbols d;
  shape_symbol_storage : length (symbol_storage d) = symbols d;
  shape_vector_length :
    forall i, i < symbols d -> length (vector i d) = symbols d;
  shape_symbol_length :
    forall i, i < symbols d -> length (symbol i d) = symbol_length d;
  shape_exclusive :
    forall i, i < symbols d ->
              nth i (m_uncoded d) false = true ->
              nth i (m_coded d) false = false;
  shape_maximum_pivot : m_maximum_pivot d < symbols d;
  shape_below_maximum :
    forall i, i < symbols d -> symbol_exists i d = true ->
              i <= m_maximum_pivot d;
  shape_pivot :
    forall i, i < symbols d -> symbol_exists i d = true ->
              coefficient i (vector i d) = cone;
  shape_reduced :
    forall i j, i < symbols d -> j < symbols d -> i <> j ->
                symbol_exists i d = true -> symbol_exists j d = true ->
                coefficient j (vector i d) = czero;
  shape_lower :
    forall i j, i < symbols d -> j < i -> symbol_exists i d = true ->
                coefficient j (vector i d) = czero;
  shape_uncoded :
    forall i j, i < symbols d -> j < symbols d -> j <> i ->
                nth i (m_uncoded d) false = true ->
                coefficient j (vector i d) = czero
}.

(** The invariant of the decoder between public calls. *)
Record invariant (d : decoder) : Prop := {
  inv_shape : shape d;
  inv_rank : rank_counts d;
  inv_capacity :
    length (m_coded d) = length (m_uncoded d)
    /\ (N.of_nat (length (m_uncoded d)) < 2 ^ 32)%N;
  inv_blank :
    forall i, i < symbols d -> symbol_exists i d = false ->
              zero_row (symbols d) (vector i d)
}.

(** The states a decoder can be in: constructed and initialised, then
    driven by [initialize], [decode] and [decode_raw] within their
    preconditions. *)
Inductive reachable : decoder -> Prop :=
| reach_construct max_symbols max_symbol_size symbols' symbol_size :
    0 < symbols' -> symbols' <= max_symbols ->
    (N.of_nat max_symbols < 2 ^ 32)%N ->
    reachable
      (initialize symbols' symbol_size
                  (construct max_symbols max_symbol_size))
| reach_initialize d symbols' symbol_size :
    reachable d ->
    0 < symbols' -> symbols' <= length (m_uncoded d) ->
    reachable (initialize symbols' symbol_size d)
| reach_decode d symbol_data symbol_id :
    reachable d ->
    length symbol_data = symbol_length d ->
    length symbol_id = symbols d ->
    reachable (decode symbol_data symbol_id d)
| reach_decode_raw d symbol_data symbol_index :
    reachable d ->
    symbol_index < symbols d ->
    length symbol_data = symbol_length d ->
    reachable (decode_raw symbol_data symbol_index d).


(** *** Packets *)

Inductive packet : Type :=
| Raw (symbol_data : list elem) (symbol_index : nat)
| Coded (symbol_data : list elem) (symbol_id : list coeff).

Definition absorb (d : decoder) (p : packet) : decoder :=
  match p with
  | Raw symbol_data symbol_index => decode_raw symbol_data symbol_index d
  | Coded symbol_data symbol_id => decode symbol_data symbol_id d
  end.

Definition absorb_all (ps : list packet) (d : decoder) : decoder :=
  fold_left absorb ps d.

(** The coefficient vector a packet stands for. *)
Definition packet_id (n : nat) (p : packet) : list coeff :=
  match p with
  | Raw _ symbol_index => elementary n symbol_index
  | Coded _ symbol_id => symbol_id
  end.

Definition packet_data (p : packet) : list elem :=
  match p with
  | Raw symbol_data _ => symbol_data
  | Coded symbol_data _ => symbol_data
  end.

(** *** Linear algebra over the rows *)

Fixpoint csum (n : nat) (f : nat -> coeff) : coeff :=
  match n with
  | 0 => czero
  | S n' => cadd (csum n' f) (f n')
  end.




(** Column [j] of the combination of the vectors [vs] with the
    coefficients [cs]. *)
Definition combination (cs : list coeff) (vs : list (list coeff)) (j : nat)
  : coeff :=
  csum (length vs)
       (fun i => cmul (nth i cs czero) (coefficient j (nth i vs []))).

(** [x] is a combination of the vectors [vs]. *)
Definition spanned_by (n : nat) (vs : list (list coeff)) (x : list coeff)
  : Prop :=
  length x = n
  /\ exists cs, length cs = length vs
                /\ forall t, t < n -> coefficient t x = combination cs vs t.


(** Column [j] of the combination of the occupied rows of [d] with the
    coefficients [a], one per slot. *)
Definition stored_combination (d : decoder) (a : list coeff) (j : nat)
  : coeff :=
  csum (symbols d)
       (fun i => if symbol_exists i d
                 then cmul (nth i a czero) (coefficient j (vector i d))
                 else czero).

(** [v] lies in the span of the rows the decoder holds. *)
Definition in_stored_span (d : decoder) (v : list coeff) : Prop :=
  exists a, forall j, j < symbols d ->
                      coefficient j v = stored_combination d a j.

(** [x] is the combination of the stored rows that takes, for the row
    of each occupied slot, the coefficient [x] has at that slot's column:
    what forward substitution subtracts from [x] is all of [x]. *)
Definition own_combination (d : decoder) (x : list coeff) : Prop :=
  length x = symbols d
  /\ forall t, t < symbols d -> coefficient t x = stored_combination d x t.


(** A packet the decoder [d] can be given: the preconditions of
    [decode] and [decode_raw] on the sizes. *)
Definition fits (d : decoder) (p : packet) : Prop :=
  match p with
  | Raw symbol_data symbol_index =>
      symbol_index < symbols d /\ length symbol_data = symbol_length d
  | Coded symbol_data symbol_id =>
      length symbol_data = symbol_length d /\ length symbol_id = symbols d
  end.

Definition raw_index (p : packet) : option nat :=
  match p with
  | Raw _ symbol_index => Some symbol_index
  | Coded _ _ => None
  end.



(** *** Properties closed under the row operations

    Every row the decoder ever holds is made from the packets it was
    given with [multiply_subtract], [subtract] and [multiply].  A property
    of (coefficient row, payload row) pairs that [multiply_subtract]
    preserves is preserved by all three. *)
Definition closed (Q : list coeff -> list elem -> Prop) : Prop :=
  forall x s y e c,
    Q x s -> Q y e ->
    Q (multiply_subtract_id x y c) (multiply_subtract_data s e c).

Definition rows_in (Q : list coeff -> list elem -> Prop) (d : decoder)
  : Prop :=
  forall j, j < symbols d -> symbol_exists j d = true ->
            Q (vector j d) (symbol j d).

Definition all_in (Q : list coeff -> list elem -> Prop)
           (data id : buffer) (m : memory) : Prop :=
  Q (load_id id m) (load_data data m) /\ rows_in Q (dec m).

(** A property of coefficient rows alone that holds of every row of
    zeros. *)
Definition vanishing (n : nat) (Qv : list coeff -> Prop) : Prop :=
  forall x, length x = n -> zero_row n x -> Qv x.

(** What absorbing the packet [(v, s)] makes of the decoder [d]; [raw] is
    the index a raw packet comes with. *)
Record absorbed (v : list coeff) (s : list elem) (raw : option nat)
       (d d' : decoder) : Prop := {
  ab_invariant : invariant d';
  ab_symbols : symbols d' = symbols d;
  ab_symbol_length : symbol_length d' = symbol_length d;
  ab_capacity : length (m_uncoded d') = length (m_uncoded d);
  ab_rank :
    m_rank d' = (m_rank d + 1)%N
    \/ (m_rank d' = m_rank d
        /\ forall Qv, closed (fun x _ => Qv x) ->
                      vanishing (symbols d) Qv ->
                      rows_in (fun x _ => Qv x) d -> Qv v);
  ab_forward :
    forall Q, closed Q -> rows_in Q d -> Q v s -> rows_in Q d';
  ab_reverse :
    forall Qv, closed (fun x _ => Qv x) -> vanishing (symbols d) Qv ->
               rows_in (fun x _ => Qv x) d' ->
               rows_in (fun x _ => Qv x) d /\ Qv v;
  ab_monotone :
    forall j, symbol_exists j d = true -> symbol_exists j d' = true;
  ab_uncoded :
    forall j, j < symbols d ->
              nth j (m_uncoded d') false
              = (nth j (m_uncoded d) false
                 || match raw with
                    | Some i => j =? i
                    | None => false
                    end);
  ab_frame :
    forall j, j < symbols d -> symbol_exists j d' = false ->
              vector j d' = vector j d /\ symbol j d' = symbol j d
}.

(** *** Working buffers of the elimination *)

Definition free (b : buffer) (d : decoder) : Prop :=
  match b with
  | Caller => True
  | Slot i => i < symbols d /\ symbol_exists i d = false
  end.

(** A buffer that designates a row the stores have. *)
Definition in_range (b : buffer) (d : decoder) : Prop :=
  match b with
  | Caller => True
  | Slot j =>
      j < length (vector_storage d) /\ j < length (symbol_storage d)
  end.

Record working (data id : buffer) (m : memory) : Prop := {
  work_shape : shape (dec m);
  work_id_free : free id (dec m);
  work_data_free : free data (dec m);
  work_id_length : length (load_id id m) = symbols (dec m);
  work_data_length : length (load_data data m) = symbol_length (dec m)
}.

(** The decoder once slot [p] has been given a row: the rank incremented,
    the slot marked (uncoded by the raw path, coded by the coded path) and
    the maximum pivot raised. *)
Definition marked (raw : bool) (p : nat) (d : decoder) : decoder :=
  raise_maximum_pivot
    p
    ((if raw then with_uncoded p true else with_coded p true)
       (with_rank (incr32 (m_rank d)) d)).

(** The memory in which [swap_decode] re-absorbs the row it displaces:
    slot [i] unmarked, its pivot coefficient cleared and the raw symbol
    subtracted from its payload. *)
Definition displaced (symbol_data : list elem) (i : nat) (d : decoder)
  : memory :=
  store_data (Slot i) (subtract_data (symbol i d) symbol_data)
             (store_id (Slot i) (set_coefficient i (vector i d) czero)
                       (mkMemory (with_coded i false d) symbol_data [])).

(** The part of the decoder no row operation writes. *)
Definition header (d : decoder)
  : nat * nat * N * nat * list bool * list bool :=
  (symbols d, symbol_length d, m_rank d, m_maximum_pivot d,
   m_uncoded d, m_coded d).

(** A step that wrote the working buffers only. *)
Record buffers_only (data id : buffer) (m m' : memory) : Prop := {
  bo_header : header (dec m') = header (dec m);
  bo_vector_storage :
    length (vector_storage (dec m')) = length (vector_storage (dec m));
  bo_symbol_storage :
    length (symbol_storage (dec m')) = length (symbol_storage (dec m));
  bo_vector : forall j, id <> Slot j -> vector j (dec m') = vector j (dec m);
  bo_symbol :
    forall j, data <> Slot j -> symbol j (dec m') = symbol j (dec m);
  bo_id_length : length (load_id id m') = length (load_id id m);
  bo_data_length : length (load_data data m') = length (load_data data m)
}.

(** A step that wrote stored rows only, and none of the slots [keep]
    holds. *)
Record rows_only (data id : buffer) (m m' : memory) : Prop := {
  ro_header : header (dec m') = header (dec m);
  ro_vector_storage :
    length (vector_storage (dec m')) = length (vector_storage (dec m));
  ro_symbol_storage :
    length (symbol_storage (dec m')) = length (symbol_storage (dec m));
  ro_id : load_id id m' = load_id id m;
  ro_data : load_data data m' = load_data data m;
  ro_vector :
    forall j, nth j (m_coded (dec m)) false = false ->
              vector j (dec m') = vector j (dec m);
  ro_symbol :
    forall j, nth j (m_coded (dec m)) false = false ->
              symbol j (dec m') = symbol j (dec m)
}.
End Vocabulary.

(** ** Scenarios

    The blocks of the seed scenarios: over GF(2), [k = 2] symbols of
    [m = 2] bytes, [A = AA BB] and [B = CC DD]; over GF(5), two symbols of
    one value. *)
Module Scenario.
Definition A : list N := [0xAA; 0xBB]%N.
Definition B : list N := [0xCC; 0xDD]%N.
Definition A_xor_B : list N := [0x66; 0x66]%N.
Definition block : list (list N) := [A; B].

Definition fresh : @decoder GF2.ops :=
  @initialize GF2.ops 2 2 (@construct GF2.ops 2 2).

(** The coded packet [(sv = 11, sd = A xor B)] absorbed. *)
Definition coded_first : @decoder GF2.ops :=
  @decode GF2.ops A_xor_B [true; true] fresh.

(** Then [decode_raw] of [B] at index 1. *)
Definition then_raw_B : @decoder GF2.ops :=
  @decode_raw GF2.ops B 1 coded_first.

(** Or [decode_raw] of [A] at index 0, the swap path. *)
Definition then_raw_A : @decoder GF2.ops :=
  @decode_raw GF2.ops A 0 coded_first.

(** The coded packet [(sv = 10, sd = A)], then [decode_raw] of [A] at
    index 0: a swap whose displaced row reduces to nothing. *)
Definition coded_A : @decoder GF2.ops :=
  @decode GF2.ops A [true; false] fresh.

Definition coded_A_then_raw_A : @decoder GF2.ops :=
  @decode_raw GF2.ops A 0 coded_A.

(** Two coded packets that complete the block. *)
Definition two_coded : @decoder GF2.ops :=
  @decode GF2.ops B [false; true] coded_first.


Definition fresh5 : @decoder GF5.ops :=
  @initialize GF5.ops 2 1 (@construct GF5.ops 2 1).

(** [2 * 4 + 3 * 1 = 1] modulo 5. *)
Definition coded5 : @packet GF5.ops :=
  @Coded GF5.ops [GF5.R1] [GF5.R2; GF5.R3].
Definition raw5 : @packet GF5.ops := @Raw GF5.ops [GF5.R4] 0.
End Scenario.

(** ** The assertions of the elimination

    What the member functions assert, as predicates on the memory they
    are entered with (the pointer checks apart: a buffer here is a
    value).  [normalize_asserts] is above. *)

Section Assertions.
Context {O : FieldOps}.

(** [assert(index < symbols())], which [symbol_exists(index)] makes and
    [symbol(index)] of the payload store makes again. *)
Definition index_asserts (index : nat) (m : memory) : bool :=
  index <? symbols (dec m).

(** [assert(m_uncoded[pivot_index] == false)] and
    [assert(m_coded[pivot_index] == false)], as [store_coded_symbol]
    makes them, and the one of [symbol(pivot_index)]. *)
Definition store_coded_symbol_asserts (pivot_index : nat) (m : memory)
  : bool :=
  negb (nth pivot_index (m_uncoded (dec m)) false)
  && negb (nth pivot_index (m_coded (dec m)) false)
  && index_asserts pivot_index m.

Definition store_uncoded_symbol_asserts (pivot_index : nat) (m : memory)
  : bool :=
  negb (nth pivot_index (m_uncoded (dec m)) false)
  && negb (nth pivot_index (m_coded (dec m)) false)
  && index_asserts pivot_index m.

(** The three assertions [forward_substitute_from_pivot] makes on entry,
    and the one of [symbol_exists(i)] in its loop.  The loop runs [i] from
    [pivot_index + 1] to [m_maximum_pivot] and calls [symbol_exists(i)]
    wherever the working vector is not zero at [i]; the assertion is asked
    of every index of that range.  No step of the loop writes [symbols()]
    or [m_maximum_pivot]. *)
Definition forward_substitute_from_pivot_asserts (pivot_index : nat)
           (m : memory) : bool :=
  (pivot_index <? symbols (dec m))
  && negb (nth pivot_index (m_uncoded (dec m)) false)
  && negb (nth pivot_index (m_coded (dec m)) false)
  && forallb (fun i => index_asserts i m)
             (seq (pivot_index + 1)
                  (m_maximum_pivot (dec m) - pivot_index)).

(** The assertion [backward_substitute] makes on entry, and the one of
    [symbol(i)] in its loop, which runs [i] from 0 to [m_maximum_pivot]
    and reaches [symbol(i)] at coded slots; the assertion is asked of
    every index of that range. *)
Definition backward_substitute_asserts (pivot_index : nat) (m : memory)
  : bool :=
  (pivot_index <? symbols (dec m))
  && forallb (fun i => index_asserts i m)
             (seq 0 (m_maximum_pivot (dec m) + 1)).

(** The assertions met along one run of [decode_with_vector], each on the
    memory its function is entered with.  The loop of
    [forward_substitute_to_pivot] hands [symbol_exists] indices below
    [symbols()] only, by its own bound. *)
Definition decode_with_vector_asserts (data id : buffer) (m : memory)
  : bool :=
  let (m1, pivot_index) := forward_substitute_to_pivot data id m in
  match pivot_index with
  | None => true
  | Some p =>
      let m2 := if is_binary then m1 else normalize data id p m1 in
      let m3 := forward_substitute_from_pivot data id p m2 in
      let m4 := backward_substitute data id p m3 in
      (is_binary || normalize_asserts id p m1)
      && forward_substitute_from_pivot_asserts p m2
      && backward_substitute_asserts p m3
      && store_coded_symbol_asserts p m4
  end.

(** The assertions met along one run of [swap_decode]: its own three and
    the one of [symbol(pivot_index)], those of the re-absorption it runs
    on the stored row, and those of [store_uncoded_symbol] at its end. *)
Definition swap_decode_asserts (data : buffer) (pivot_index : nat)
           (m : memory) : Prop :=
  nth pivot_index (m_coded (dec m)) false = true
  /\ nth pivot_index (m_uncoded (dec m)) false = false
  /\ index_asserts pivot_index m = true
  /\ coefficient pivot_index (vector pivot_index (dec m)) = cone
  /\ let m1 := on_dec (with_coded pivot_index false) m in
     let m2 :=
       store_id (Slot pivot_index)
                (set_coefficient pivot_index (vector pivot_index (dec m1))
                                 czero) m1 in
     let m3 :=
       store_data (Slot pivot_index)
                  (subtract_data (symbol pivot_index (dec m2))
                                 (load_data data m2)) m2 in
     let m4 := decode_with_vector (Slot pivot_index) (Slot pivot_index) m3 in
     let m5 :=
       store_id (Slot pivot_index)
                (fill_n (vector pivot_index (dec m4))
                        (vector_length (dec m4)) czero) m4 in
     decode_with_vector_asserts (Slot pivot_index) (Slot pivot_index) m3
     = true
     /\ store_uncoded_symbol_asserts pivot_index m5 = true.

(** The assertions met along one run of [decode_raw], the one on
    [symbol_index], which is the caller's to meet, apart. *)
Definition decode_raw_asserts (symbol_data : list elem) (symbol_index : nat)
           (d : decoder) : Prop :=
  if nth symbol_index (m_uncoded d) false then True
  else
    let m := mkMemory d symbol_data [] in
    if nth symbol_index (m_coded d) false then
      swap_decode_asserts Caller symbol_index m
    else
      let m1 := store_uncoded_symbol Caller symbol_index m in
      store_uncoded_symbol_asserts symbol_index m = true
      /\ backward_substitute_asserts symbol_index m1 = true.
End Assertions.

(** ** Sequences of packets *)

Section Sequences.
Context {O : FieldOps}.

(** Whether the raw symbol of index [j] is among the packets. *)
Definition raw_among (j : nat) (ps : list packet) : bool :=
  existsb (fun p => match raw_index p with
                    | Some i => j =? i
                    | None => false
                    end) ps.
End Sequences.

(** ** The deep symbol storage

    [kodo::deep_symbol_storage], the layer that owns the payload buffer:
    one [std::vector<uint8_t>] for the whole block, symbol [index] being
    the [symbol_size] bytes at [index * symbol_size].  The decoder above
    addresses the same buffer row by row.  The two dimensions are those the
    layer below records at [initialize] and returns from [symbols()] and
    [symbol_size()]. *)

Module DeepSymbolStorage.

(** [uint32_t] multiplication. *)
Definition mul32 (a b : N) : N := ((a * b) mod 2 ^ 32)%N.

Record storage : Type := mkStorage {
  symbols : N;
  symbol_size : N;
  m_data : list Byte.byte
}.

(** [std::vector::resize(n, value)]. *)
Definition resize (n : nat) (value : Byte.byte) (v : list Byte.byte)
  : list Byte.byte :=
  firstn n v ++ repeat value (n - length v).

(** [construct]; [None] when [assert(max_data_needed > 0)] fails. *)
Definition construct (max_symbols max_symbol_size : N) (s : storage)
  : option storage :=
  let max_data_needed := mul32 max_symbols max_symbol_size in
  if (0 <? max_data_needed)%N then
    Some (mkStorage (symbols s) (symbol_size s)
                    (resize (N.to_nat max_data_needed) Byte.x00 (m_data s)))
  else None.

Definition initialize (symbols' symbol_size' : N) (s : storage) : storage :=
  mkStorage symbols' symbol_size' (map (fun _ => Byte.x00) (m_data s)).

(** [symbol(index)] and [raw_symbol(index)]: the pointer
    [&m_data[index * symbol_size()]] as an offset into the buffer; [None]
    when [assert(index < symbols())] fails. *)
Definition symbol (index : N) (s : storage) : option N :=
  if (index <? symbols s)%N then Some (mul32 index (symbol_size s))
  else None.

(** The [size] bytes at [offset]. *)
Definition window (offset size : N) (data : list Byte.byte)
  : list Byte.byte :=
  firstn (N.to_nat size) (skipn (N.to_nat offset) data).

(** What reading [symbol_size()] bytes through [symbol(index)] gives. *)
Definition read_symbol (index : N) (s : storage) : option (list Byte.byte) :=
  match symbol index s with
  | Some offset => Some (window offset (symbol_size s) (m_data s))
  | None => None
  end.

Section Copy.
(** [copy_storage(dest, src)] of the storage helpers, which the sources
    at hand do not include, is a parameter: given the bytes [dest] points
    at and the bytes of [src], the bytes [dest] points at afterwards. *)
Variable copy_storage : list Byte.byte -> list Byte.byte -> list Byte.byte.

(** [set_symbols]; [None] when one of its assertions fails. *)
Definition set_symbols (symbol_storage : list Byte.byte) (s : storage)
  : option storage :=
  if (0 <? N.of_nat (length symbol_storage))%N
     && (N.of_nat (length symbol_storage)
         =? mul32 (symbols s) (symbol_size s))%N
  then
    Some (mkStorage (symbols s) (symbol_size s)
                    (copy_storage (m_data s) symbol_storage))
  else None.

(** [set_symbol]: the destination is the buffer advanced by
    [index * symbol_size()]; [None] when one of its assertions fails. *)
Definition set_symbol (index : N) (symbol' : list Byte.byte) (s : storage)
  : option storage :=
  if (N.of_nat (length symbol') =? symbol_size s)%N
     && (index <? symbols s)%N
  then
    let offset := mul32 index (symbol_size s) in
    Some (mkStorage (symbols s) (symbol_size s)
                    (firstn (N.to_nat offset) (m_data s)
                     ++ copy_storage (skipn (N.to_nat offset) (m_data s))
                                     symbol'))
  else None.
End Copy.

(** A copy that writes the source over the first bytes of the
    destination. *)
Definition copy_bytes (dest src : list Byte.byte) : list Byte.byte :=
  src ++ skipn (length src) dest.

(** The buffer holds the block of the current dimensions. *)
Definition holds_block (s : storage) : Prop :=
  (symbols s * symbol_size s <= N.of_nat (length (m_data s)))%N
  /\ (N.of_nat (length (m_data s)) < 2 ^ 32)%N.

(** The payload rows of the block, as [symbol(0)], ...,
    [symbol(symbols() - 1)] read them. *)
Definition rows (s : storage) : list (list Byte.byte) :=
  map (fun i => window (mul32 (N.of_nat i) (symbol_size s)) (symbol_size s)
                       (m_data s))
      (seq 0 (N.to_nat (symbols s))).

(** The buffer once [bytes] have been written through the pointer
    [symbol(index)], as [std::copy] and the in-place row operations of the
    decoder above write. *)
Definition write_symbol (index : N) (bytes : list Byte.byte) (s : storage)
  : storage :=
  let offset := N.to_nat (mul32 index (symbol_size s)) in
  mkStorage (symbols s) (symbol_size s)
            (firstn offset (m_data s)
             ++ bytes ++ skipn (offset + length bytes) (m_data s)).

(** A buffer of two symbols of two bytes. *)
Definition two_by_two : storage :=
  mkStorage 2 2 [Byte.x00; Byte.x11; Byte.x22; Byte.x33].
End DeepSymbolStorage.

(** * Facts *)

(** ** The list primitives *)

Section ListFacts.
Context {A : Type}.

Lemma length_set_nth (i : nat) (x : A) (l : list A) :
  length (set_nth i x l) = length l.
Proof.
  revert i; induction l as [|h t IH]; intros [|i]; simpl; auto.
Qed.

Lemma nth_set_nth_eq (i : nat) (x : A) (l : list A) (d : A) :
  i < length l -> nth i (set_nth i x l) d = x.
Proof.
  revert i; induction l as [|h t IH]; intros [|i] Hi; simpl in *;
    try lia; auto.
  apply IH; lia.
Qed.

Lemma nth_set_nth_ne (i j : nat) (x : A) (l : list A) (d : A) :
  i <> j -> nth j (set_nth i x l) d = nth j l d.
Proof.
  revert i j; induction l as [|h t IH]; intros [|i] [|j] Hij; simpl;
    auto; try lia.
Qed.

Lemma set_nth_same (i : nat) (l : list A) (d : A) :
  set_nth i (nth i l d) l = l.
Proof.
  revert i; induction l as [|h t IH]; intros [|i]; simpl; auto.
  now rewrite IH.
Qed.

Lemma length_fill_n (l : list A) (n : nat) (x : A) :
  length (fill_n l n x) = length l.
Proof.
  revert l; induction n as [|n IH]; intros [|h t]; simpl; auto.
Qed.

Lemma nth_fill_n_lt (l : list A) (n j : nat) (x d : A) :
  j < n -> j < length l -> nth j (fill_n l n x) d = x.
Proof.
  revert l j; induction n as [|n IH]; intros [|h t] [|j] Hn Hl;
    simpl in *; try lia; auto.
  apply IH; lia.
Qed.

Lemma nth_fill_n_ge (l : list A) (n j : nat) (x d : A) :
  n <= j -> nth j (fill_n l n x) d = nth j l d.
Proof.
  revert l j; induction n as [|n IH]; intros [|h t] [|j] Hn;
    simpl in *; try lia; auto.
  apply IH; lia.
Qed.

Lemma copy_all (src dst : list A) (n : nat) :
  length src = n -> length dst = n -> copy src n dst = src.
Proof.
  revert src dst; induction n as [|n IH]; intros [|s src] [|d dst] Hs Hd;
    simpl in *; try discriminate; auto.
  f_equal; apply IH; lia.
Qed.

Lemma length_zip_into {B : Type} (f : A -> B -> A) (dst : list A)
      (src : list B) :
  length (zip_into f dst src) = length dst.
Proof.
  revert src; induction dst as [|d dst IH]; intros [|s src]; simpl; auto.
Qed.

Lemma nth_zip_into {B : Type} (f : A -> B -> A) (dst : list A)
      (src : list B) (j : nat) (da : A) (db : B) :
  j < length dst -> j < length src ->
  nth j (zip_into f dst src) da = f (nth j dst da) (nth j src db).
Proof.
  revert src j; induction dst as [|d dst IH]; intros [|s src] [|j] Hd Hs;
    simpl in *; try lia; auto.
  apply IH; lia.
Qed.

Lemma zip_into_ext {B : Type} (f g : A -> B -> A) (dst : list A)
      (src : list B) :
  (forall a b, f a b = g a b) -> zip_into f dst src = zip_into g dst src.
Proof.
  intros Hfg; revert src; induction dst as [|d dst IH]; intros [|s src];
    simpl; auto.
  now rewrite Hfg, IH.
Qed.

Lemma map_id_ext (f : A -> A) (l : list A) :
  (forall a, f a = a) -> map f l = l.
Proof.
  intros Hf; induction l as [|h t IH]; simpl; auto.
  now rewrite Hf, IH.
Qed.

Lemma nth_repeat_lt (x d : A) (n j : nat) :
  j < n -> nth j (repeat x n) d = x.
Proof.
  revert j; induction n as [|n IH]; intros [|j] Hj; simpl; try lia; auto.
  apply IH; lia.
Qed.
End ListFacts.

Section Facts.
Context {O : FieldOps} {L : FieldLaws O}.

Add Ring coeff_Ring : coeff_ring.

(** ** The field and the payload module *)

Lemma nonzero_true (x : coeff) : nonzero x = true <-> x <> czero.
Proof.
  pose proof (nonzero_spec x) as H.
  destruct (nonzero x); split; intros; try congruence.
  - intros Hx; apply H in Hx; discriminate.
  - exfalso; apply H0; apply H; reflexivity.
Qed.

Lemma nonzero_zero : nonzero czero = false.
Proof. apply nonzero_spec; reflexivity. Qed.

Lemma invert_r (x : coeff) : x <> czero -> cmul x (invert x) = cone.
Proof. intros Hx; rewrite <- (invert_l x Hx); ring. Qed.

Lemma binary_nonzero (x : coeff) :
  is_binary = true -> nonzero x = true -> x = cone.
Proof.
  intros Hb Hx; destruct (binary_spec Hb x) as [H|H]; auto.
  subst x; rewrite nonzero_zero in Hx; discriminate.
Qed.

Lemma eadd_0_r (x : elem) : eadd x ezero = x.
Proof. rewrite eadd_comm; apply eadd_0_l. Qed.

(** Two multiples of one payload value add up as their scalars do. *)
Lemma escale_collect (a b c : coeff) (x : elem) :
  cadd a b = c -> eadd (escale a x) (escale b x) = escale c x.
Proof. intros <-; symmetry; apply escale_add_l. Qed.

Lemma esub_scale (a b : coeff) (x : elem) :
  esub (escale a x) (escale b x) = escale (csub a b) x.
Proof.
  rewrite esub_def, <- escale_mul.
  apply escale_collect; ring.
Qed.

Lemma emulsub_undo (s e : elem) (c : coeff) :
  esub (esub s (escale c e)) (escale (copp c) e) = s.
Proof.
  rewrite !esub_def, <- !escale_mul, <- eadd_assoc.
  rewrite (escale_collect _ _ czero) by ring.
  now rewrite escale_0, eadd_0_r.
Qed.

Lemma emulsub_self (s : elem) (c : coeff) :
  esub s (escale (csub cone c) s) = escale c s.
Proof.
  rewrite <- (escale_1 s) at 1.
  rewrite esub_scale; f_equal; ring.
Qed.




(** ** Sums *)

Lemma csum_ext (n : nat) (f g : nat -> coeff) :
  (forall i, i < n -> f i = g i) -> csum n f = csum n g.
Proof.
  induction n as [|n IH]; intros H; simpl; auto.
  rewrite IH, H; auto.
Qed.

Lemma csum_zero (n : nat) (f : nat -> coeff) :
  (forall i, i < n -> f i = czero) -> csum n f = czero.
Proof.
  induction n as [|n IH]; intros H; simpl; auto.
  rewrite IH, H; auto; ring.
Qed.

Lemma csum_mulsub (n : nat) (f g : nat -> coeff) (c : coeff) :
  csum n (fun i => csub (f i) (cmul (g i) c))
  = csub (csum n f) (cmul (csum n g) c).
Proof.
  induction n as [|n IH]; simpl; [ring|].
  rewrite IH; ring.
Qed.

(** A sum with at most one term that is not zero. *)
Lemma csum_single (n i : nat) (f : nat -> coeff) :
  i < n -> (forall j, j < n -> j <> i -> f j = czero) -> csum n f = f i.
Proof.
  induction n as [|n IH]; intros Hi H; [lia|]; simpl.
  destruct (Nat.eq_dec i n) as [->|Hne].
  - rewrite csum_zero; [ring|]; intros j Hj; apply H; lia.
  - rewrite IH by (try lia; intros; apply H; lia).
    rewrite (H n) by lia; ring.
Qed.





(** ** Rows *)

Lemma length_multiply_subtract_id (x y : list coeff) (c : coeff) :
  length (multiply_subtract_id x y c) = length x.
Proof. apply length_zip_into. Qed.

Lemma length_multiply_subtract_data (s e : list elem) (c : coeff) :
  length (multiply_subtract_data s e c) = length s.
Proof. apply length_zip_into. Qed.

Lemma length_multiply_id (x : list coeff) (c : coeff) :
  length (multiply_id x c) = length x.
Proof. apply length_map. Qed.

Lemma length_multiply_data (s : list elem) (c : coeff) :
  length (multiply_data s c) = length s.
Proof. apply length_map. Qed.

Lemma coefficient_multiply_subtract (x y : list coeff) (c : coeff) (j : nat) :
  j < length x -> j < length y ->
  coefficient j (multiply_subtract_id x y c)
  = csub (coefficient j x) (cmul (coefficient j y) c).
Proof.
  intros Hx Hy; unfold coefficient, multiply_subtract_id.
  now rewrite (nth_zip_into _ _ _ _ czero czero).
Qed.

Lemma nth_multiply_subtract_data (s e : list elem) (c : coeff) (t : nat) :
  t < length s -> t < length e ->
  nth t (multiply_subtract_data s e c) ezero
  = esub (nth t s ezero) (escale c (nth t e ezero)).
Proof.
  intros Hs He; unfold multiply_subtract_data.
  now rewrite (nth_zip_into _ _ _ _ ezero ezero).
Qed.

Lemma coefficient_multiply (x : list coeff) (c : coeff) (j : nat) :
  coefficient j (multiply_id x c) = cmul (coefficient j x) c.
Proof.
  unfold coefficient, multiply_id.
  rewrite <- (map_nth (fun a => cmul a c) x czero j).
  f_equal; ring.
Qed.


Lemma subtract_id_multiply_subtract (x y : list coeff) :
  subtract_id x y = multiply_subtract_id x y cone.
Proof. apply zip_into_ext; intros; ring. Qed.

Lemma subtract_data_multiply_subtract (s e : list elem) :
  subtract_data s e = multiply_subtract_data s e cone.
Proof. apply zip_into_ext; intros; now rewrite escale_1. Qed.

Lemma multiply_subtract_id_undo (x y : list coeff) (c : coeff) :
  length x = length y ->
  multiply_subtract_id (multiply_subtract_id x y c) y (copp c) = x.
Proof.
  intros Hxy.
  apply (nth_ext _ _ czero czero).
  - now rewrite !length_multiply_subtract_id.
  - intros j Hj; rewrite !length_multiply_subtract_id in Hj.
    change (coefficient j
              (multiply_subtract_id (multiply_subtract_id x y c) y (copp c))
            = coefficient j x).
    rewrite !coefficient_multiply_subtract;
      rewrite ?length_multiply_subtract_id; try lia.
    ring.
Qed.

Lemma multiply_subtract_data_undo (s e : list elem) (c : coeff) :
  length s = length e ->
  multiply_subtract_data (multiply_subtract_data s e c) e (copp c) = s.
Proof.
  intros Hse.
  apply (nth_ext _ _ ezero ezero).
  - now rewrite !length_multiply_subtract_data.
  - intros t Ht; rewrite !length_multiply_subtract_data in Ht.
    rewrite !nth_multiply_subtract_data;
      rewrite ?length_multiply_subtract_data; try lia.
    apply emulsub_undo.
Qed.

Lemma multiply_id_multiply_subtract (x : list coeff) (c : coeff) :
  multiply_id x c = multiply_subtract_id x x (csub cone c).
Proof.
  apply (nth_ext _ _ czero czero).
  - now rewrite length_multiply_id, length_multiply_subtract_id.
  - intros j Hj; rewrite length_multiply_id in Hj.
    change (coefficient j (multiply_id x c)
            = coefficient j (multiply_subtract_id x x (csub cone c))).
    rewrite coefficient_multiply, coefficient_multiply_subtract by lia.
    ring.
Qed.

Lemma multiply_data_multiply_subtract (s : list elem) (c : coeff) :
  multiply_data s c = multiply_subtract_data s s (csub cone c).
Proof.
  apply (nth_ext _ _ ezero ezero).
  - now rewrite length_multiply_data, length_multiply_subtract_data.
  - intros t Ht; rewrite length_multiply_data in Ht.
    rewrite nth_multiply_subtract_data by lia.
    rewrite emulsub_self.
    unfold multiply_data.
    rewrite (nth_indep _ ezero (escale c ezero))
      by (now rewrite length_map).
    exact (map_nth (escale c) s ezero t).
Qed.

Lemma multiply_id_one (x : list coeff) : multiply_id x cone = x.
Proof. apply map_id_ext; intros; ring. Qed.

Lemma multiply_data_one (s : list elem) : multiply_data s cone = s.
Proof. apply map_id_ext; intros; apply escale_1. Qed.

Lemma invert_one : invert cone = cone.
Proof.
  rewrite <- (invert_l cone one_neq_zero) at 2; ring.
Qed.

(** The elementary row. *)
Lemma length_elementary (n i : nat) : length (elementary n i) = n.
Proof. unfold elementary; now rewrite length_set_nth, repeat_length. Qed.

Lemma coefficient_elementary_eq (n i : nat) :
  i < n -> coefficient i (elementary n i) = cone.
Proof.
  intros Hi; unfold coefficient, elementary.
  apply nth_set_nth_eq; now rewrite repeat_length.
Qed.

Lemma coefficient_elementary_ne (n i j : nat) :
  j <> i -> coefficient j (elementary n i) = czero.
Proof.
  intros Hj; unfold coefficient, elementary.
  rewrite nth_set_nth_ne by auto.
  destruct (Nat.lt_ge_cases j n) as [H|H].
  - now apply nth_repeat_lt.
  - apply nth_overflow; now rewrite repeat_length.
Qed.

(** A row is its coefficients. *)
Lemma row_ext (n : nat) (x y : list coeff) :
  length x = n -> length y = n ->
  (forall j, j < n -> coefficient j x = coefficient j y) -> x = y.
Proof.
  intros Hx Hy H; apply (nth_ext _ _ czero czero); [congruence|].
  intros j Hj; apply H; lia.
Qed.

Lemma coefficient_set_eq (i : nat) (v : list coeff) (x : coeff) :
  i < length v -> coefficient i (set_coefficient i v x) = x.
Proof. apply nth_set_nth_eq. Qed.

Lemma coefficient_set_ne (i j : nat) (v : list coeff) (x : coeff) :
  i <> j -> coefficient j (set_coefficient i v x) = coefficient j v.
Proof. apply nth_set_nth_ne. Qed.

Lemma length_set_coefficient (i : nat) (v : list coeff) (x : coeff) :
  length (set_coefficient i v x) = length v.
Proof. apply length_set_nth. Qed.

(** ** Memory: what a store changes and what it leaves *)

Lemma header_store_id (b : buffer) (v : list coeff) (m : memory) :
  header (dec (store_id b v m)) = header (dec m).
Proof. destruct b; reflexivity. Qed.

Lemma header_store_data (b : buffer) (s : list elem) (m : memory) :
  header (dec (store_data b s m)) = header (dec m).
Proof. destruct b; reflexivity. Qed.

Lemma symbol_storage_store_id (b : buffer) (v : list coeff) (m : memory) :
  symbol_storage (dec (store_id b v m)) = symbol_storage (dec m).
Proof. destruct b; reflexivity. Qed.

Lemma vector_storage_store_data (b : buffer) (s : list elem) (m : memory) :
  vector_storage (dec (store_data b s m)) = vector_storage (dec m).
Proof. destruct b; reflexivity. Qed.

Lemma length_vector_storage_store_id (b : buffer) (v : list coeff)
      (m : memory) :
  length (vector_storage (dec (store_id b v m)))
  = length (vector_storage (dec m)).
Proof. destruct b; simpl; auto using length_set_nth. Qed.

Lemma length_symbol_storage_store_data (b : buffer) (s : list elem)
      (m : memory) :
  length (symbol_storage (dec (store_data b s m)))
  = length (symbol_storage (dec m)).
Proof. destruct b; simpl; auto using length_set_nth. Qed.

Lemma symbol_store_id (b : buffer) (v : list coeff) (m : memory) (j : nat) :
  symbol j (dec (store_id b v m)) = symbol j (dec m).
Proof. unfold symbol; now rewrite symbol_storage_store_id. Qed.

Lemma vector_store_data (b : buffer) (s : list elem) (m : memory) (j : nat) :
  vector j (dec (store_data b s m)) = vector j (dec m).
Proof. unfold vector; now rewrite vector_storage_store_data. Qed.

Lemma vector_store_id_ne (b : buffer) (v : list coeff) (m : memory)
      (j : nat) :
  b <> Slot j -> vector j (dec (store_id b v m)) = vector j (dec m).
Proof.
  destruct b as [|i]; intros Hb; [reflexivity|].
  unfold vector; simpl; apply nth_set_nth_ne; congruence.
Qed.

Lemma symbol_store_data_ne (b : buffer) (s : list elem) (m : memory)
      (j : nat) :
  b <> Slot j -> symbol j (dec (store_data b s m)) = symbol j (dec m).
Proof.
  destruct b as [|i]; intros Hb; [reflexivity|].
  unfold symbol; simpl; apply nth_set_nth_ne; congruence.
Qed.

Lemma load_id_store_id (b : buffer) (v : list coeff) (m : memory) :
  in_range b (dec m) -> load_id b (store_id b v m) = v.
Proof.
  destruct b as [|i]; intros Hb; [reflexivity|].
  unfold load_id, vector; simpl; apply nth_set_nth_eq; apply Hb.
Qed.

Lemma load_data_store_data (b : buffer) (s : list elem) (m : memory) :
  in_range b (dec m) -> load_data b (store_data b s m) = s.
Proof.
  destruct b as [|i]; intros Hb; [reflexivity|].
  unfold load_data, symbol; simpl; apply nth_set_nth_eq; apply Hb.
Qed.

Lemma load_id_store_id_ne (b b' : buffer) (v : list coeff) (m : memory) :
  b <> b' -> load_id b' (store_id b v m) = load_id b' m.
Proof.
  destruct b' as [|j]; intros Hb.
  - destruct b; [congruence|reflexivity].
  - now apply vector_store_id_ne.
Qed.

Lemma load_data_store_data_ne (b b' : buffer) (s : list elem) (m : memory) :
  b <> b' -> load_data b' (store_data b s m) = load_data b' m.
Proof.
  destruct b' as [|j]; intros Hb.
  - destruct b; [congruence|reflexivity].
  - now apply symbol_store_data_ne.
Qed.

Lemma load_data_store_id (b b' : buffer) (v : list coeff) (m : memory) :
  load_data b' (store_id b v m) = load_data b' m.
Proof.
  destruct b' as [|j]; [destruct b; reflexivity|apply symbol_store_id].
Qed.

Lemma load_id_store_data (b b' : buffer) (s : list elem) (m : memory) :
  load_id b' (store_data b s m) = load_id b' m.
Proof.
  destruct b' as [|j]; [destruct b; reflexivity|apply vector_store_data].
Qed.

Lemma in_range_header (b : buffer) (d d' : decoder) :
  length (vector_storage d') = length (vector_storage d) ->
  length (symbol_storage d') = length (symbol_storage d) ->
  in_range b d -> in_range b d'.
Proof. destruct b; simpl; intros H1 H2; [auto|now rewrite H1, H2]. Qed.

(** The header decides occupancy. *)
Lemma header_inv (d d' : decoder) :
  header d' = header d ->
  symbols d' = symbols d /\ symbol_length d' = symbol_length d
  /\ m_rank d' = m_rank d /\ m_maximum_pivot d' = m_maximum_pivot d
  /\ m_uncoded d' = m_uncoded d /\ m_coded d' = m_coded d.
Proof. unfold header; intros H; inversion H; auto 10. Qed.

Lemma symbol_exists_header (d d' : decoder) (i : nat) :
  header d' = header d -> symbol_exists i d' = symbol_exists i d.
Proof.
  intros H; apply header_inv in H as (_ & _ & _ & _ & Hu & Hc).
  unfold symbol_exists; now rewrite Hu, Hc.
Qed.

Lemma free_not_occupied (b : buffer) (d : decoder) (j : nat) :
  free b d -> symbol_exists j d = true -> b <> Slot j.
Proof.
  destruct b as [|i]; simpl; [congruence|].
  intros [_ Hi] Hj Heq; inversion Heq; subst; congruence.
Qed.

Lemma free_in_range (b : buffer) (d : decoder) :
  shape d -> free b d -> in_range b d.
Proof.
  intros Hs; destruct b as [|i]; simpl; auto.
  intros [Hi _].
  now rewrite (shape_vector_storage _ Hs), (shape_symbol_storage _ Hs).
Qed.

Lemma working_in_range_id (data id : buffer) (m : memory) :
  working data id m -> in_range id (dec m).
Proof. intros W; eapply free_in_range; apply W. Qed.

Lemma working_in_range_data (data id : buffer) (m : memory) :
  working data id m -> in_range data (dec m).
Proof. intros W; eapply free_in_range; apply W. Qed.

(** ** Steps that write the working buffers only *)

Lemma buffers_only_refl (data id : buffer) (m : memory) :
  buffers_only data id m m.
Proof. constructor; auto. Qed.

Lemma buffers_only_trans (data id : buffer) (m1 m2 m3 : memory) :
  buffers_only data id m1 m2 -> buffers_only data id m2 m3 ->
  buffers_only data id m1 m3.
Proof.
  intros B1 B2; constructor.
  - rewrite (bo_header _ _ _ _ B2); apply B1.
  - rewrite (bo_vector_storage _ _ _ _ B2); apply B1.
  - rewrite (bo_symbol_storage _ _ _ _ B2); apply B1.
  - intros j Hj; rewrite (bo_vector _ _ _ _ B2), (bo_vector _ _ _ _ B1); auto.
  - intros j Hj; rewrite (bo_symbol _ _ _ _ B2), (bo_symbol _ _ _ _ B1); auto.
  - rewrite (bo_id_length _ _ _ _ B2); apply B1.
  - rewrite (bo_data_length _ _ _ _ B2); apply B1.
Qed.

Lemma buffers_only_exists (data id : buffer) (m m' : memory) (j : nat) :
  buffers_only data id m m' ->
  symbol_exists j (dec m') = symbol_exists j (dec m).
Proof. intros B; apply symbol_exists_header, B. Qed.

Lemma working_buffers_only (data id : buffer) (m m' : memory) :
  working data id m -> buffers_only data id m m' -> working data id m'.
Proof.
  intros W B.
  destruct (header_inv _ _ (bo_header _ _ _ _ B))
    as (Hk & Hl & Hr & Hp & Hu & Hc).
  assert (He : forall j, symbol_exists j (dec m') = symbol_exists j (dec m))
    by (intros; eapply buffers_only_exists; eauto).
  assert (Hv : forall j, symbol_exists j (dec m) = true ->
                         vector j (dec m') = vector j (dec m)).
  { intros j Hj; apply (bo_vector _ _ _ _ B).
    eapply free_not_occupied; [apply W|exact Hj]. }
  pose proof (work_shape _ _ _ W) as S.
  assert (Hfree : forall b, free b (dec m) -> free b (dec m')).
  { intros [|i]; simpl; auto; rewrite Hk, He; auto. }
  constructor.
  - constructor; rewrite ?Hk, ?Hl, ?Hp, ?Hu, ?Hc; try apply S.
    + rewrite (bo_vector_storage _ _ _ _ B); apply S.
    + rewrite (bo_symbol_storage _ _ _ _ B); apply S.
    + intros i Hi.
      destruct id as [|q].
      * rewrite (bo_vector _ _ _ _ B) by congruence; now apply S.
      * destruct (Nat.eq_dec q i) as [->|Hne].
        -- pose proof (bo_id_length _ _ _ _ B) as Hlen; simpl in Hlen.
           rewrite Hlen; now apply S.
        -- rewrite (bo_vector _ _ _ _ B) by congruence; now apply S.
    + intros i Hi.
      destruct data as [|q].
      * rewrite (bo_symbol _ _ _ _ B) by congruence; now apply S.
      * destruct (Nat.eq_dec q i) as [->|Hne].
        -- pose proof (bo_data_length _ _ _ _ B) as Hlen; simpl in Hlen.
           rewrite Hlen; now apply S.
        -- rewrite (bo_symbol _ _ _ _ B) by congruence; now apply S.
    + intros i Hi Ho; rewrite He in Ho; now apply S.
    + intros i Hi Ho; rewrite He in Ho; rewrite Hv by auto; now apply S.
    + intros i j Hi Hj Hij Hoi Hoj; rewrite He in Hoi, Hoj.
      rewrite Hv by auto; now apply (shape_reduced _ S).
    + intros i j Hi Hj Ho; rewrite He in Ho.
      rewrite Hv by auto; now apply (shape_lower _ S).
    + intros i j Hi Hj Hij Hun.
      rewrite Hv; [now apply (shape_uncoded _ S)|].
      unfold symbol_exists; rewrite Hun; apply orb_true_r.
  - apply Hfree, W.
  - apply Hfree, W.
  - rewrite (bo_id_length _ _ _ _ B), Hk; apply W.
  - rewrite (bo_data_length _ _ _ _ B), Hl; apply W.
Qed.

Lemma rows_in_buffers_only (Q : list coeff -> list elem -> Prop)
      (data id : buffer) (m m' : memory) :
  working data id m -> buffers_only data id m m' ->
  (rows_in Q (dec m') <-> rows_in Q (dec m)).
Proof.
  intros W B.
  destruct (header_inv _ _ (bo_header _ _ _ _ B)) as (Hk & _).
  assert (Hrow : forall j, symbol_exists j (dec m) = true ->
                           vector j (dec m') = vector j (dec m)
                           /\ symbol j (dec m') = symbol j (dec m)).
  { intros j Hj; split.
    - apply (bo_vector _ _ _ _ B).
      eapply free_not_occupied; [apply W|exact Hj].
    - apply (bo_symbol _ _ _ _ B).
      eapply free_not_occupied; [apply W|exact Hj]. }
  unfold rows_in; split; intros H j Hj Ho.
  - destruct (Hrow j Ho) as [<- <-]; apply H; [congruence|].
    now rewrite (buffers_only_exists _ _ _ _ j B).
  - rewrite (buffers_only_exists _ _ _ _ j B) in Ho.
    destruct (Hrow j Ho) as [-> ->]; apply H; [congruence|auto].
Qed.

(** ** Closed properties *)

Lemma closed_multiply (Q : list coeff -> list elem -> Prop)
      (x : list coeff) (s : list elem) (c : coeff) :
  closed Q -> Q x s -> Q (multiply_id x c) (multiply_data s c).
Proof.
  intros HQ H.
  rewrite multiply_id_multiply_subtract, multiply_data_multiply_subtract.
  now apply HQ.
Qed.

Lemma closed_undo (Q : list coeff -> list elem -> Prop)
      (x y : list coeff) (s e : list elem) (c : coeff) :
  closed Q -> length x = length y -> length s = length e ->
  Q (multiply_subtract_id x y c) (multiply_subtract_data s e c) ->
  Q y e -> Q x s.
Proof.
  intros HQ Hxy Hse H Hy.
  rewrite <- (multiply_subtract_id_undo x y c Hxy).
  rewrite <- (multiply_subtract_data_undo s e c Hse).
  now apply HQ.
Qed.

(** ** The elementary steps *)

Lemma store_id_same (b : buffer) (m : memory) :
  store_id b (load_id b m) m = m.
Proof.
  destruct m as [d sd sv]; destruct b as [|i]; [reflexivity|].
  destruct d; unfold store_id, on_dec, with_vector, load_id, vector; simpl.
  now rewrite set_nth_same.
Qed.

Lemma store_data_same (b : buffer) (m : memory) :
  store_data b (load_data b m) m = m.
Proof.
  destruct m as [d sd sv]; destruct b as [|i]; [reflexivity|].
  destruct d; unfold store_data, on_dec, with_symbol, load_data, symbol;
    simpl.
  now rewrite set_nth_same.
Qed.

(** Writing both working buffers. *)
Lemma store_buffers (data id : buffer) (x : list coeff) (s : list elem)
      (m : memory) :
  in_range id (dec m) -> in_range data (dec m) ->
  length x = length (load_id id m) ->
  length s = length (load_data data m) ->
  let m' := store_data data s (store_id id x m) in
  buffers_only data id m m' /\ load_id id m' = x /\ load_data data m' = s.
Proof.
  intros Hid Hdata Hx Hs m'; subst m'.
  assert (Hdata' : in_range data (dec (store_id id x m))).
  { eapply in_range_header; [| |exact Hdata].
    - apply length_vector_storage_store_id.
    - now rewrite symbol_storage_store_id. }
  repeat split.
  - now rewrite header_store_data, header_store_id.
  - now rewrite vector_storage_store_data, length_vector_storage_store_id.
  - now rewrite length_symbol_storage_store_data, symbol_storage_store_id.
  - intros j Hj; now rewrite vector_store_data, vector_store_id_ne.
  - intros j Hj; now rewrite symbol_store_data_ne, symbol_store_id.
  - now rewrite load_id_store_data, load_id_store_id.
  - now rewrite load_data_store_data.
  - now rewrite load_id_store_data, load_id_store_id.
  - now rewrite load_data_store_data.
Qed.

(** In the binary field the XOR of a row is its multiply-subtract. *)
Lemma subtract_stored_eq (data id : buffer) (i : nat) (c : coeff)
      (m : memory) :
  nonzero c = true ->
  subtract_stored data id i c m
  = store_data data
      (multiply_subtract_data (load_data data m) (symbol i (dec m)) c)
      (store_id id
                (multiply_subtract_id (load_id id m) (vector i (dec m)) c)
                m).
Proof.
  intros Hc; unfold subtract_stored.
  destruct is_binary eqn:Hb; rewrite load_data_store_id, symbol_store_id.
  - pose proof (binary_nonzero c Hb Hc); subst c.
    now rewrite subtract_id_multiply_subtract,
      subtract_data_multiply_subtract.
  - reflexivity.
Qed.

Lemma subtract_into_stored_eq (data id : buffer) (i : nat) (c : coeff)
      (m : memory) :
  nonzero c = true ->
  subtract_into_stored data id i c m
  = store_data (Slot i)
      (multiply_subtract_data
         (symbol i (dec m))
         (load_data data
                    (store_id (Slot i)
                              (multiply_subtract_id (vector i (dec m))
                                                    (load_id id m) c) m)) c)
      (store_id (Slot i)
                (multiply_subtract_id (vector i (dec m)) (load_id id m) c)
                m).
Proof.
  intros Hc; unfold subtract_into_stored.
  destruct is_binary eqn:Hb; rewrite symbol_store_id.
  - pose proof (binary_nonzero c Hb Hc); subst c.
    now rewrite subtract_id_multiply_subtract,
      subtract_data_multiply_subtract.
  - reflexivity.
Qed.

Lemma normalize_eq (data id : buffer) (p : nat) (m : memory) :
  normalize data id p m
  = store_data data
      (multiply_data (load_data data m)
                     (invert (coefficient p (load_id id m))))
      (store_id id
                (multiply_id (load_id id m)
                             (invert (coefficient p (load_id id m)))) m).
Proof. unfold normalize; now rewrite load_data_store_id. Qed.

(** The binary field skips [normalize]: it would multiply by one. *)
Lemma normalize_always (data id : buffer) (p : nat) (m : memory) :
  nonzero (coefficient p (load_id id m)) = true ->
  (if is_binary then m else normalize data id p m) = normalize data id p m.
Proof.
  intros Hc; destruct is_binary eqn:Hb; [|reflexivity].
  rewrite normalize_eq, (binary_nonzero _ Hb Hc), invert_one.
  now rewrite multiply_id_one, multiply_data_one, store_id_same,
    store_data_same.
Qed.

(** One stored row subtracted from the working buffers. *)
Lemma subtract_stored_step (data id : buffer) (i : nat) (c : coeff)
      (m : memory) :
  working data id m -> i < symbols (dec m) ->
  symbol_exists i (dec m) = true -> nonzero c = true ->
  let m' := subtract_stored data id i c m in
  working data id m'
  /\ buffers_only data id m m'
  /\ load_id id m'
     = multiply_subtract_id (load_id id m) (vector i (dec m)) c
  /\ (forall Q, closed Q -> (all_in Q data id m' <-> all_in Q data id m)).
Proof.
  intros W Hi Ho Hc m'; subst m'; rewrite (subtract_stored_eq _ _ _ _ _ Hc).
  destruct (store_buffers
              data id
              (multiply_subtract_id (load_id id m) (vector i (dec m)) c)
              (multiply_subtract_data (load_data data m)
                                      (symbol i (dec m)) c) m)
    as (B & Hid & Hdata).
  { eapply working_in_range_id; eauto. }
  { eapply working_in_range_data; eauto. }
  { apply length_multiply_subtract_id. }
  { apply length_multiply_subtract_data. }
  split; [eapply working_buffers_only; eauto|].
  split; [exact B|]. split; [exact Hid|].
  intros Q HQ; unfold all_in.
  rewrite (rows_in_buffers_only Q _ _ _ _ W B), Hid, Hdata.
  split; intros [Hb Hr]; (split; [|exact Hr]).
  - apply (closed_undo Q _ (vector i (dec m)) _ (symbol i (dec m)) c HQ);
      auto.
    + rewrite (work_id_length _ _ _ W).
      symmetry; apply (shape_vector_length _ (work_shape _ _ _ W)); auto.
    + rewrite (work_data_length _ _ _ W).
      symmetry; apply (shape_symbol_length _ (work_shape _ _ _ W)); auto.
  - apply HQ; auto.
Qed.

(** ** Loop rules *)

Lemma forward_loop_rule (data id : buffer) (I : nat -> memory -> Prop)
      (hi : nat) :
  (forall t m, t < hi -> I t m ->
               nonzero (coefficient t (load_id id m)) = false ->
               I (S t) m) ->
  (forall t m, t < hi -> I t m ->
               nonzero (coefficient t (load_id id m)) = true ->
               symbol_exists t (dec m) = true ->
               I (S t)
                 (subtract_stored data id t (coefficient t (load_id id m))
                                  m)) ->
  forall n t m,
    t + n <= hi -> I t m ->
    match forward_substitute_to_pivot_loop data id (seq t n) m with
    | (m', None) => I (t + n) m'
    | (m', Some p) =>
        I p m' /\ t <= p < t + n
        /\ nonzero (coefficient p (load_id id m')) = true
        /\ symbol_exists p (dec m') = false
    end.
Proof.
  intros Hskip Hsub; induction n as [|n IH]; intros t m Hn HI; simpl.
  - now rewrite Nat.add_0_r.
  - destruct (nonzero (coefficient t (load_id id m))) eqn:Hc.
    + destruct (symbol_exists t (dec m)) eqn:He.
      * specialize
          (IH (S t)
              (subtract_stored data id t (coefficient t (load_id id m)) m)).
        destruct (forward_substitute_to_pivot_loop
                    data id (seq (S t) n)
                    (subtract_stored data id t
                                     (coefficient t (load_id id m)) m))
          as [m' [p|]].
        -- destruct IH as (H1 & H2 & H3 & H4);
             [lia|apply Hsub; auto; lia|].
           repeat split; auto; lia.
        -- replace (t + S n) with (S t + n) by lia.
           apply IH; [lia|apply Hsub; auto; lia].
      * repeat split; auto; lia.
    + specialize (IH (S t) m).
      destruct (forward_substitute_to_pivot_loop data id (seq (S t) n) m)
        as [m' [p|]].
      * destruct IH as (H1 & H2 & H3 & H4);
          [lia|apply Hskip; auto; lia|].
        repeat split; auto; lia.
      * replace (t + S n) with (S t + n) by lia.
        apply IH; [lia|apply Hskip; auto; lia].
Qed.

Lemma fold_seq_rule {A : Type} (f : A -> nat -> A) (I : nat -> A -> Prop)
      (n t : nat) (a : A) :
  (forall i a, t <= i < t + n -> I i a -> I (S i) (f a i)) ->
  I t a -> I (t + n) (fold_left f (seq t n) a).
Proof.
  revert t a; induction n as [|n IH]; intros t a Hstep HI; simpl.
  - now rewrite Nat.add_0_r.
  - replace (t + S n) with (S t + n) by lia.
    apply IH.
    + intros i b Hi; apply Hstep; lia.
    + apply Hstep; auto; lia.
Qed.

(** ** Forward substitution to the pivot *)

(** What the loop keeps in every state. *)
Lemma forward_substitute_to_pivot_any (data id : buffer) (m : memory) :
  match forward_substitute_to_pivot data id m with
  | (m', None) => header (dec m') = header (dec m)
  | (m', Some p) =>
      header (dec m') = header (dec m)
      /\ p < symbols (dec m)
      /\ nonzero (coefficient p (load_id id m')) = true
      /\ symbol_exists p (dec m') = false
  end.
Proof.
  unfold forward_substitute_to_pivot.
  pose proof (forward_loop_rule
                data id (fun _ m' => header (dec m') = header (dec m))
                (symbols (dec m))) as R.
  specialize (R (fun t m' _ H _ => H)).
  assert (Hsub : forall t m', t < symbols (dec m) ->
              header (dec m') = header (dec m) ->
              nonzero (coefficient t (load_id id m')) = true ->
              symbol_exists t (dec m') = true ->
              header (dec (subtract_stored
                             data id t (coefficient t (load_id id m')) m'))
              = header (dec m)).
  { intros t m' _ H _ _; rewrite <- H; unfold subtract_stored.
    destruct is_binary; now rewrite header_store_data, header_store_id. }
  specialize (R Hsub (symbols (dec m)) 0 m (Nat.le_refl _) eq_refl).
  destruct (forward_substitute_to_pivot_loop
              data id (seq 0 (symbols (dec m))) m) as [m' [p|]]; auto.
  destruct R as (H1 & H2 & H3 & H4); repeat split; auto; lia.
Qed.

Lemma forward_substitute_to_pivot_spec (data id : buffer) (m : memory) :
  working data id m ->
  match forward_substitute_to_pivot data id m with
  | (m', r) =>
      working data id m' /\ buffers_only data id m m'
      /\ (forall Q, closed Q -> (all_in Q data id m' <-> all_in Q data id m))
      /\ match r with
         | None => zero_row (symbols (dec m)) (load_id id m')
         | Some p =>
             p < symbols (dec m)
             /\ symbol_exists p (dec m') = false
             /\ nonzero (coefficient p (load_id id m')) = true
             /\ forall j, j < p -> coefficient j (load_id id m') = czero
         end
  end.
Proof.
  intros W; unfold forward_substitute_to_pivot.
  set (I := fun (t : nat) (m' : memory) =>
              working data id m' /\ buffers_only data id m m'
              /\ (forall Q, closed Q ->
                            (all_in Q data id m' <-> all_in Q data id m))
              /\ forall j, j < t -> coefficient j (load_id id m') = czero).
  pose proof (forward_loop_rule data id I (symbols (dec m))) as R.
  assert (Hskip : forall t m', t < symbols (dec m) -> I t m' ->
              nonzero (coefficient t (load_id id m')) = false ->
              I (S t) m').
  { intros t m' Ht (W' & B & HQ & Hz) Hc.
    refine (conj W' (conj B (conj HQ _))).
    intros j Hj; destruct (Nat.eq_dec j t) as [->|Hne].
    - now apply nonzero_spec.
    - apply Hz; lia. }
  assert (Hsub : forall t m', t < symbols (dec m) -> I t m' ->
              nonzero (coefficient t (load_id id m')) = true ->
              symbol_exists t (dec m') = true ->
              I (S t)
                (subtract_stored data id t (coefficient t (load_id id m'))
                                 m')).
  { intros t m' Ht (W' & B & HQ & Hz) Hc He.
    destruct (header_inv _ _ (bo_header _ _ _ _ B)) as (Hk & _).
    destruct (subtract_stored_step
                data id t (coefficient t (load_id id m')) m' W')
      as (W2 & B2 & E & HQ2); auto; [congruence|].
    split; [exact W2|]. split; [eapply buffers_only_trans; eauto|].
    split; [intros Q HcQ; rewrite (HQ2 Q HcQ); auto|].
    intros j Hj; rewrite E.
    pose proof (work_shape _ _ _ W') as S.
    rewrite coefficient_multiply_subtract.
    - destruct (Nat.eq_dec j t) as [->|Hne].
      + rewrite (shape_pivot _ S) by (auto; congruence); ring.
      + rewrite Hz by lia.
        rewrite (shape_lower _ S t j) by (auto; try congruence; lia).
        ring.
    - rewrite (work_id_length _ _ _ W'); lia.
    - rewrite (shape_vector_length _ S); lia. }
  specialize (R Hskip Hsub (symbols (dec m)) 0 m (Nat.le_refl _)).
  destruct (forward_substitute_to_pivot_loop
              data id (seq 0 (symbols (dec m))) m) as [m' [p|]].
  - destruct R as ((W' & B & HQ & Hz) & Hp & Hc & He).
    { refine (conj W (conj (buffers_only_refl _ _ _) (conj _ _))).
      - intros Q _; tauto.
      - intros j Hj; lia. }
    refine (conj W' (conj B (conj HQ _))).
    repeat split; auto; lia.
  - destruct R as (W' & B & HQ & Hz).
    { refine (conj W (conj (buffers_only_refl _ _ _) (conj _ _))).
      - intros Q _; tauto.
      - intros j Hj; lia. }
    refine (conj W' (conj B (conj HQ _))).
    exact Hz.
Qed.

(** ** Normalisation *)

Lemma multiply_id_compose (x : list coeff) (a b : coeff) :
  multiply_id (multiply_id x a) b = multiply_id x (cmul a b).
Proof.
  unfold multiply_id; rewrite map_map; apply map_ext; intros; ring.
Qed.

Lemma multiply_data_compose (s : list elem) (a b : coeff) :
  multiply_data (multiply_data s a) b = multiply_data s (cmul b a).
Proof.
  unfold multiply_data; rewrite map_map; apply map_ext; intros.
  now rewrite escale_mul.
Qed.

Lemma normalize_spec (data id : buffer) (p : nat) (m : memory) :
  working data id m ->
  nonzero (coefficient p (load_id id m)) = true ->
  (forall j, j < p -> coefficient j (load_id id m) = czero) ->
  let m' := normalize data id p m in
  working data id m' /\ buffers_only data id m m'
  /\ (forall Q, closed Q -> (all_in Q data id m' <-> all_in Q data id m))
  /\ coefficient p (load_id id m') = cone
  /\ forall j, j < p -> coefficient j (load_id id m') = czero.
Proof.
  intros W Hc Hz m'; subst m'; rewrite normalize_eq.
  apply nonzero_true in Hc.
  set (c := coefficient p (load_id id m)) in *.
  destruct (store_buffers data id (multiply_id (load_id id m) (invert c))
                          (multiply_data (load_data data m) (invert c)) m)
    as (B & Hid & Hdata).
  { eapply working_in_range_id; eauto. }
  { eapply working_in_range_data; eauto. }
  { apply length_multiply_id. }
  { apply length_multiply_data. }
  split; [eapply working_buffers_only; eauto|].
  split; [exact B|].
  split; [|split].
  - intros Q HQ; unfold all_in.
    rewrite (rows_in_buffers_only Q _ _ _ _ W B), Hid, Hdata.
    split; intros [Hb Hr]; (split; [|exact Hr]).
    + apply (closed_multiply Q _ _ c HQ) in Hb.
      rewrite multiply_id_compose, multiply_data_compose in Hb.
      rewrite (invert_l c Hc), (invert_r c Hc) in Hb.
      now rewrite multiply_id_one, multiply_data_one in Hb.
    + now apply closed_multiply.
  - rewrite Hid, coefficient_multiply; fold c; now apply invert_r.
  - intros j Hj; rewrite Hid, coefficient_multiply, Hz by auto; ring.
Qed.

(** ** Forward substitution past the pivot *)

Lemma forward_substitute_from_pivot_spec (data id : buffer) (p : nat)
      (m : memory) :
  working data id m ->
  coefficient p (load_id id m) = cone ->
  (forall j, j < p -> coefficient j (load_id id m) = czero) ->
  let m' := forward_substitute_from_pivot data id p m in
  working data id m' /\ buffers_only data id m m'
  /\ (forall Q, closed Q -> (all_in Q data id m' <-> all_in Q data id m))
  /\ coefficient p (load_id id m') = cone
  /\ (forall j, j < p -> coefficient j (load_id id m') = czero)
  /\ (forall j, j < symbols (dec m) -> j <> p ->
                symbol_exists j (dec m) = true ->
                coefficient j (load_id id m') = czero).
Proof.
  intros W Hp Hz m'; subst m'; unfold forward_substitute_from_pivot.
  set (f := fun (m : memory) (i : nat) =>
              if nonzero (coefficient i (load_id id m))
              then if symbol_exists i (dec m)
                   then subtract_stored data id i
                                        (coefficient i (load_id id m)) m
                   else m
              else m).
  set (I := fun (t : nat) (m' : memory) =>
              working data id m' /\ buffers_only data id m m'
              /\ (forall Q, closed Q ->
                            (all_in Q data id m' <-> all_in Q data id m))
              /\ coefficient p (load_id id m') = cone
              /\ (forall j, j < p -> coefficient j (load_id id m') = czero)
              /\ (forall j, p < j < t -> symbol_exists j (dec m') = true ->
                            coefficient j (load_id id m') = czero)).
  pose proof (work_shape _ _ _ W) as S0.
  pose proof (shape_maximum_pivot _ S0) as Hmp.
  assert (HI : I (p + 1 + (m_maximum_pivot (dec m) - p))
                 (fold_left f (seq (p + 1) (m_maximum_pivot (dec m) - p)) m)).
  { apply fold_seq_rule.
    - intros i m' Hi (W' & B & HQ & Hp' & Hz' & Ho').
      destruct (header_inv _ _ (bo_header _ _ _ _ B)) as (Hk & _).
      unfold f.
      destruct (nonzero (coefficient i (load_id id m'))) eqn:Hc.
      + destruct (symbol_exists i (dec m')) eqn:He.
        * destruct (subtract_stored_step
                      data id i (coefficient i (load_id id m')) m' W')
            as (W2 & B2 & E & HQ2); auto; [lia|].
          pose proof (work_shape _ _ _ W') as S.
          assert (Hcol : forall j, j < symbols (dec m') ->
                    coefficient j
                      (load_id id
                         (subtract_stored
                            data id i (coefficient i (load_id id m')) m'))
                    = csub (coefficient j (load_id id m'))
                           (cmul (coefficient j (vector i (dec m')))
                                 (coefficient i (load_id id m')))).
          { intros j Hj; rewrite E.
            apply coefficient_multiply_subtract.
            - rewrite (work_id_length _ _ _ W'); lia.
            - rewrite (shape_vector_length _ S); lia. }
          split; [exact W2|].
          split; [eapply buffers_only_trans; eauto|].
          split; [intros Q HcQ; rewrite (HQ2 Q HcQ); auto|].
          split; [|split].
          -- rewrite Hcol by lia.
             rewrite (shape_lower _ S i p) by (auto; lia).
             rewrite Hp'; ring.
          -- intros j Hj; rewrite Hcol by lia.
             rewrite (shape_lower _ S i j) by (auto; lia).
             rewrite Hz' by auto; ring.
          -- intros j Hj Hoj; rewrite Hcol by lia.
             rewrite (buffers_only_exists _ _ _ _ j B2) in Hoj.
             destruct (Nat.eq_dec j i) as [->|Hne].
             ++ rewrite (shape_pivot _ S) by (auto; lia); ring.
             ++ rewrite (shape_lower _ S i j) by (auto; lia).
                rewrite Ho' by (auto; lia); ring.
        * refine (conj W' (conj B (conj HQ (conj Hp' (conj Hz' _))))).
          intros j Hj Hoj; destruct (Nat.eq_dec j i) as [->|Hne];
            [congruence|apply Ho'; auto; lia].
      + refine (conj W' (conj B (conj HQ (conj Hp' (conj Hz' _))))).
        intros j Hj Hoj; destruct (Nat.eq_dec j i) as [->|Hne];
          [now apply nonzero_spec|apply Ho'; auto; lia].
    - refine (conj W (conj (buffers_only_refl _ _ _) (conj _ (conj Hp (conj Hz _))))).
      + intros Q _; tauto.
      + intros j Hj; lia. }
  destruct HI as (W' & B & HQ & Hp' & Hz' & Ho').
  refine (conj W' (conj B (conj HQ (conj Hp' (conj Hz' _))))).
  intros j Hj Hjp Hoj.
  destruct (Nat.lt_ge_cases j p) as [Hlt|Hge]; [now apply Hz'|].
  pose proof (shape_below_maximum _ S0 j Hj Hoj).
  apply Ho'; [lia|].
  now rewrite (buffers_only_exists _ _ _ _ j B).
Qed.

(** ** Backward substitution *)

Lemma rows_only_refl (data id : buffer) (m : memory) : rows_only data id m m.
Proof. constructor; auto. Qed.

Lemma rows_only_trans (data id : buffer) (m1 m2 m3 : memory) :
  rows_only data id m1 m2 -> rows_only data id m2 m3 ->
  rows_only data id m1 m3.
Proof.
  intros R1 R2.
  destruct (header_inv _ _ (ro_header _ _ _ _ R1)) as (_ & _ & _ & _ & _ & Hc).
  constructor.
  - rewrite (ro_header _ _ _ _ R2); apply R1.
  - rewrite (ro_vector_storage _ _ _ _ R2); apply R1.
  - rewrite (ro_symbol_storage _ _ _ _ R2); apply R1.
  - rewrite (ro_id _ _ _ _ R2); apply R1.
  - rewrite (ro_data _ _ _ _ R2); apply R1.
  - intros j Hj; rewrite (ro_vector _ _ _ _ R2), (ro_vector _ _ _ _ R1);
      auto; now rewrite Hc.
  - intros j Hj; rewrite (ro_symbol _ _ _ _ R2), (ro_symbol _ _ _ _ R1);
      auto; now rewrite Hc.
Qed.

Lemma coded_exists (d : decoder) (i : nat) :
  nth i (m_coded d) false = true -> symbol_exists i d = true.
Proof. intros H; unfold symbol_exists; now rewrite H. Qed.

Lemma uncoded_exists (d : decoder) (i : nat) :
  nth i (m_uncoded d) false = true -> symbol_exists i d = true.
Proof. intros H; unfold symbol_exists; rewrite H; apply orb_true_r. Qed.

Lemma exists_false (d : decoder) (i : nat) :
  symbol_exists i d = false ->
  nth i (m_coded d) false = false /\ nth i (m_uncoded d) false = false.
Proof. unfold symbol_exists; intros H; now apply orb_false_iff in H. Qed.

Lemma free_header (b : buffer) (d d' : decoder) :
  header d' = header d -> free b d -> free b d'.
Proof.
  intros H; destruct b as [|i]; simpl; auto.
  rewrite (symbol_exists_header _ _ i H).
  now destruct (header_inv _ _ H) as (-> & _).
Qed.

(** A coded row from which a multiple of [x] is subtracted stays in
    shape when [x] vanishes at the occupied columns and below the row. *)
Lemma shape_row_update (d d' : decoder) (i : nat) (x : list coeff)
      (c : coeff) :
  shape d -> header d' = header d ->
  length (vector_storage d') = length (vector_storage d) ->
  length (symbol_storage d') = length (symbol_storage d) ->
  (forall j, j <> i -> vector j d' = vector j d) ->
  (forall j, j <> i -> symbol j d' = symbol j d) ->
  vector i d' = multiply_subtract_id (vector i d) x c ->
  length (symbol i d') = length (symbol i d) ->
  i < symbols d -> nth i (m_coded d) false = true ->
  length x = symbols d ->
  (forall j, j < symbols d -> symbol_exists j d = true ->
             coefficient j x = czero) ->
  (forall j, j < i -> coefficient j x = czero) ->
  shape d'.
Proof.
  intros S Hh HlV HlS Hv Hs Hvi Hsi Hi Hci Hx Hocc Hlow.
  destruct (header_inv _ _ Hh) as (Hk & Hl & Hr & Hp & Hu & Hc).
  assert (He : forall j, symbol_exists j d' = symbol_exists j d)
    by (intros; now apply symbol_exists_header).
  assert (Hcol : forall j, j < symbols d ->
                           coefficient j (vector i d')
                           = csub (coefficient j (vector i d))
                                  (cmul (coefficient j x) c)).
  { intros j Hj; rewrite Hvi; apply coefficient_multiply_subtract.
    - rewrite (shape_vector_length _ S); lia.
    - lia. }
  assert (Hrow : forall r j, r < symbols d -> j < symbols d ->
                   (symbol_exists j d = true \/ j < r) ->
                   coefficient j (vector r d') = coefficient j (vector r d)
                   \/ (r = i /\ coefficient j (vector r d')
                                = coefficient j (vector r d))).
  { intros r j Hr' Hj Hor.
    destruct (Nat.eq_dec r i) as [->|Hne]; [|left; now rewrite Hv].
    right; split; auto.
    rewrite Hcol by auto.
    destruct Hor as [Ho|Hlt].
    - rewrite Hocc by auto; ring.
    - rewrite Hlow by auto; ring. }
  assert (Hsame : forall r j, r < symbols d -> j < symbols d ->
                    (symbol_exists j d = true \/ j < r) ->
                    coefficient j (vector r d')
                    = coefficient j (vector r d)).
  { intros r j Hr' Hj Hor; destruct (Hrow r j Hr' Hj Hor) as [H|[_ H]];
      exact H. }
  constructor; rewrite ?Hk, ?Hl, ?Hp, ?Hu, ?Hc.
  - apply S.
  - apply S.
  - apply S.
  - apply S.
  - rewrite HlV; apply S.
  - rewrite HlS; apply S.
  - intros r Hr'; destruct (Nat.eq_dec r i) as [->|Hne].
    + rewrite Hvi, length_multiply_subtract_id; now apply S.
    + rewrite Hv by auto; now apply S.
  - intros r Hr'; destruct (Nat.eq_dec r i) as [->|Hne].
    + rewrite Hsi; now apply S.
    + rewrite Hs by auto; now apply S.
  - apply S.
  - apply S.
  - intros r Hr' Ho; rewrite He in Ho; now apply S.
  - intros r Hr' Ho; rewrite He in Ho.
    rewrite Hsame by auto; now apply (shape_pivot _ S).
  - intros r j Hr' Hj Hrj Hor Hoj; rewrite He in Hor, Hoj.
    rewrite Hsame by auto; now apply (shape_reduced _ S).
  - intros r j Hr' Hj Ho; rewrite He in Ho.
    rewrite Hsame by (auto; lia); now apply (shape_lower _ S).
  - intros r j Hr' Hj Hjr Hun.
    assert (r <> i).
    { intros ->; rewrite (shape_exclusive _ S i Hi Hun) in Hci;
        discriminate. }
    rewrite Hv by auto; now apply (shape_uncoded _ S).
Qed.

Lemma subtract_into_stored_step (data id : buffer) (i p : nat) (m : memory) :
  working data id m ->
  i < symbols (dec m) -> p < symbols (dec m) -> i <> p ->
  nth i (m_coded (dec m)) false = true ->
  coefficient p (load_id id m) = cone ->
  (forall j, j < p -> coefficient j (load_id id m) = czero) ->
  (forall j, j < symbols (dec m) -> symbol_exists j (dec m) = true ->
             coefficient j (load_id id m) = czero) ->
  nonzero (coefficient p (vector i (dec m))) = true ->
  let m' :=
    subtract_into_stored data id i (coefficient p (vector i (dec m))) m in
  working data id m' /\ rows_only data id m m'
  /\ (forall j, j <> i -> vector j (dec m') = vector j (dec m))
  /\ coefficient p (vector i (dec m')) = czero
  /\ (forall Q, closed Q -> (all_in Q data id m' <-> all_in Q data id m)).
Proof.
  intros W Hi Hp Hip Hci Hxp Hxlow Hxocc Hc m'; subst m'.
  set (c := coefficient p (vector i (dec m))) in *.
  rewrite (subtract_into_stored_eq _ _ _ _ _ Hc), load_data_store_id.
  pose proof (work_shape _ _ _ W) as S.
  pose proof (coded_exists _ _ Hci) as Hoi.
  assert (Hid : id <> Slot i)
    by (eapply free_not_occupied; [apply W|exact Hoi]).
  assert (Hdata : data <> Slot i)
    by (eapply free_not_occupied; [apply W|exact Hoi]).
  assert (Hr : in_range (Slot i) (dec m)).
  { simpl; now rewrite (shape_vector_storage _ S),
      (shape_symbol_storage _ S). }
  destruct (store_buffers
              (Slot i) (Slot i)
              (multiply_subtract_id (vector i (dec m)) (load_id id m) c)
              (multiply_subtract_data (symbol i (dec m))
                                      (load_data data m) c) m)
    as (B & Ev & Es); auto.
  { apply length_multiply_subtract_id. }
  { apply length_multiply_subtract_data. }
  set (m' := store_data
               (Slot i)
               (multiply_subtract_data (symbol i (dec m))
                                       (load_data data m) c)
               (store_id
                  (Slot i)
                  (multiply_subtract_id (vector i (dec m)) (load_id id m) c)
                  m)) in *.
  change (vector i (dec m')
          = multiply_subtract_id (vector i (dec m)) (load_id id m) c) in Ev.
  change (symbol i (dec m')
          = multiply_subtract_data (symbol i (dec m)) (load_data data m) c)
    in Es.
  assert (Hv : forall j, j <> i -> vector j (dec m') = vector j (dec m))
    by (intros j Hj; apply (bo_vector _ _ _ _ B); congruence).
  assert (Hs : forall j, j <> i -> symbol j (dec m') = symbol j (dec m))
    by (intros j Hj; apply (bo_symbol _ _ _ _ B); congruence).
  assert (Eid : load_id id m' = load_id id m).
  { unfold m'; now rewrite load_id_store_data, load_id_store_id_ne. }
  assert (Edata : load_data data m' = load_data data m).
  { unfold m'; now rewrite load_data_store_data_ne, load_data_store_id. }
  destruct (header_inv _ _ (bo_header _ _ _ _ B))
    as (Hk & Hl & _ & _ & Hu & Hcd).
  assert (He : forall j, symbol_exists j (dec m') = symbol_exists j (dec m))
    by (intros; eapply buffers_only_exists; eauto).
  assert (Hlt : i < p).
  { destruct (Nat.lt_ge_cases i p) as [H|H]; auto.
    apply nonzero_true in Hc; exfalso; apply Hc.
    apply (shape_lower _ S); auto; lia. }
  assert (S' : shape (dec m')).
  { apply (shape_row_update
             (dec m) (dec m') i (load_id id m) c S (bo_header _ _ _ _ B)
             (bo_vector_storage _ _ _ _ B) (bo_symbol_storage _ _ _ _ B)
             Hv Hs Ev); auto.
    - now rewrite Es, length_multiply_subtract_data.
    - apply W.
    - intros j Hj; apply Hxlow; lia. }
  split; [|split; [|split; [exact Hv|split]]].
  - constructor.
    + exact S'.
    + apply (free_header _ _ _ (bo_header _ _ _ _ B)), W.
    + apply (free_header _ _ _ (bo_header _ _ _ _ B)), W.
    + rewrite Eid, Hk; apply W.
    + rewrite Edata, Hl; apply W.
  - constructor.
    + apply B.
    + apply B.
    + apply B.
    + exact Eid.
    + exact Edata.
    + intros j Hj; apply Hv; congruence.
    + intros j Hj; apply Hs; congruence.
  - rewrite Ev, coefficient_multiply_subtract.
    + fold c; rewrite Hxp; ring.
    + rewrite (shape_vector_length _ S); lia.
    + rewrite (work_id_length _ _ _ W); lia.
  - intros Q HQ; unfold all_in, rows_in; rewrite Eid, Edata, Hk.
    assert (Hlv : length (vector i (dec m)) = length (load_id id m)).
    { rewrite (work_id_length _ _ _ W); now apply S. }
    assert (Hls : length (symbol i (dec m)) = length (load_data data m)).
    { rewrite (work_data_length _ _ _ W); now apply S. }
    split; intros [Hb Hrows]; (split; [exact Hb|]); intros j Hj Ho.
    + destruct (Nat.eq_dec j i) as [->|Hne].
      * apply (closed_undo Q _ (load_id id m) _ (load_data data m) c HQ);
          auto.
        rewrite <- Ev, <- Es; apply Hrows; auto; now rewrite He.
      * rewrite <- Hv, <- Hs by auto; apply Hrows; auto; now rewrite He.
    + rewrite He in Ho.
      destruct (Nat.eq_dec j i) as [->|Hne].
      * rewrite Ev, Es; apply HQ; auto.
      * rewrite Hv, Hs by auto; apply Hrows; auto.
Qed.

Lemma backward_substitute_spec (data id : buffer) (p : nat) (m : memory) :
  working data id m -> p < symbols (dec m) ->
  symbol_exists p (dec m) = false ->
  coefficient p (load_id id m) = cone ->
  (forall j, j < p -> coefficient j (load_id id m) = czero) ->
  (forall j, j < symbols (dec m) -> symbol_exists j (dec m) = true ->
             coefficient j (load_id id m) = czero) ->
  let m' := backward_substitute data id p m in
  working data id m' /\ rows_only data id m m'
  /\ (forall Q, closed Q -> (all_in Q data id m' <-> all_in Q data id m))
  /\ (forall j, j < symbols (dec m) -> symbol_exists j (dec m) = true ->
                coefficient p (vector j (dec m')) = czero).
Proof.
  intros W Hp Hpe Hxp Hxlow Hxocc m'; subst m'.
  unfold backward_substitute.
  set (f := fun (m : memory) (i : nat) =>
              if nth i (m_uncoded (dec m)) false then m
              else if i =? p then m
                   else if nth i (m_coded (dec m)) false
                        then if nonzero (coefficient p (vector i (dec m)))
                             then subtract_into_stored
                                    data id i
                                    (coefficient p (vector i (dec m))) m
                             else m
                        else m).
  set (I := fun (t : nat) (m' : memory) =>
              working data id m' /\ rows_only data id m m'
              /\ (forall Q, closed Q ->
                            (all_in Q data id m' <-> all_in Q data id m))
              /\ (forall j, j < t -> nth j (m_coded (dec m)) false = true ->
                            coefficient p (vector j (dec m')) = czero)).
  pose proof (work_shape _ _ _ W) as S0.
  pose proof (shape_maximum_pivot _ S0) as Hmp.
  assert (Hpc : nth p (m_coded (dec m)) false = false)
    by (now apply exists_false in Hpe).
  assert (HI : I (0 + (m_maximum_pivot (dec m) + 1))
                 (fold_left f (seq 0 (m_maximum_pivot (dec m) + 1)) m)).
  { apply fold_seq_rule.
    - intros i m' Hi (W' & R & HQ & Hz).
      destruct (header_inv _ _ (ro_header _ _ _ _ R))
        as (Hk & _ & _ & _ & Hu & Hc).
      assert (Hsame : I (S i) m' \/
                      (nth i (m_uncoded (dec m')) false = false /\ i <> p
                       /\ nth i (m_coded (dec m')) false = true
                       /\ nonzero (coefficient p (vector i (dec m')))
                          = true)).
      { destruct (nth i (m_uncoded (dec m')) false) eqn:Hui.
        { left; refine (conj W' (conj R (conj HQ _))).
          intros j Hj Hcj; destruct (Nat.eq_dec j i) as [->|Hne];
            [|apply Hz; auto; lia].
          rewrite Hu in Hui.
          rewrite (shape_exclusive _ S0 i) in Hcj; [discriminate|lia|auto]. }
        destruct (Nat.eq_dec i p) as [->|Hip].
        { left; refine (conj W' (conj R (conj HQ _))).
          intros j Hj Hcj; destruct (Nat.eq_dec j p) as [->|Hne];
            [congruence|apply Hz; auto; lia]. }
        destruct (nth i (m_coded (dec m')) false) eqn:Hci.
        2:{ left; refine (conj W' (conj R (conj HQ _))).
            intros j Hj Hcj; destruct (Nat.eq_dec j i) as [->|Hne];
              [congruence|apply Hz; auto; lia]. }
        destruct (nonzero (coefficient p (vector i (dec m')))) eqn:Hv.
        2:{ left; refine (conj W' (conj R (conj HQ _))).
            intros j Hj Hcj; destruct (Nat.eq_dec j i) as [->|Hne];
              [now apply nonzero_spec|apply Hz; auto; lia]. }
        right; auto. }
      destruct Hsame as [Hsame|(Hui & Hip & Hci & Hv)].
      + unfold f.
        destruct (nth i (m_uncoded (dec m')) false) eqn:Hui; auto.
        destruct (i =? p) eqn:Hip; auto.
        destruct (nth i (m_coded (dec m')) false) eqn:Hci; auto.
        destruct (nonzero (coefficient p (vector i (dec m')))) eqn:Hv; auto.
        exfalso.
        destruct Hsame as (_ & _ & _ & Hz').
        apply nonzero_true in Hv; apply Hv, Hz'; [lia|congruence].
      + unfold f; rewrite Hui, Hci, Hv.
        destruct (Nat.eqb_spec i p) as [|_]; [contradiction|].
        destruct (subtract_into_stored_step data id i p m' W')
          as (W2 & R2 & Hv2 & Hz2 & HQ2); auto.
        * lia.
        * lia.
        * now rewrite (ro_id _ _ _ _ R).
        * intros j Hj; rewrite (ro_id _ _ _ _ R); auto.
        * intros j Hj Ho; rewrite (ro_id _ _ _ _ R); apply Hxocc;
            [lia|].
          now rewrite <- (symbol_exists_header _ _ j (ro_header _ _ _ _ R)).
        * split; [exact W2|].
          split; [eapply rows_only_trans; eauto|].
          split; [intros Q HcQ; rewrite (HQ2 Q HcQ); auto|].
          intros j Hj Hcj; destruct (Nat.eq_dec j i) as [->|Hne]; auto.
          rewrite Hv2 by auto; apply Hz; auto; lia.
    - refine (conj W (conj (rows_only_refl _ _ _) (conj _ _))).
      + intros Q _; tauto.
      + intros j Hj; lia. }
  destruct HI as (W' & R & HQ & Hz).
  refine (conj W' (conj R (conj HQ _))).
  intros j Hj Ho.
  destruct (nth j (m_coded (dec m)) false) eqn:Hcj.
  - apply Hz; auto.
    pose proof (shape_below_maximum _ S0 j Hj Ho); lia.
  - rewrite (ro_vector _ _ _ _ R) by auto.
    apply (shape_uncoded _ S0); auto.
    + congruence.
    + unfold symbol_exists in Ho; rewrite Hcj in Ho; exact Ho.
Qed.

(** ** Storing the reduced packet *)

Lemma store_coded_symbol_eq (data id : buffer) (p : nat) (m : memory) :
  working data id m -> p < symbols (dec m) ->
  store_coded_symbol data id p m
  = store_data (Slot p) (load_data data m)
               (store_id (Slot p) (load_id id m) m).
Proof.
  intros W Hp; unfold store_coded_symbol.
  pose proof (work_shape _ _ _ W) as S.
  rewrite (copy_all (load_id id m) (vector p (dec m))
                    (vector_length (dec m)));
    [|apply W|now apply (shape_vector_length _ S)].
  set (m1 := store_id (Slot p) (load_id id m) m).
  replace (copy (load_data data m1) (symbol_length (dec m1))
                (symbol p (dec m1))) with (load_data data m);
    [reflexivity|].
  unfold m1; rewrite load_data_store_id, symbol_store_id.
  symmetry; apply copy_all; [apply W|now apply S].
Qed.

Lemma symbol_exists_flags (d d' : decoder) (j : nat) :
  m_uncoded d' = m_uncoded d -> m_coded d' = m_coded d ->
  symbol_exists j d' = symbol_exists j d.
Proof. unfold symbol_exists; now intros -> ->. Qed.

Lemma marked_symbols (raw : bool) (p : nat) (d : decoder) :
  symbols (marked raw p d) = symbols d
  /\ symbol_length (marked raw p d) = symbol_length d
  /\ m_rank (marked raw p d) = incr32 (m_rank d)
  /\ m_maximum_pivot (marked raw p d) = Nat.max (m_maximum_pivot d) p
  /\ vector_storage (marked raw p d) = vector_storage d
  /\ symbol_storage (marked raw p d) = symbol_storage d.
Proof.
  unfold marked, raise_maximum_pivot.
  destruct raw; simpl;
    destruct (Nat.ltb_spec (m_maximum_pivot d) p); simpl;
    repeat split; lia.
Qed.

Lemma marked_flags (raw : bool) (p : nat) (d : decoder) :
  m_uncoded (marked raw p d)
  = (if raw then set_nth p true (m_uncoded d) else m_uncoded d)
  /\ m_coded (marked raw p d)
     = (if raw then m_coded d else set_nth p true (m_coded d)).
Proof.
  unfold marked, raise_maximum_pivot.
  destruct raw; simpl;
    destruct (Nat.ltb_spec (m_maximum_pivot d) p); simpl; auto.
Qed.

Lemma marked_vector (raw : bool) (p j : nat) (d : decoder) :
  vector j (marked raw p d) = vector j d.
Proof.
  unfold vector.
  now destruct (marked_symbols raw p d) as (_ & _ & _ & _ & -> & _).
Qed.

Lemma marked_symbol (raw : bool) (p j : nat) (d : decoder) :
  symbol j (marked raw p d) = symbol j d.
Proof.
  unfold symbol.
  now destruct (marked_symbols raw p d) as (_ & _ & _ & _ & _ & ->).
Qed.

Lemma marked_exists (raw : bool) (p j : nat) (d : decoder) :
  shape d -> p < symbols d ->
  symbol_exists j (marked raw p d)
  = if Nat.eq_dec j p then true else symbol_exists j d.
Proof.
  intros S Hp.
  pose proof (shape_uncoded_length _ S).
  pose proof (shape_coded_length _ S).
  destruct (marked_flags raw p d) as (Hu & Hc).
  unfold symbol_exists; rewrite Hu, Hc.
  destruct raw; destruct (Nat.eq_dec j p) as [->|Hne];
    rewrite ?nth_set_nth_eq, ?nth_set_nth_ne by (auto; lia);
    auto using orb_true_r.
Qed.

Lemma marked_uncoded (raw : bool) (p j : nat) (d : decoder) :
  shape d -> p < symbols d ->
  nth j (m_uncoded (marked raw p d)) false
  = if Nat.eq_dec j p then (raw || nth p (m_uncoded d) false)
    else nth j (m_uncoded d) false.
Proof.
  intros S Hp.
  pose proof (shape_uncoded_length _ S).
  destruct (marked_flags raw p d) as (Hu & _); rewrite Hu.
  destruct raw; destruct (Nat.eq_dec j p) as [->|Hne];
    rewrite ?nth_set_nth_eq, ?nth_set_nth_ne by (auto; lia); auto.
Qed.

Lemma marked_coded (raw : bool) (p j : nat) (d : decoder) :
  shape d -> p < symbols d ->
  nth j (m_coded (marked raw p d)) false
  = if Nat.eq_dec j p then (negb raw || nth p (m_coded d) false)
    else nth j (m_coded d) false.
Proof.
  intros S Hp.
  pose proof (shape_coded_length _ S).
  destruct (marked_flags raw p d) as (_ & Hc); rewrite Hc.
  destruct raw; destruct (Nat.eq_dec j p) as [->|Hne];
    rewrite ?nth_set_nth_eq, ?nth_set_nth_ne by (auto; lia); auto.
Qed.

(** Marking an empty slot whose row is in reduced form against the
    occupied rows, once those have been cleared at its column. *)
Lemma marked_shape (raw : bool) (p : nat) (d : decoder) :
  shape d -> p < symbols d -> symbol_exists p d = false ->
  coefficient p (vector p d) = cone ->
  (forall j, j < p -> coefficient j (vector p d) = czero) ->
  (forall j, j < symbols d -> symbol_exists j d = true ->
             coefficient j (vector p d) = czero) ->
  (forall j, j < symbols d -> symbol_exists j d = true ->
             coefficient p (vector j d) = czero) ->
  (raw = true ->
   forall j, j < symbols d -> j <> p -> coefficient j (vector p d) = czero) ->
  shape (marked raw p d).
Proof.
  intros S Hp Hpe Hpp Hlow Hocc Hcol Hraw.
  destruct (marked_symbols raw p d) as (Hk & Hl & Hr & Hm & HV & HS).
  destruct (marked_flags raw p d) as (Hu & Hc).
  destruct (exists_false _ _ Hpe) as (Hpc & Hpu).
  assert (He : forall j, symbol_exists j (marked raw p d) = true ->
                         j = p \/ (j <> p /\ symbol_exists j d = true)).
  { intros j; rewrite marked_exists by auto.
    destruct (Nat.eq_dec j p); auto. }
  constructor; rewrite ?Hk, ?Hl, ?Hm, ?HV, ?HS;
    try (intros i; rewrite ?marked_vector, ?marked_symbol);
    try apply S.
  - rewrite Hu; destruct raw; rewrite ?length_set_nth; apply S.
  - rewrite Hc; destruct raw; rewrite ?length_set_nth; apply S.
  - intros Hi; rewrite marked_uncoded, marked_coded by auto.
    destruct (Nat.eq_dec i p) as [->|Hne]; [|now apply S].
    rewrite Hpu, Hpc; destruct raw; simpl; congruence.
  - pose proof (shape_maximum_pivot _ S); lia.
  - intros Hi Ho; destruct (He i Ho) as [->|[_ Ho']]; [lia|].
    pose proof (shape_below_maximum _ S i Hi Ho'); lia.
  - intros Hi Ho; destruct (He i Ho) as [->|[_ Ho']]; auto.
    now apply (shape_pivot _ S).
  - intros j Hi Hj Hij Hoi Hoj; rewrite ?marked_vector.
    destruct (He i Hoi) as [->|[Hip Hoi']];
      destruct (He j Hoj) as [->|[Hjp Hoj']]; auto; try congruence.
    now apply (shape_reduced _ S).
  - intros j Hi Hj Ho; rewrite ?marked_vector.
    destruct (He i Ho) as [->|[_ Ho']]; auto.
    now apply (shape_lower _ S).
  - intros j Hi Hj Hji; rewrite ?marked_vector, marked_uncoded by auto.
    destruct (Nat.eq_dec i p) as [->|Hne].
    + rewrite Hpu, orb_false_r; intros ->; now apply Hraw.
    + now apply (shape_uncoded _ S).
Qed.

(** ** The coded-packet algorithm *)

Lemma marked_header (raw : bool) (p : nat) (d d' : decoder) :
  header d' = header d -> header (marked raw p d') = header (marked raw p d).
Proof.
  intros H; destruct (header_inv _ _ H) as (Hk & Hl & Hr & Hp & Hu & Hc).
  destruct (marked_symbols raw p d) as (Hk0 & Hl0 & Hr0 & Hp0 & _).
  destruct (marked_flags raw p d) as (Hu0 & Hc0).
  destruct (marked_symbols raw p d') as (Hk' & Hl' & Hr' & Hp' & _).
  destruct (marked_flags raw p d') as (Hu' & Hc').
  unfold header.
  rewrite Hk', Hl', Hr', Hp', Hu', Hc', Hk0, Hl0, Hr0, Hp0, Hu0, Hc0.
  now rewrite Hk, Hl, Hr, Hp, Hu, Hc.
Qed.

Lemma decode_with_vector_eq (data id : buffer) (m : memory) :
  decode_with_vector data id m
  = match forward_substitute_to_pivot data id m with
    | (m1, None) => m1
    | (m1, Some p) =>
        on_dec (marked false p)
               (store_coded_symbol
                  data id p
                  (backward_substitute
                     data id p
                     (forward_substitute_from_pivot
                        data id p (normalize data id p m1))))
    end.
Proof.
  unfold decode_with_vector.
  pose proof (forward_substitute_to_pivot_any data id m) as H.
  destruct (forward_substitute_to_pivot data id m) as [m1 [p|]]; auto.
  destruct H as (_ & _ & Hc & _).
  now rewrite (normalize_always _ _ _ _ Hc).
Qed.

Lemma decode_with_vector_spec (data id : buffer) (m : memory) :
  working data id m ->
  let m' := decode_with_vector data id m in
  (working data id m' /\ buffers_only data id m m'
   /\ (forall Q, closed Q -> (all_in Q data id m' <-> all_in Q data id m))
   /\ zero_row (symbols (dec m)) (load_id id m'))
  \/ (exists p,
         p < symbols (dec m) /\ symbol_exists p (dec m) = false
         /\ shape (dec m')
         /\ header (dec m') = header (marked false p (dec m))
         /\ (forall j, symbol_exists j (dec m')
                       = if Nat.eq_dec j p then true
                         else symbol_exists j (dec m))
         /\ (forall Q, closed Q ->
                       (rows_in Q (dec m') <-> all_in Q data id m))
         /\ (forall j, nth j (m_coded (dec m)) false = false -> j <> p ->
                       id <> Slot j ->
                       vector j (dec m') = vector j (dec m))
         /\ (forall j, nth j (m_coded (dec m)) false = false -> j <> p ->
                       data <> Slot j ->
                       symbol j (dec m') = symbol j (dec m))).
Proof.
  intros W m'; subst m'; rewrite decode_with_vector_eq.
  pose proof (forward_substitute_to_pivot_spec data id m W) as H1.
  destruct (forward_substitute_to_pivot data id m) as [m1 [p|]].
  2:{ left; destruct H1 as (W1 & B1 & HQ1 & Hz); auto. }
  right; exists p.
  destruct H1 as (W1 & B1 & HQ1 & Hp & Hpe1 & Hc1 & Hlow1).
  destruct (header_inv _ _ (bo_header _ _ _ _ B1)) as (Hk1 & _).
  destruct (normalize_spec data id p m1 W1 Hc1 Hlow1)
    as (W2 & B2 & HQ2 & Hp2 & Hlow2).
  set (m2 := normalize data id p m1) in *.
  destruct (forward_substitute_from_pivot_spec data id p m2 W2 Hp2 Hlow2)
    as (W3 & B3 & HQ3 & Hp3 & Hlow3 & Hocc3).
  set (m3 := forward_substitute_from_pivot data id p m2) in *.
  pose proof (buffers_only_trans _ _ _ _ _ B1 B2) as B12.
  pose proof (buffers_only_trans _ _ _ _ _ B12 B3) as B13.
  destruct (header_inv _ _ (bo_header _ _ _ _ B13))
    as (Hk3 & Hl3 & Hr3 & Hmp3 & Hu3 & Hc3).
  assert (He3 : forall j, symbol_exists j (dec m3) = symbol_exists j (dec m))
    by (intros; eapply buffers_only_exists; eauto).
  assert (Hpe : symbol_exists p (dec m) = false).
  { now rewrite <- (buffers_only_exists _ _ _ _ p B1). }
  assert (Hocc3' : forall j, j < symbols (dec m3) ->
                             symbol_exists j (dec m3) = true ->
                             coefficient j (load_id id m3) = czero).
  { intros j Hj Ho.
    destruct (header_inv _ _ (bo_header _ _ _ _ B3)) as (Hk23 & _).
    apply Hocc3; [lia| |].
    - intros ->; rewrite He3 in Ho; congruence.
    - now rewrite <- (buffers_only_exists _ _ _ _ j B3). }
  destruct (backward_substitute_spec data id p m3 W3)
    as (W4 & R4 & HQ4 & Hcol4); auto; [lia|now rewrite He3|].
  set (m4 := backward_substitute data id p m3) in *.
  destruct (header_inv _ _ (ro_header _ _ _ _ R4))
    as (Hk4 & Hl4 & Hr4 & Hmp4 & Hu4 & Hc4).
  assert (He4 : forall j, symbol_exists j (dec m4) = symbol_exists j (dec m)).
  { intros j; rewrite <- He3.
    apply symbol_exists_header, R4. }
  pose proof (work_shape _ _ _ W4) as S4.
  assert (Hp4 : p < symbols (dec m4)) by lia.
  rewrite (store_coded_symbol_eq data id p m4 W4 Hp4).
  assert (W4p : working (Slot p) (Slot p) m4).
  { constructor; simpl; auto.
    - split; auto; now rewrite He4.
    - split; auto; now rewrite He4.
    - now apply (shape_vector_length _ S4).
    - now apply (shape_symbol_length _ S4). }
  destruct (store_buffers (Slot p) (Slot p) (load_id id m4)
                          (load_data data m4) m4)
    as (B5 & Ev5 & Es5).
  { eapply working_in_range_id; eauto. }
  { eapply working_in_range_data; eauto. }
  { simpl; rewrite (work_id_length _ _ _ W4).
    symmetry; now apply (shape_vector_length _ S4). }
  { simpl; rewrite (work_data_length _ _ _ W4).
    symmetry; now apply (shape_symbol_length _ S4). }
  set (m5 := store_data (Slot p) (load_data data m4)
                        (store_id (Slot p) (load_id id m4) m4)) in *.
  change (vector p (dec m5) = load_id id m4) in Ev5.
  change (symbol p (dec m5) = load_data data m4) in Es5.
  pose proof (working_buffers_only _ _ _ _ W4p B5) as W5p.
  pose proof (work_shape _ _ _ W5p) as S5.
  destruct (header_inv _ _ (bo_header _ _ _ _ B5))
    as (Hk5 & Hl5 & Hr5 & Hmp5 & Hu5 & Hc5).
  assert (He5 : forall j, symbol_exists j (dec m5) = symbol_exists j (dec m)).
  { intros j; rewrite <- He4; eapply buffers_only_exists; eauto. }
  assert (Hv5 : forall j, j <> p -> vector j (dec m5) = vector j (dec m4))
    by (intros j Hj; apply (bo_vector _ _ _ _ B5); congruence).
  assert (Hs5 : forall j, j <> p -> symbol j (dec m5) = symbol j (dec m4))
    by (intros j Hj; apply (bo_symbol _ _ _ _ B5); congruence).
  assert (Hx4 : load_id id m4 = load_id id m3) by apply R4.
  assert (Hp5 : p < symbols (dec m5)) by lia.
  change (dec (on_dec (marked false p) m5)) with (marked false p (dec m5)).
  assert (Hex : forall j, symbol_exists j (marked false p (dec m5))
                          = if Nat.eq_dec j p then true
                            else symbol_exists j (dec m)).
  { intros j; rewrite marked_exists by auto.
    destruct (Nat.eq_dec j p); auto. }
  split; [exact Hp|]. split; [exact Hpe|].
  split; [|split; [|split; [exact Hex|split; [|split]]]].
  - apply marked_shape; auto.
    + now rewrite He5.
    + now rewrite Ev5, Hx4.
    + intros j Hj; rewrite Ev5, Hx4; auto.
    + intros j Hj Ho; rewrite Ev5, Hx4; apply Hocc3'; [lia|].
      now rewrite He3, <- He5.
    + intros j Hj Ho; rewrite He5 in Ho.
      rewrite Hv5 by (intros ->; congruence).
      apply Hcol4; [lia|now rewrite He3].
    + discriminate.
  - apply marked_header.
    rewrite (bo_header _ _ _ _ B5), (ro_header _ _ _ _ R4).
    apply B13.
  - intros Q HQ.
    rewrite <- (HQ1 Q HQ), <- (HQ2 Q HQ), <- (HQ3 Q HQ), <- (HQ4 Q HQ).
    destruct (marked_symbols false p (dec m5)) as (Hkm & _).
    unfold all_in, rows_in; rewrite Hkm, Hk5.
    split.
    + intros H; split.
      * rewrite <- Ev5, <- Es5.
        rewrite <- (marked_vector false p p), <- (marked_symbol false p p).
        apply H; [lia|].
        rewrite Hex; destruct (Nat.eq_dec p p); congruence.
      * intros j Hj Ho.
        assert (j <> p) by (intros ->; rewrite He4 in Ho; congruence).
        rewrite <- Hv5, <- Hs5 by auto.
        rewrite <- (marked_vector false p j), <- (marked_symbol false p j).
        apply H; auto.
        rewrite Hex; destruct (Nat.eq_dec j p); auto.
        now rewrite <- He4.
    + intros [Hb Hrows] j Hj Ho.
      rewrite marked_vector, marked_symbol.
      rewrite Hex in Ho; destruct (Nat.eq_dec j p) as [->|Hne].
      * now rewrite Ev5, Es5.
      * rewrite Hv5, Hs5 by auto; apply Hrows; auto; now rewrite He4.
  - intros j Hcj Hjp Hid.
    rewrite marked_vector, Hv5 by auto.
    rewrite (ro_vector _ _ _ _ R4) by congruence.
    now apply (bo_vector _ _ _ _ B13).
  - intros j Hcj Hjp Hdata.
    rewrite marked_symbol, Hs5 by auto.
    rewrite (ro_symbol _ _ _ _ R4) by congruence.
    now apply (bo_symbol _ _ _ _ B13).
Qed.

(** ** Counting the occupied slots *)

Lemma count_ext (f g : nat -> bool) (a n : nat) :
  (forall i, a <= i < a + n -> f i = g i) ->
  length (filter f (seq a n)) = length (filter g (seq a n)).
Proof.
  revert a; induction n as [|n IH]; intros a H; simpl; auto.
  rewrite (H a) by lia.
  destruct (g a); simpl; rewrite (IH (S a)); auto; intros; apply H; lia.
Qed.

Lemma count_set (f g : nat -> bool) (a n p : nat) :
  a <= p < a + n -> f p = false -> g p = true ->
  (forall i, i <> p -> g i = f i) ->
  length (filter g (seq a n)) = S (length (filter f (seq a n))).
Proof.
  revert a; induction n as [|n IH]; intros a Hp Hf Hg H; [lia|]; simpl.
  destruct (Nat.eq_dec p a) as [->|Hne].
  - rewrite Hf, Hg; simpl; f_equal.
    apply count_ext; intros i Hi; apply H; lia.
  - rewrite (H a) by auto.
    destruct (f a); simpl; rewrite (IH (S a)); auto; lia.
Qed.

Lemma count_le (f : nat -> bool) (a n : nat) :
  length (filter f (seq a n)) <= n.
Proof.
  revert a; induction n as [|n IH]; intros a; simpl; auto.
  destruct (f a); simpl; specialize (IH (S a)); lia.
Qed.

Lemma count_full (f : nat -> bool) (a n : nat) :
  length (filter f (seq a n)) = n ->
  forall i, a <= i < a + n -> f i = true.
Proof.
  revert a; induction n as [|n IH]; intros a H i Hi; [lia|].
  simpl in H; destruct (f a) eqn:Hfa; simpl in H.
  - destruct (Nat.eq_dec i a) as [->|Hne]; auto.
    apply (IH (S a)); [lia|lia].
  - pose proof (count_le f (S a) n); lia.
Qed.

Lemma count_lt (f : nat -> bool) (a n p : nat) :
  a <= p < a + n -> f p = false -> length (filter f (seq a n)) < n.
Proof.
  intros Hp Hf.
  destruct (Nat.eq_dec (length (filter f (seq a n))) n) as [H|H].
  - rewrite (count_full f a n H p Hp) in Hf; discriminate.
  - pose proof (count_le f a n); lia.
Qed.

Lemma incr32_small (n : N) : (n + 1 < 2 ^ 32)%N -> incr32 n = (n + 1)%N.
Proof. intros H; unfold incr32; now apply N.mod_small. Qed.

(** ** Decoders that differ in the rank or in one bit *)

Lemma shape_with_rank (r : N) (d : decoder) :
  shape (with_rank r d) <-> shape d.
Proof. split; intros []; constructor; assumption. Qed.

Lemma decoder_ext (d d' : decoder) :
  header d' = header d ->
  vector_storage d' = vector_storage d ->
  symbol_storage d' = symbol_storage d -> d' = d.
Proof.
  destruct d, d'; unfold header; simpl; intros H -> ->.
  now inversion H.
Qed.

Lemma symbol_exists_uncoded_off (d : decoder) (i j : nat) :
  i < length (m_coded d) ->
  symbol_exists j (with_coded i false d)
  = if Nat.eq_dec j i then nth i (m_uncoded d) false
    else symbol_exists j d.
Proof.
  intros Hi; unfold symbol_exists, with_coded; simpl.
  destruct (Nat.eq_dec j i) as [->|Hne].
  - now rewrite nth_set_nth_eq.
  - now rewrite nth_set_nth_ne by auto.
Qed.

(** Taking a coded slot out of the occupied ones. *)
Lemma shape_unmark (d : decoder) (i : nat) :
  shape d -> i < symbols d -> nth i (m_uncoded d) false = false ->
  shape (with_coded i false d).
Proof.
  intros S Hi Hu.
  pose proof (shape_coded_length _ S) as Hlen.
  assert (He : forall j, symbol_exists j (with_coded i false d) = true ->
                         symbol_exists j d = true).
  { intros j; rewrite symbol_exists_uncoded_off by lia.
    destruct (Nat.eq_dec j i); auto; congruence. }
  constructor; simpl; try apply S.
  - rewrite length_set_nth; apply S.
  - intros j Hj Huj; destruct (Nat.eq_dec i j) as [->|Hne].
    + rewrite nth_set_nth_eq; auto; lia.
    + rewrite nth_set_nth_ne by auto; now apply S.
  - intros j Hj Ho; apply (shape_below_maximum _ S); auto.
  - intros j Hj Ho; apply (shape_pivot _ S); auto.
  - intros j l Hj Hl Hjl Hoj Hol; apply (shape_reduced _ S); auto.
  - intros j l Hj Hl Ho; apply (shape_lower _ S j l); auto.
Qed.

(** ** The public operations keep the invariant *)

Lemma count_none (f : nat -> bool) (a n : nat) :
  (forall i, a <= i < a + n -> f i = false) ->
  length (filter f (seq a n)) = 0.
Proof.
  intros H; rewrite (count_ext f (fun _ => false) a n H).
  clear H; revert a; induction n as [|n IH]; intros a; simpl; auto.
Qed.

Lemma initialize_exists (n len : nat) (d : decoder) (j : nat) :
  n <= length (m_uncoded d) -> n <= length (m_coded d) -> j < n ->
  symbol_exists j (initialize n len d) = false.
Proof.
  intros Hu Hc Hj; unfold symbol_exists, initialize; simpl.
  rewrite !nth_fill_n_lt by lia; reflexivity.
Qed.

Lemma initialize_vector (n len : nat) (d : decoder) (j : nat) :
  j < n -> vector j (initialize n len d) = repeat czero n.
Proof.
  intros Hj; unfold vector, initialize, initialize_vector_storage; simpl.
  now apply nth_repeat_lt.
Qed.

Lemma initialize_symbol (n len : nat) (d : decoder) (j : nat) :
  j < n -> symbol j (initialize n len d) = repeat ezero len.
Proof.
  intros Hj; unfold symbol, initialize, initialize_symbol_storage; simpl.
  now apply nth_repeat_lt.
Qed.

Lemma initialize_invariant (n len : nat) (d : decoder) :
  0 < n -> n <= length (m_uncoded d) ->
  length (m_coded d) = length (m_uncoded d) ->
  (N.of_nat (length (m_uncoded d)) < 2 ^ 32)%N ->
  invariant (initialize n len d).
Proof.
  intros Hn Hu Hc H32.
  assert (He : forall j, j < n -> symbol_exists j (initialize n len d) = false)
    by (intros; apply initialize_exists; lia).
  assert (Hno : forall j (P : Prop),
             j < n -> symbol_exists j (initialize n len d) = true -> P).
  { intros j P Hj Ho; rewrite He in Ho by auto; discriminate. }
  constructor.
  - constructor; simpl; auto.
    + lia.
    + rewrite length_fill_n; lia.
    + rewrite length_fill_n; lia.
    + unfold initialize_vector_storage; apply repeat_length.
    + unfold initialize_symbol_storage; apply repeat_length.
    + intros i Hi; rewrite initialize_vector by auto; apply repeat_length.
    + intros i Hi; rewrite initialize_symbol by auto; apply repeat_length.
    + intros i Hi Hui; rewrite nth_fill_n_lt by lia; reflexivity.
    + intros i Hi Ho; now apply (Hno i).
    + intros i Hi Ho; now apply (Hno i).
    + intros i j Hi Hj _ Ho; now apply (Hno i).
    + intros i j Hi Hj Ho; now apply (Hno i).
    + intros i j Hi Hj _ Hui.
      apply (Hno i); auto; now apply uncoded_exists.
  - unfold rank_counts, count_occupied; simpl.
    rewrite count_none; auto.
    intros i Hi; apply He; lia.
  - simpl; rewrite !length_fill_n; auto.
  - intros i Hi _ j Hj; simpl in Hi, Hj.
    rewrite initialize_vector by auto.
    unfold coefficient; now apply nth_repeat_lt.
Qed.

Lemma construct_lengths (max_symbols max_symbol_size : nat) :
  length (m_uncoded (construct max_symbols max_symbol_size)) = max_symbols
  /\ length (m_coded (construct max_symbols max_symbol_size)) = max_symbols.
Proof. simpl; now rewrite repeat_length. Qed.

(** The rank follows the occupancy when one empty slot is filled. *)
Lemma rank_step (d d' : decoder) (p : nat) :
  shape d -> rank_counts d -> symbols d' = symbols d ->
  p < symbols d -> symbol_exists p d = false ->
  (forall j, symbol_exists j d'
             = if Nat.eq_dec j p then true else symbol_exists j d) ->
  m_rank d' = incr32 (m_rank d) ->
  rank_counts d' /\ m_rank d' = (m_rank d + 1)%N.
Proof.
  intros S Hr Hk Hp Hpe Hex Hr'.
  unfold rank_counts, count_occupied in *.
  assert (Hc : length (filter (fun i => symbol_exists i d')
                              (seq 0 (symbols d')))
               = Datatypes.S
                   (length (filter (fun i => symbol_exists i d)
                                   (seq 0 (symbols d))))).
  { rewrite Hk; apply (count_set _ _ 0 (symbols d) p); auto; try lia.
    - rewrite Hex; destruct (Nat.eq_dec p p); congruence.
    - intros i Hi; rewrite Hex; destruct (Nat.eq_dec i p); congruence. }
  assert (Hlt : length (filter (fun i => symbol_exists i d)
                               (seq 0 (symbols d))) < symbols d)
    by (apply (count_lt _ 0 (symbols d) p); auto; lia).
  pose proof (shape_uint32 _ S) as H32.
  set (c := length (filter (fun i => symbol_exists i d)
                           (seq 0 (symbols d)))) in *.
  assert (Hsmall : (N.of_nat c + 1 < 2 ^ 32)%N) by lia.
  rewrite Hr', Hc, Hr, (incr32_small _ Hsmall).
  split; lia.
Qed.

Lemma working_caller (d : decoder) (sd : list elem) (sv : list coeff) :
  shape d -> length sd = symbol_length d -> length sv = symbols d ->
  working Caller Caller (mkMemory d sd sv).
Proof. intros S Hd Hv; constructor; simpl; auto. Qed.

Lemma storage_ext {A : Type} (l l' : list (list A)) :
  length l' = length l -> (forall j, nth j l' [] = nth j l []) -> l' = l.
Proof. intros Hlen H; apply (nth_ext _ _ [] []); auto. Qed.

Lemma decode_absorbed (d : decoder) (sd : list elem) (sv : list coeff) :
  invariant d -> length sd = symbol_length d -> length sv = symbols d ->
  absorbed sv sd None d (decode sd sv d)
  /\ (decode sd sv d = d
      \/ exists p, p < symbols d /\ symbol_exists p d = false
                   /\ symbol_exists p (decode sd sv d) = true
                   /\ m_rank (decode sd sv d) = (m_rank d + 1)%N).
Proof.
  intros Inv Hsd Hsv.
  pose proof (inv_shape _ Inv) as S.
  pose proof (working_caller d sd sv S Hsd Hsv) as W.
  unfold decode, decode_mem.
  destruct (decode_with_vector_spec Caller Caller _ W)
    as [(W' & B & HQ & Hz)|(p & Hp & Hpe & S' & Hh & Hex & HQ & Hfv & Hfs)];
    set (m' := decode_with_vector Caller Caller (mkMemory d sd sv)) in *;
    simpl in *.
  - assert (E : dec m' = d).
    { apply decoder_ext.
      - apply B.
      - apply storage_ext; [apply B|].
        intros j; apply (bo_vector _ _ _ _ B); discriminate.
      - apply storage_ext; [apply B|].
        intros j; apply (bo_symbol _ _ _ _ B); discriminate. }
    assert (Hin : forall Qv, closed (fun x _ => Qv x) ->
                             vanishing (symbols d) Qv ->
                             rows_in (fun x _ => Qv x) d -> Qv sv).
    { intros Qv HcQ Hvan Hrows.
      destruct (HQ _ HcQ) as [Hfwd _].
      apply Hfwd; split; simpl; [|now rewrite E].
      apply Hvan; auto.
      rewrite <- E at 1; apply W'. }
    rewrite E; split; [|now left].
    constructor.
    + exact Inv.
    + reflexivity.
    + reflexivity.
    + reflexivity.
    + right; split; [reflexivity|exact Hin].
    + intros Q _ Hrows _; exact Hrows.
    + intros Qv HcQ Hvan Hrows; split; [exact Hrows|now apply Hin].
    + auto.
    + intros j Hj; now rewrite orb_false_r.
    + auto.
  - destruct (header_inv _ _ Hh) as (Hk & Hl & Hr & Hmp & Hu & Hc).
    destruct (marked_symbols false p d) as (Hk0 & Hl0 & Hr0 & _).
    destruct (marked_flags false p d) as (Hu0 & Hc0).
    rewrite Hk0 in Hk; rewrite Hl0 in Hl; rewrite Hr0 in Hr.
    rewrite Hu0 in Hu; rewrite Hc0 in Hc.
    destruct (rank_step d (dec m') p S (inv_rank _ Inv) Hk Hp Hpe Hex Hr)
      as (Hrc & Hr1).
    assert (Hblank : forall j, symbol_exists j (dec m') = false ->
                               j <> p /\ symbol_exists j d = false).
    { intros j; rewrite Hex; destruct (Nat.eq_dec j p); auto; discriminate. }
    split.
    + constructor.
      * constructor.
        -- exact S'.
        -- exact Hrc.
        -- rewrite Hu, Hc, length_set_nth; apply Inv.
        -- intros j Hj Ho; destruct (Hblank j Ho) as (Hjp & Ho').
           rewrite Hk in *.
           rewrite Hfv; [now apply Inv| |auto|discriminate].
           now apply exists_false in Ho'.
      * exact Hk.
      * exact Hl.
      * now rewrite Hu.
      * now left.
      * intros Q HcQ Hrows Hq; apply (HQ Q HcQ); split; auto.
      * intros Qv HcQ Hvan Hrows.
        apply (HQ _ HcQ) in Hrows; destruct Hrows; split; auto.
      * intros j Ho; rewrite Hex; destruct (Nat.eq_dec j p); auto.
      * intros j Hj; now rewrite Hu, orb_false_r.
      * intros j Hj Ho; destruct (Hblank j Ho) as (Hjp & Ho').
        apply exists_false in Ho'; destruct Ho' as (Hcj & _).
        split; [apply Hfv|apply Hfs]; auto; discriminate.
    + right; exists p; repeat split; auto.
      rewrite Hex; destruct (Nat.eq_dec p p); congruence.
Qed.

(** ** Raw symbols *)

Lemma load_id_slot (i : nat) (m : memory) :
  load_id (Slot i) m = vector i (dec m).
Proof. reflexivity. Qed.

Lemma load_data_slot (i : nat) (m : memory) :
  load_data (Slot i) m = symbol i (dec m).
Proof. reflexivity. Qed.

Lemma store_commute (id data : buffer) (x : list coeff) (s : list elem)
      (m : memory) :
  store_id id x (store_data data s m) = store_data data s (store_id id x m).
Proof. destruct id, data; reflexivity. Qed.

Lemma set_coefficient_blank (n i : nat) (v : list coeff) :
  length v = n -> zero_row n v ->
  set_coefficient i v cone = elementary n i.
Proof.
  intros Hv Hz; apply (row_ext n).
  - now rewrite length_set_coefficient.
  - apply length_elementary.
  - intros j Hj; destruct (Nat.eq_dec j i) as [->|Hne].
    + rewrite coefficient_set_eq by lia.
      now rewrite coefficient_elementary_eq.
    + rewrite coefficient_set_ne by auto.
      rewrite coefficient_elementary_ne by auto; now apply Hz.
Qed.

Lemma uncoded_row (d : decoder) (i : nat) :
  shape d -> i < symbols d -> nth i (m_uncoded d) false = true ->
  vector i d = elementary (symbols d) i.
Proof.
  intros S Hi Hu; apply (row_ext (symbols d)).
  - now apply S.
  - apply length_elementary.
  - intros j Hj; destruct (Nat.eq_dec j i) as [->|Hne].
    + rewrite coefficient_elementary_eq by auto.
      apply (shape_pivot _ S); auto; now apply uncoded_exists.
    + rewrite coefficient_elementary_ne by auto.
      now apply (shape_uncoded _ S).
Qed.

Lemma rows_in_marked (Q : list coeff -> list elem -> Prop) (raw : bool)
      (p : nat) (d : decoder) :
  shape d -> p < symbols d -> symbol_exists p d = false ->
  (rows_in Q (marked raw p d)
   <-> Q (vector p d) (symbol p d) /\ rows_in Q d).
Proof.
  intros S Hp Hpe.
  destruct (marked_symbols raw p d) as (Hk & _).
  unfold rows_in; rewrite Hk; split.
  - intros H; split.
    + rewrite <- (marked_vector raw p p), <- (marked_symbol raw p p).
      apply H; auto.
      rewrite marked_exists by auto; destruct (Nat.eq_dec p p); congruence.
    + intros j Hj Ho.
      rewrite <- (marked_vector raw p j), <- (marked_symbol raw p j).
      apply H; auto.
      rewrite marked_exists by auto; destruct (Nat.eq_dec j p); auto.
  - intros [Hp' Hrows] j Hj Ho.
    rewrite marked_vector, marked_symbol.
    rewrite marked_exists in Ho by auto.
    destruct (Nat.eq_dec j p) as [->|Hne]; auto.
Qed.

Lemma decode_raw_uncoded (d : decoder) (sd : list elem) (i : nat) :
  invariant d -> i < symbols d -> nth i (m_uncoded d) false = true ->
  decode_raw sd i d = d
  /\ absorbed (elementary (symbols d) i) sd (Some i) d d.
Proof.
  intros Inv Hi Hu; unfold decode_raw; rewrite Hu; split; auto.
  pose proof (inv_shape _ Inv) as S.
  assert (Hin : forall Qv, rows_in (fun x _ => Qv x) d ->
                           Qv (elementary (symbols d) i)).
  { intros Qv Hrows; rewrite <- (uncoded_row d i S Hi Hu).
    apply Hrows; auto; now apply uncoded_exists. }
  constructor.
  - exact Inv.
  - reflexivity.
  - reflexivity.
  - reflexivity.
  - right; split; [reflexivity|intros Qv _ _; apply Hin].
  - intros Q _ Hrows _; exact Hrows.
  - intros Qv _ _ Hrows; split; [exact Hrows|now apply Hin].
  - auto.
  - intros j Hj; destruct (Nat.eqb_spec j i) as [->|Hne].
    + now rewrite Hu.
    + now rewrite orb_false_r.
  - auto.
Qed.

Lemma store_uncoded_symbol_eq (i : nat) (m : memory) :
  shape (dec m) -> i < symbols (dec m) ->
  length (caller_data m) = symbol_length (dec m) ->
  store_uncoded_symbol Caller i m
  = store_data (Slot i) (caller_data m)
               (store_id (Slot i)
                         (set_coefficient i (vector i (dec m)) cone) m).
Proof.
  intros S Hi Hlen; unfold store_uncoded_symbol.
  rewrite vector_store_data, <- store_commute.
  simpl load_data.
  rewrite copy_all; auto.
  now apply S.
Qed.

Lemma decode_raw_empty (d : decoder) (sd : list elem) (i : nat) :
  invariant d -> i < symbols d -> length sd = symbol_length d ->
  symbol_exists i d = false ->
  absorbed (elementary (symbols d) i) sd (Some i) d (decode_raw sd i d)
  /\ m_rank (decode_raw sd i d) = (m_rank d + 1)%N
  /\ vector i (decode_raw sd i d) = elementary (symbols d) i
  /\ symbol i (decode_raw sd i d) = sd.
Proof.
  intros Inv Hi Hsd Hie.
  pose proof (inv_shape _ Inv) as S.
  destruct (exists_false _ _ Hie) as (Hic & Hiu).
  unfold decode_raw; rewrite Hiu, Hic.
  set (m := mkMemory d sd []).
  change (raise_maximum_pivot
            i (with_uncoded
                 i true
                 (with_rank
                    (incr32
                       (m_rank
                          (dec (backward_substitute
                                  Caller (Slot i) i
                                  (store_uncoded_symbol Caller i m)))))
                    (dec (backward_substitute
                            Caller (Slot i) i
                            (store_uncoded_symbol Caller i m))))))
    with (marked true i
                 (dec (backward_substitute
                         Caller (Slot i) i
                         (store_uncoded_symbol Caller i m)))).
  rewrite (store_uncoded_symbol_eq i m S Hi Hsd).
  change (caller_data m) with sd; change (dec m) with d.
  rewrite (set_coefficient_blank (symbols d) i);
    [|now apply S|now apply Inv].
  set (E := elementary (symbols d) i).
  assert (W : working (Slot i) (Slot i) m).
  { constructor; simpl; auto; now apply S. }
  destruct (store_buffers (Slot i) (Slot i) E sd m) as (B1 & Ev1 & Es1).
  { eapply working_in_range_id; eauto. }
  { eapply working_in_range_data; eauto. }
  { simpl; unfold E; rewrite length_elementary.
    symmetry; now apply (shape_vector_length _ S). }
  { simpl; rewrite Hsd; symmetry; now apply (shape_symbol_length _ S). }
  set (m1 := store_data (Slot i) sd (store_id (Slot i) E m)) in *.
  change (vector i (dec m1) = E) in Ev1.
  change (symbol i (dec m1) = sd) in Es1.
  pose proof (working_buffers_only _ _ _ _ W B1) as W1s.
  destruct (header_inv _ _ (bo_header _ _ _ _ B1))
    as (Hk1 & Hl1 & Hr1 & Hmp1 & Hu1 & Hc1).
  change (dec m) with d in *.
  assert (He1 : forall j, symbol_exists j (dec m1) = symbol_exists j d)
    by (intros j; apply (buffers_only_exists _ _ _ _ j B1)).
  assert (W1 : working Caller (Slot i) m1).
  { constructor.
    - apply W1s.
    - apply (work_id_free _ _ _ W1s).
    - exact I.
    - rewrite load_id_slot, Ev1, Hk1; apply length_elementary.
    - change (length sd = symbol_length (dec m1)); now rewrite Hl1. }
  assert (HEi : coefficient i E = cone)
    by (now apply coefficient_elementary_eq).
  assert (HEj : forall j, j <> i -> coefficient j E = czero)
    by (intros; now apply coefficient_elementary_ne).
  destruct (backward_substitute_spec Caller (Slot i) i m1 W1)
    as (W2 & R2 & HQ2 & Hcol2).
  { lia. }
  { now rewrite He1. }
  { now rewrite load_id_slot, Ev1. }
  { intros j Hj; rewrite load_id_slot, Ev1; apply HEj; lia. }
  { intros j Hj Ho; rewrite load_id_slot, Ev1; apply HEj.
    intros ->; rewrite He1 in Ho; congruence. }
  set (m2 := backward_substitute Caller (Slot i) i m1) in *.
  destruct (header_inv _ _ (ro_header _ _ _ _ R2))
    as (Hk2 & Hl2 & Hr2 & Hmp2 & Hu2 & Hc2).
  assert (He2 : forall j, symbol_exists j (dec m2) = symbol_exists j d).
  { intros j; rewrite <- He1; apply symbol_exists_header, R2. }
  pose proof (work_shape _ _ _ W2) as S2.
  assert (Ev2 : vector i (dec m2) = E).
  { rewrite <- Ev1; apply (ro_id _ _ _ _ R2). }
  assert (Es2 : symbol i (dec m2) = sd).
  { rewrite <- Es1; apply (ro_symbol _ _ _ _ R2); congruence. }
  assert (Hi2 : i < symbols (dec m2)) by lia.
  assert (Hie2 : symbol_exists i (dec m2) = false) by (now rewrite He2).
  assert (Hex : forall j, symbol_exists j (marked true i (dec m2))
                          = if Nat.eq_dec j i then true
                            else symbol_exists j d).
  { intros j; rewrite marked_exists by auto.
    destruct (Nat.eq_dec j i); auto. }
  destruct (marked_symbols true i (dec m2)) as (Hkm & Hlm & Hrm & _).
  destruct (marked_flags true i (dec m2)) as (Hum & Hcm).
  assert (S' : shape (marked true i (dec m2))).
  { apply marked_shape; auto.
    - now rewrite Ev2.
    - intros j Hj; rewrite Ev2; apply HEj; lia.
    - intros j Hj Ho; rewrite Ev2; apply HEj; intros ->; congruence.
    - intros j Hj Ho; apply Hcol2; [lia|].
      now rewrite He1, <- He2.
    - intros _ j Hj Hji; rewrite Ev2; now apply HEj. }
  destruct (rank_step d (marked true i (dec m2)) i S (inv_rank _ Inv))
    as (Hrc & Hr'); auto; try lia.
  { rewrite Hrm; congruence. }
  assert (Hrows : forall Q, closed Q ->
                    (rows_in Q (marked true i (dec m2))
                     <-> Q E sd /\ rows_in Q d)).
  { intros Q HcQ.
    rewrite (rows_in_marked Q true i (dec m2) S2 Hi2 Hie2), Ev2, Es2.
    destruct (HQ2 Q HcQ) as [H21 H12].
    unfold all_in in H21, H12.
    rewrite !load_id_slot, Ev2, (ro_data _ _ _ _ R2), Ev1 in H21, H12.
    change (load_data Caller m1) with sd in H21, H12.
    pose proof (rows_in_buffers_only Q _ _ _ _ W B1) as Hd.
    change (dec m) with d in Hd.
    split.
    - intros [Hq Hr2']; split; auto.
      apply Hd, H21; auto.
    - intros [Hq Hr0]; split; auto.
      apply H12; split; auto; now apply Hd. }
  assert (Hframe : forall j, j < symbols d ->
                     symbol_exists j (marked true i (dec m2)) = false ->
                     vector j (marked true i (dec m2)) = vector j d
                     /\ symbol j (marked true i (dec m2)) = symbol j d).
  { intros j Hj Ho; rewrite Hex in Ho.
    destruct (Nat.eq_dec j i) as [|Hne]; [discriminate|].
    apply exists_false in Ho; destruct Ho as (Hcj & _).
    rewrite marked_vector, marked_symbol.
    rewrite (ro_vector _ _ _ _ R2), (ro_symbol _ _ _ _ R2) by congruence.
    split; [apply (bo_vector _ _ _ _ B1)|apply (bo_symbol _ _ _ _ B1)];
      congruence. }
  split; [|split; [exact Hr'|split]].
  - constructor.
    + constructor.
      * exact S'.
      * exact Hrc.
      * rewrite Hum, Hcm, length_set_nth, Hu2, Hc2, Hu1, Hc1; apply Inv.
      * intros j Hj Ho; rewrite Hkm, Hk2, Hk1 in *.
        destruct (Hframe j Hj Ho) as (-> & _).
        apply Inv; auto.
        rewrite Hex in Ho; destruct (Nat.eq_dec j i); congruence.
    + lia.
    + lia.
    + now rewrite Hum, length_set_nth, Hu2, Hu1.
    + now left.
    + intros Q HcQ Hr0 Hq; apply (Hrows Q HcQ); auto.
    + intros Qv HcQ _ Hr0; apply (Hrows _ HcQ) in Hr0; tauto.
    + intros j Ho; rewrite Hex; destruct (Nat.eq_dec j i); auto.
    + intros j Hj; rewrite marked_uncoded by auto.
      destruct (Nat.eq_dec j i) as [->|Hne].
      * rewrite Nat.eqb_refl; simpl; now rewrite orb_true_r.
      * destruct (Nat.eqb_spec j i); [contradiction|].
        now rewrite orb_false_r, Hu2, Hu1.
    + exact Hframe.
  - now rewrite marked_vector.
  - now rewrite marked_symbol.
Qed.

(** ** The swap path *)

Lemma swap_decode_eq (sd : list elem) (i : nat) (d : decoder) :
  swap_decode Caller i (mkMemory d sd [])
  = let m4 := decode_with_vector (Slot i) (Slot i) (displaced sd i d) in
    on_dec (with_uncoded i true)
           (store_uncoded_symbol
              Caller i
              (store_id (Slot i)
                        (fill_n (vector i (dec m4)) (vector_length (dec m4))
                                czero) m4)).
Proof. reflexivity. Qed.

(** The coded path on stored rows leaves the caller's payload alone. *)
Lemma caller_data_subtract_stored (a b i : nat) (c : coeff) (m : memory) :
  caller_data (subtract_stored (Slot a) (Slot b) i c m) = caller_data m.
Proof. unfold subtract_stored; now destruct is_binary. Qed.

Lemma caller_data_subtract_into_stored (a b i : nat) (c : coeff)
      (m : memory) :
  caller_data (subtract_into_stored (Slot a) (Slot b) i c m) = caller_data m.
Proof. unfold subtract_into_stored; now destruct is_binary. Qed.

Lemma caller_data_decode_with_vector (a b : nat) (m : memory) :
  caller_data (decode_with_vector (Slot a) (Slot b) m) = caller_data m.
Proof.
  unfold decode_with_vector, forward_substitute_to_pivot.
  pose proof (forward_loop_rule
                (Slot a) (Slot b)
                (fun _ m' => caller_data m' = caller_data m)
                (symbols (dec m))) as R.
  specialize (R (fun t m' _ H _ => H)).
  assert (Hsub : forall t m', t < symbols (dec m) ->
              caller_data m' = caller_data m ->
              nonzero (coefficient t (load_id (Slot b) m')) = true ->
              symbol_exists t (dec m') = true ->
              caller_data
                (subtract_stored (Slot a) (Slot b) t
                                 (coefficient t (load_id (Slot b) m')) m')
              = caller_data m).
  { intros t m' _ H _ _; now rewrite caller_data_subtract_stored. }
  specialize (R Hsub (symbols (dec m)) 0 m (Nat.le_refl _) eq_refl).
  destruct (forward_substitute_to_pivot_loop
              (Slot a) (Slot b) (seq 0 (symbols (dec m))) m) as [m1 [p|]];
    auto.
  destruct R as (H1 & _).
  unfold on_dec, store_coded_symbol; simpl.
  unfold backward_substitute.
  set (m2 := if is_binary then m1 else normalize (Slot a) (Slot b) p m1).
  assert (H2 : caller_data m2 = caller_data m).
  { unfold m2; destruct is_binary; auto. }
  set (m3 := forward_substitute_from_pivot (Slot a) (Slot b) p m2).
  assert (H3 : caller_data m3 = caller_data m).
  { unfold m3, forward_substitute_from_pivot.
    pose proof (fold_seq_rule
                  (fun (m : memory) (i : nat) =>
                     if nonzero (coefficient i (load_id (Slot b) m))
                     then if symbol_exists i (dec m)
                          then subtract_stored
                                 (Slot a) (Slot b) i
                                 (coefficient i (load_id (Slot b) m)) m
                          else m
                     else m)
                  (fun _ m' => caller_data m' = caller_data m)
                  (m_maximum_pivot (dec m2) - p) (p + 1) m2) as F.
    apply F; auto.
    intros i m' _ H.
    destruct (nonzero _); auto; destruct (symbol_exists _ _); auto.
    now rewrite caller_data_subtract_stored. }
  pose proof (fold_seq_rule
                (fun (m : memory) (i : nat) =>
                   if nth i (m_uncoded (dec m)) false then m
                   else if i =? p then m
                        else if nth i (m_coded (dec m)) false
                             then if nonzero
                                       (coefficient p (vector i (dec m)))
                                  then subtract_into_stored
                                         (Slot a) (Slot b) i
                                         (coefficient p (vector i (dec m)))
                                         m
                                  else m
                             else m)
                (fun _ m' => caller_data m' = caller_data m)
                (m_maximum_pivot (dec m3) + 1) 0 m3) as F.
  apply F; auto.
  intros i m' _ H.
  destruct (nth i (m_uncoded (dec m')) false); auto.
  destruct (i =? p); auto.
  destruct (nth i (m_coded (dec m')) false); auto.
  destruct (nonzero _); auto.
  now rewrite caller_data_subtract_into_stored.
Qed.

Lemma coded_not_uncoded (d : decoder) (i : nat) :
  shape d -> i < symbols d -> nth i (m_coded d) false = true ->
  nth i (m_uncoded d) false = false.
Proof.
  intros S Hi Hc; destruct (nth i (m_uncoded d) false) eqn:Hu; auto.
  rewrite (shape_exclusive _ S i Hi Hu) in Hc; discriminate.
Qed.

Lemma displaced_spec (d : decoder) (sd : list elem) (i : nat) :
  invariant d -> i < symbols d -> length sd = symbol_length d ->
  nth i (m_coded d) false = true ->
  let m3 := displaced sd i d in
  let E := elementary (symbols d) i in
  working (Slot i) (Slot i) m3
  /\ header (dec m3) = header (with_coded i false d)
  /\ (forall j, symbol_exists j (dec m3)
                = if Nat.eq_dec j i then false else symbol_exists j d)
  /\ (forall j, j <> i -> vector j (dec m3) = vector j d
                          /\ symbol j (dec m3) = symbol j d)
  /\ caller_data m3 = sd
  /\ vector i (dec m3) = multiply_subtract_id (vector i d) E cone
  /\ (forall Q, closed Q -> Q E sd ->
                (all_in Q (Slot i) (Slot i) m3 <-> rows_in Q d))
  /\ (forall j, j < symbols d ->
                symbol_exists j (dec m3) = true \/ j = i ->
                coefficient i (vector j (dec m3)) = czero).
Proof.
  intros Inv Hi Hsd Hic m3 E.
  pose proof (inv_shape _ Inv) as S.
  pose proof (coded_not_uncoded d i S Hi Hic) as Hiu.
  pose proof (coded_exists _ _ Hic) as Hie.
  pose proof (shape_coded_length _ S) as Hclen.
  set (d1 := with_coded i false d).
  set (m1 := mkMemory d1 sd []).
  assert (S1 : shape d1) by (now apply shape_unmark).
  assert (He1 : forall j, symbol_exists j d1
                          = if Nat.eq_dec j i then false
                            else symbol_exists j d).
  { intros j; unfold d1; rewrite symbol_exists_uncoded_off by lia.
    destruct (Nat.eq_dec j i); auto. }
  assert (W1 : working (Slot i) (Slot i) m1).
  { constructor.
    - exact S1.
    - split; [exact Hi|].
      rewrite He1; destruct (Nat.eq_dec i i); congruence.
    - split; [exact Hi|].
      rewrite He1; destruct (Nat.eq_dec i i); congruence.
    - now apply (shape_vector_length _ S).
    - now apply (shape_symbol_length _ S). }
  set (X := set_coefficient i (vector i d) czero).
  set (Y := subtract_data (symbol i d) sd).
  destruct (store_buffers (Slot i) (Slot i) X Y m1) as (B3 & Ev3 & Es3).
  { eapply working_in_range_id; eauto. }
  { eapply working_in_range_data; eauto. }
  { unfold X; apply length_set_coefficient. }
  { unfold Y, subtract_data; apply length_zip_into. }
  change (store_data (Slot i) Y (store_id (Slot i) X m1)) with m3 in *.
  rewrite load_id_slot in Ev3; rewrite load_data_slot in Es3.
  pose proof (working_buffers_only _ _ _ _ W1 B3) as W3.
  assert (He3 : forall j, symbol_exists j (dec m3)
                          = if Nat.eq_dec j i then false
                            else symbol_exists j d).
  { intros j; rewrite <- He1.
    apply (buffers_only_exists _ _ _ _ j B3). }
  assert (Hrow : forall j, j <> i -> vector j (dec m3) = vector j d
                                     /\ symbol j (dec m3) = symbol j d).
  { intros j Hj; split.
    - apply (bo_vector _ _ _ _ B3); congruence.
    - apply (bo_symbol _ _ _ _ B3); congruence. }
  assert (HlE : length E = symbols d) by apply length_elementary.
  assert (Hlv : length (vector i d) = symbols d) by (now apply S).
  assert (Hls : length (symbol i d) = symbol_length d) by (now apply S).
  assert (HX : X = multiply_subtract_id (vector i d) E cone).
  { apply (row_ext (symbols d)).
    - unfold X; now rewrite length_set_coefficient.
    - now rewrite length_multiply_subtract_id.
    - intros j Hj; rewrite coefficient_multiply_subtract by lia.
      unfold X, E; destruct (Nat.eq_dec j i) as [->|Hne].
      + rewrite coefficient_set_eq by lia.
        rewrite coefficient_elementary_eq, (shape_pivot _ S) by auto.
        ring.
      + rewrite coefficient_set_ne by auto.
        rewrite coefficient_elementary_ne by auto; ring. }
  assert (HY : Y = multiply_subtract_data (symbol i d) sd cone)
    by apply subtract_data_multiply_subtract.
  split; [exact W3|]. split; [apply B3|]. split; [exact He3|].
  split; [exact Hrow|]. split; [reflexivity|].
  split; [now rewrite Ev3|]. split.
  - intros Q HQ HE; unfold all_in.
    rewrite load_id_slot, load_data_slot, Ev3, Es3, HX, HY.
    split.
    + intros [Hb Hrows] j Hj Ho.
      destruct (Nat.eq_dec j i) as [->|Hne].
      * apply (closed_undo Q _ E _ sd cone HQ); auto; congruence.
      * destruct (Hrow j Hne) as [<- <-]; apply Hrows; auto.
        rewrite He3; destruct (Nat.eq_dec j i); congruence.
    + intros Hrows; split.
      * apply HQ; auto.
      * intros j Hj Ho; rewrite He3 in Ho.
        destruct (Nat.eq_dec j i) as [|Hne]; [discriminate|].
        destruct (Hrow j Hne) as [-> ->]; apply Hrows; auto.
  - intros j Hj [Ho|Heq]; [|subst j].
    + rewrite He3 in Ho.
      destruct (Nat.eq_dec j i) as [|Hne]; [discriminate|].
      destruct (Hrow j Hne) as [-> _].
      now apply (shape_reduced _ S).
    + rewrite Ev3; unfold X; apply coefficient_set_eq; lia.
Qed.

(** The rows keep a column that is zero in all of them. *)
Lemma closed_column (n i : nat) :
  i < n ->
  closed (fun x (_ : list elem) => length x = n /\ coefficient i x = czero).
Proof.
  intros Hi x s y e c [Hx Hxi] [Hy Hyi]; split.
  - now rewrite length_multiply_subtract_id.
  - rewrite coefficient_multiply_subtract by lia.
    rewrite Hxi, Hyi; ring.
Qed.

Lemma store_id_only (i : nat) (x : list coeff) (m : memory) :
  in_range (Slot i) (dec m) -> length x = length (vector i (dec m)) ->
  let m' := store_id (Slot i) x m in
  buffers_only (Slot i) (Slot i) m m' /\ vector i (dec m') = x
  /\ symbol i (dec m') = symbol i (dec m).
Proof.
  intros Hr Hx m'.
  assert (E : m' = store_data (Slot i) (symbol i (dec m))
                              (store_id (Slot i) x m)).
  { rewrite <- (symbol_store_id (Slot i) x m i).
    symmetry; apply (store_data_same (Slot i)). }
  destruct (store_buffers (Slot i) (Slot i) x (symbol i (dec m)) m)
    as (B & Ev & Es); auto.
  rewrite <- E in *.
  rewrite load_id_slot in Ev; rewrite load_data_slot in Es; auto.
Qed.

(** The end of [swap_decode]: the slot is blanked, given the raw symbol
    and marked uncoded. *)
Lemma swap_tail (m4 : memory) (sd : list elem) (i : nat) :
  working (Slot i) (Slot i) m4 -> caller_data m4 = sd ->
  length sd = symbol_length (dec m4) ->
  i <= m_maximum_pivot (dec m4) ->
  (forall j, j < symbols (dec m4) -> symbol_exists j (dec m4) = true ->
             coefficient i (vector j (dec m4)) = czero) ->
  let d' :=
    dec (on_dec (with_uncoded i true)
                (store_uncoded_symbol
                   Caller i
                   (store_id (Slot i)
                             (fill_n (vector i (dec m4))
                                     (vector_length (dec m4)) czero) m4))) in
  shape d'
  /\ symbols d' = symbols (dec m4)
  /\ symbol_length d' = symbol_length (dec m4)
  /\ m_rank d' = m_rank (dec m4)
  /\ m_uncoded d' = set_nth i true (m_uncoded (dec m4))
  /\ m_coded d' = m_coded (dec m4)
  /\ vector i d' = elementary (symbols (dec m4)) i
  /\ symbol i d' = sd
  /\ (forall j, j <> i -> vector j d' = vector j (dec m4)
                          /\ symbol j d' = symbol j (dec m4)).
Proof.
  intros W4 Hcd Hsd Hmp Hcol d'; subst d'.
  pose proof (work_shape _ _ _ W4) as S4.
  destruct (work_id_free _ _ _ W4) as (Hi & Hie).
  set (Z := fill_n (vector i (dec m4)) (vector_length (dec m4)) czero) in *.
  assert (Hlv : length (vector i (dec m4)) = symbols (dec m4))
    by (now apply S4).
  assert (HZl : length Z = symbols (dec m4)) by (unfold Z; now rewrite length_fill_n).
  assert (HZ : zero_row (symbols (dec m4)) Z).
  { intros j Hj; unfold Z, coefficient, vector_length.
    apply nth_fill_n_lt; lia. }
  destruct (store_id_only i Z m4) as (B5 & Ev5 & Es5).
  { eapply working_in_range_id; eauto. }
  { congruence. }
  set (m5 := store_id (Slot i) Z m4) in *.
  pose proof (working_buffers_only _ _ _ _ W4 B5) as W5.
  pose proof (work_shape _ _ _ W5) as S5.
  destruct (header_inv _ _ (bo_header _ _ _ _ B5))
    as (Hk5 & Hl5 & Hr5 & Hmp5 & Hu5 & Hc5).
  assert (Hcd5 : caller_data m5 = sd) by exact Hcd.
  rewrite (store_uncoded_symbol_eq i m5 S5);
    [|lia|rewrite Hcd5; congruence].
  rewrite Hcd5, Ev5, (set_coefficient_blank (symbols (dec m4)) i Z HZl HZ).
  set (E := elementary (symbols (dec m4)) i) in *.
  destruct (store_buffers (Slot i) (Slot i) E sd m5) as (B6 & Ev6 & Es6).
  { eapply working_in_range_id; eauto. }
  { eapply working_in_range_data; eauto. }
  { rewrite load_id_slot, Ev5; unfold E; now rewrite length_elementary. }
  { rewrite load_data_slot, Es5, Hsd.
    symmetry; now apply (shape_symbol_length _ S4). }
  set (m6 := store_data (Slot i) sd (store_id (Slot i) E m5)) in *.
  rewrite load_id_slot in Ev6; rewrite load_data_slot in Es6.
  pose proof (working_buffers_only _ _ _ _ W5 B6) as W6.
  pose proof (work_shape _ _ _ W6) as S6.
  pose proof (buffers_only_trans _ _ _ _ _ B5 B6) as B46.
  destruct (header_inv _ _ (bo_header _ _ _ _ B46))
    as (Hk6 & Hl6 & Hr6 & Hmp6 & Hu6 & Hc6).
  assert (He6 : forall j, symbol_exists j (dec m6)
                          = symbol_exists j (dec m4))
    by (intros j; apply (buffers_only_exists _ _ _ _ j B46)).
  assert (Hrow : forall j, j <> i ->
                           vector j (dec m6) = vector j (dec m4)
                           /\ symbol j (dec m6) = symbol j (dec m4)).
  { intros j Hj; split.
    - apply (bo_vector _ _ _ _ B46); congruence.
    - apply (bo_symbol _ _ _ _ B46); congruence. }
  assert (HEi : coefficient i E = cone)
    by (now apply coefficient_elementary_eq).
  assert (HEj : forall j, j <> i -> coefficient j E = czero)
    by (intros; now apply coefficient_elementary_ne).
  assert (Sm : shape (marked true i (dec m6))).
  { apply (marked_shape true i (dec m6) S6).
    - lia.
    - now rewrite He6.
    - now rewrite Ev6.
    - intros j Hj; rewrite Ev6; apply HEj; lia.
    - intros j Hj Ho; rewrite Ev6; apply HEj.
      intros ->; rewrite He6 in Ho; congruence.
    - intros j Hj Ho; rewrite He6 in Ho.
      assert (j <> i) by (intros ->; congruence).
      destruct (Hrow j H) as (-> & _); apply Hcol; auto; lia.
    - intros _ j Hj Hji; rewrite Ev6; now apply HEj. }
  assert (Em : marked true i (dec m6)
               = with_rank (incr32 (m_rank (dec m6)))
                           (with_uncoded i true (dec m6))).
  { unfold marked, raise_maximum_pivot.
    change (m_maximum_pivot
              (with_uncoded i true
                            (with_rank (incr32 (m_rank (dec m6))) (dec m6))))
      with (m_maximum_pivot (dec m6)).
    destruct (Nat.ltb_spec (m_maximum_pivot (dec m6)) i); [lia|].
    reflexivity. }
  rewrite Em in Sm; apply shape_with_rank in Sm.
  change (dec (on_dec (with_uncoded i true) m6))
    with (with_uncoded i true (dec m6)).
  split; [exact Sm|].
  simpl.
  repeat split; auto; try congruence.
  - apply (Hrow j H).
  - apply (Hrow j H).
Qed.

(** The re-absorption inside [swap_decode]: [po] is the pivot the
    displaced row settles at, if it finds one. *)
Lemma swap_reabsorb (d : decoder) (sd : list elem) (i : nat) :
  invariant d -> i < symbols d -> length sd = symbol_length d ->
  nth i (m_coded d) false = true ->
  let m4 := decode_with_vector (Slot i) (Slot i) (displaced sd i d) in
  let E := elementary (symbols d) i in
  exists po : option nat,
    working (Slot i) (Slot i) m4
    /\ caller_data m4 = sd
    /\ symbols (dec m4) = symbols d
    /\ symbol_length (dec m4) = symbol_length d
    /\ m_uncoded (dec m4) = m_uncoded d
    /\ length (m_coded (dec m4)) = length (m_coded d)
    /\ i <= m_maximum_pivot (dec m4)
    /\ (forall j, symbol_exists j (dec m4)
                  = if Nat.eq_dec j i then false
                    else match po with
                         | Some p => if Nat.eq_dec j p then true
                                     else symbol_exists j d
                         | None => symbol_exists j d
                         end)
    /\ match po with
       | None => m_rank (dec m4) = m_rank d
       | Some p => p < symbols d /\ p <> i /\ symbol_exists p d = false
                   /\ m_rank (dec m4) = incr32 (m_rank d)
       end
    /\ (forall j, j < symbols d -> symbol_exists j (dec m4) = true ->
                  coefficient i (vector j (dec m4)) = czero)
    /\ (forall Q, closed Q -> Q E sd -> rows_in Q d -> rows_in Q (dec m4))
    /\ (forall Qv, closed (fun x _ => Qv x) -> vanishing (symbols d) Qv ->
                   Qv E -> rows_in (fun x _ => Qv x) (dec m4) ->
                   rows_in (fun x _ => Qv x) d)
    /\ (po = None ->
        forall Qv, closed (fun x _ => Qv x) -> vanishing (symbols d) Qv ->
                   rows_in (fun x _ => Qv x) d -> Qv E)
    /\ (forall j, j <> i -> symbol_exists j (dec m4) = false ->
                  vector j (dec m4) = vector j d
                  /\ symbol j (dec m4) = symbol j d).
Proof.
  intros Inv Hi Hsd Hic m4 E.
  assert (Hm4 : m4 = decode_with_vector (Slot i) (Slot i)
                                        (displaced sd i d))
    by reflexivity.
  clearbody m4.
  pose proof (inv_shape _ Inv) as S.
  pose proof (coded_exists _ _ Hic) as Hie.
  destruct (displaced_spec d sd i Inv Hi Hsd Hic)
    as (W3 & Hh3 & He3 & Hrow3 & Hcd3 & Ev3 & HA & Hcol3).
  fold E in Ev3, HA.
  set (m3 := displaced sd i d) in *.
  destruct (header_inv _ _ Hh3) as (Hk3 & Hl3 & Hr3 & Hmp3 & Hu3 & Hc3).
  change (symbols (with_coded i false d)) with (symbols d) in Hk3.
  change (symbol_length (with_coded i false d)) with (symbol_length d) in Hl3.
  change (m_rank (with_coded i false d)) with (m_rank d) in Hr3.
  change (m_maximum_pivot (with_coded i false d))
    with (m_maximum_pivot d) in Hmp3.
  change (m_uncoded (with_coded i false d)) with (m_uncoded d) in Hu3.
  change (m_coded (with_coded i false d))
    with (set_nth i false (m_coded d)) in Hc3.
  pose proof (work_shape _ _ _ W3) as S3.
  set (Qi := fun (x : list coeff) (_ : list elem) =>
               length x = symbols d /\ coefficient i x = czero).
  assert (HQi : closed Qi) by (now apply closed_column).
  assert (Hall3 : all_in Qi (Slot i) (Slot i) m3).
  { split.
    - rewrite load_id_slot; split.
      + rewrite <- Hk3; apply (shape_vector_length _ S3); lia.
      + apply Hcol3; auto.
    - intros j Hj Ho; split.
      + rewrite <- Hk3; apply (shape_vector_length _ S3); lia.
      + apply Hcol3; auto; lia. }
  assert (Hcd4 : caller_data m4 = sd).
  { rewrite Hm4; now rewrite caller_data_decode_with_vector. }
  pose proof (shape_below_maximum _ S i Hi Hie) as Himp.
  destruct (decode_with_vector_spec (Slot i) (Slot i) m3 W3)
    as [(W4 & B4 & HQ4 & Hz4)
       |(p & Hp & Hpe3 & S4 & Hh4 & Hex4 & HQ4 & Hfv & Hfs)];
    rewrite <- Hm4 in *.
  - (* the displaced row reduces to nothing *)
    exists None.
    destruct (header_inv _ _ (bo_header _ _ _ _ B4))
      as (Hk4 & Hl4 & Hr4 & Hmp4 & Hu4 & Hc4).
    assert (He4 : forall j, symbol_exists j (dec m4)
                            = if Nat.eq_dec j i then false
                              else symbol_exists j d).
    { intros j; rewrite <- He3.
      apply (buffers_only_exists _ _ _ _ j B4). }
    assert (Hrow4 : forall j, j <> i -> vector j (dec m4) = vector j d
                                        /\ symbol j (dec m4) = symbol j d).
    { intros j Hj; destruct (Hrow3 j Hj) as (<- & <-); split.
      - apply (bo_vector _ _ _ _ B4); congruence.
      - apply (bo_symbol _ _ _ _ B4); congruence. }
    assert (Hvan4 : forall Qv, vanishing (symbols d) Qv ->
                               Qv (load_id (Slot i) m4)).
    { intros Qv Hvan; apply Hvan.
      - rewrite (work_id_length _ _ _ W4); congruence.
      - now rewrite <- Hk3. }
    split; [exact W4|]. split; [exact Hcd4|].
    split; [congruence|]. split; [congruence|]. split; [congruence|].
    split; [rewrite Hc4, Hc3; apply length_set_nth|].
    split; [lia|]. split; [exact He4|]. split; [congruence|].
    split; [|split; [|split; [|split]]].
    + intros j Hj Ho.
      apply (HQ4 Qi HQi) in Hall3; destruct Hall3 as (_ & Hr).
      apply Hr; auto; lia.
    + intros Q HcQ HE Hrows.
      apply (HA Q HcQ HE), (HQ4 Q HcQ) in Hrows; apply Hrows.
    + intros Qv HcQ Hvan HE Hrows.
      apply (HA _ HcQ HE), (HQ4 _ HcQ).
      split; [now apply Hvan4|exact Hrows].
    + intros _ Qv HcQ Hvan Hrows.
      assert (Hall4 : all_in (fun x _ => Qv x) (Slot i) (Slot i) m4).
      { split; [now apply Hvan4|].
        intros j Hj Ho; rewrite He4 in Ho.
        destruct (Nat.eq_dec j i) as [|Hne]; [discriminate|].
        destruct (Hrow4 j Hne) as (-> & _); apply Hrows; auto; lia. }
      apply (HQ4 _ HcQ) in Hall4; destruct Hall4 as (HX & _).
      rewrite load_id_slot, Ev3 in HX.
      assert (HE : E = multiply_subtract_id
                         (vector i d)
                         (multiply_subtract_id (vector i d) E cone) cone).
      { assert (Hlv : length (vector i d) = symbols d) by (now apply S).
        assert (HlE : length E = symbols d) by apply length_elementary.
        apply (row_ext (symbols d)); auto.
        - now rewrite length_multiply_subtract_id.
        - intros j Hj.
          rewrite !coefficient_multiply_subtract;
            rewrite ?length_multiply_subtract_id; try lia.
          ring. }
      rewrite HE.
      apply (HcQ (vector i d) [] _ [] cone); [apply Hrows; auto|exact HX].
    + intros j Hj _; now apply Hrow4.
  - (* the displaced row settles at a new pivot *)
    exists (Some p).
    destruct (header_inv _ _ Hh4) as (Hk4 & Hl4 & Hr4 & Hmp4 & Hu4 & Hc4).
    destruct (marked_symbols false p (dec m3))
      as (Hkm & Hlm & Hrm & Hmpm & _).
    destruct (marked_flags false p (dec m3)) as (Hum & Hcm).
    rewrite Hkm in Hk4; rewrite Hlm in Hl4; rewrite Hrm in Hr4.
    rewrite Hmpm in Hmp4; rewrite Hum in Hu4; rewrite Hcm in Hc4.
    assert (Hrows4 : rows_in Qi (dec m4)) by (now apply (HQ4 Qi HQi)).
    assert (Hpi : p <> i).
    { intros ->.
      destruct (Hrows4 i) as (_ & H0); [lia| |].
      - rewrite Hex4; destruct (Nat.eq_dec i i); congruence.
      - rewrite (shape_pivot _ S4) in H0.
        + now apply one_neq_zero.
        + lia.
        + rewrite Hex4; destruct (Nat.eq_dec i i); congruence. }
    assert (He4 : forall j, symbol_exists j (dec m4)
                            = if Nat.eq_dec j i then false
                              else if Nat.eq_dec j p then true
                                   else symbol_exists j d).
    { intros j; rewrite Hex4, He3.
      destruct (Nat.eq_dec j p), (Nat.eq_dec j i); auto; congruence. }
    assert (Hie4 : symbol_exists i (dec m4) = false).
    { rewrite He4; destruct (Nat.eq_dec i i); congruence. }
    split.
    { constructor.
      - exact S4.
      - split; [lia|exact Hie4].
      - split; [lia|exact Hie4].
      - rewrite load_id_slot; apply (shape_vector_length _ S4); lia.
      - rewrite load_data_slot; apply (shape_symbol_length _ S4); lia. }
    split; [exact Hcd4|].
    split; [congruence|]. split; [congruence|]. split; [congruence|].
    split; [rewrite Hc4, Hc3, !length_set_nth; reflexivity|].
    split; [lia|]. split; [exact He4|].
    split.
    { repeat split; auto; try lia; try congruence.
      rewrite He3 in Hpe3.
      destruct (Nat.eq_dec p i); [contradiction|exact Hpe3]. }
    split; [|split; [|split; [|split]]].
    + intros j Hj Ho; apply Hrows4; auto; lia.
    + intros Q HcQ HE Hrows.
      apply (HQ4 Q HcQ), (HA Q HcQ HE), Hrows.
    + intros Qv HcQ Hvan HE Hrows.
      apply (HA _ HcQ HE), (HQ4 _ HcQ), Hrows.
    + discriminate.
    + intros j Hj Ho.
      assert (Hjp : j <> p).
      { intros ->; rewrite Hex4 in Ho.
        destruct (Nat.eq_dec p p); congruence. }
      assert (Hc3j : nth j (m_coded (dec m3)) false = false).
      { rewrite Hex4 in Ho.
        destruct (Nat.eq_dec j p); [contradiction|].
        now apply exists_false in Ho. }
      destruct (Hrow3 j Hj) as (<- & <-); split.
      * apply Hfv; auto; congruence.
      * apply Hfs; auto; congruence.
Qed.

Lemma decode_raw_swap (d : decoder) (sd : list elem) (i : nat) :
  invariant d -> i < symbols d -> length sd = symbol_length d ->
  nth i (m_coded d) false = true ->
  absorbed (elementary (symbols d) i) sd (Some i) d (decode_raw sd i d)
  /\ nth i (m_uncoded (decode_raw sd i d)) false = true
  /\ nth i (m_coded (decode_raw sd i d)) false = false
  /\ vector i (decode_raw sd i d) = elementary (symbols d) i
  /\ symbol i (decode_raw sd i d) = sd.
Proof.
  intros Inv Hi Hsd Hic.
  pose proof (inv_shape _ Inv) as S.
  pose proof (coded_not_uncoded d i S Hi Hic) as Hiu.
  pose proof (coded_exists _ _ Hic) as Hie.
  unfold decode_raw; rewrite Hiu, Hic, swap_decode_eq; cbv zeta.
  destruct (swap_reabsorb d sd i Inv Hi Hsd Hic)
    as (po & W4 & Hcd4 & Hk4 & Hl4 & Hu4 & Hcl4 & Hmp4 & He4 & Hpo & Hcol4
        & Hfwd & Hrev & Hnone & Hframe).
  set (m4 := decode_with_vector (Slot i) (Slot i) (displaced sd i d)) in *.
  destruct (swap_tail m4 sd i W4 Hcd4)
    as (S' & Hk' & Hl' & Hr' & Hu' & Hc' & Ev' & Es' & Hrow');
    [congruence|exact Hmp4|intros j Hj; apply Hcol4; lia|].
  set (d' := dec (on_dec (with_uncoded i true)
                         (store_uncoded_symbol
                            Caller i
                            (store_id (Slot i)
                                      (fill_n (vector i (dec m4))
                                              (vector_length (dec m4)) czero)
                                      m4)))) in *.
  set (E := elementary (symbols d) i).
  rewrite Hk4 in Ev'; fold E in Ev'.
  pose proof (shape_uncoded_length _ S) as Hulen.
  assert (Hui' : nth i (m_uncoded d') false = true).
  { rewrite Hu', Hu4; apply nth_set_nth_eq; lia. }
  assert (Hci' : nth i (m_coded d') false = false).
  { rewrite Hc'.
    specialize (He4 i); destruct (Nat.eq_dec i i); [|congruence].
    now apply exists_false in He4. }
  assert (Hex : forall j, symbol_exists j d'
                          = match po with
                            | Some p => if Nat.eq_dec j p then true
                                        else symbol_exists j d
                            | None => symbol_exists j d
                            end).
  { intros j; destruct (Nat.eq_dec j i) as [->|Hne].
    - rewrite (uncoded_exists _ _ Hui').
      destruct po as [p|]; auto.
      destruct (Nat.eq_dec i p); auto.
    - specialize (He4 j); destruct (Nat.eq_dec j i); [contradiction|].
      rewrite <- He4; unfold symbol_exists.
      rewrite Hc', Hu', nth_set_nth_ne by auto; reflexivity. }
  assert (Hfr : forall j, j < symbols d -> symbol_exists j d' = false ->
                          vector j d' = vector j d
                          /\ symbol j d' = symbol j d).
  { intros j Hj Ho.
    assert (Hne : j <> i).
    { intros ->; rewrite (uncoded_exists _ _ Hui') in Ho; discriminate. }
    destruct (Hrow' j Hne) as (-> & ->); apply Hframe; auto.
    rewrite <- Ho; unfold symbol_exists.
    rewrite Hc', Hu', nth_set_nth_ne by auto; reflexivity. }
  assert (Hrows : forall (Q : list coeff -> list elem -> Prop),
             Q E sd -> rows_in Q (dec m4) -> rows_in Q d').
  { intros Q HE H4 j Hj Ho.
    destruct (Nat.eq_dec j i) as [->|Hne]; [now rewrite Ev', Es'|].
    destruct (Hrow' j Hne) as (-> & ->); apply H4; [lia|].
    rewrite <- Ho; unfold symbol_exists.
    rewrite Hc', Hu', nth_set_nth_ne by auto; reflexivity. }
  assert (Hrows' : forall (Q : list coeff -> list elem -> Prop),
             rows_in Q d' -> Q E sd /\ rows_in Q (dec m4)).
  { intros Q H'; split.
    - rewrite <- Ev', <- Es'; apply H'; [lia|].
      now apply uncoded_exists.
    - intros j Hj Ho.
      assert (Hne : j <> i).
      { intros ->; specialize (He4 i).
        destruct (Nat.eq_dec i i); congruence. }
      destruct (Hrow' j Hne) as (<- & <-); apply H'; [lia|].
      rewrite <- Ho; unfold symbol_exists.
      rewrite Hc', Hu', nth_set_nth_ne by auto; reflexivity. }
  assert (Hrank : rank_counts d'
                  /\ (m_rank d' = (m_rank d + 1)%N
                      \/ (m_rank d' = m_rank d /\ po = None))).
  { destruct po as [p|].
    - destruct Hpo as (Hp & Hpi & Hpe & Hr4).
      destruct (rank_step d d' p S (inv_rank _ Inv)) as (Hrc & Hr1); auto;
        congruence.
    - split; [|right; split; congruence].
      unfold rank_counts, count_occupied.
      rewrite Hr', Hpo, (inv_rank _ Inv), Hk', Hk4.
      unfold count_occupied; f_equal.
      apply count_ext; intros j _; now rewrite Hex. }
  destruct Hrank as (Hrc & Hrk).
  split; [|auto].
  constructor.
  - constructor.
    + exact S'.
    + exact Hrc.
    + rewrite Hc', Hcl4, Hu', length_set_nth, Hu4; apply Inv.
    + intros j Hj Ho; rewrite Hk', Hk4 in *.
      destruct (Hfr j Hj Ho) as (-> & _); apply Inv; auto.
      rewrite Hex in Ho; destruct po as [p|]; auto.
      destruct (Nat.eq_dec j p); congruence.
  - congruence.
  - congruence.
  - now rewrite Hu', length_set_nth, Hu4.
  - destruct Hrk as [Hrk|[Hrk Hn]];
      [now left|right; split; [exact Hrk|exact (Hnone Hn)]].
  - intros Q HcQ Hr0 HE; apply Hrows; auto.
  - intros Qv HcQ Hvan Hr0.
    destruct (Hrows' _ Hr0) as (HE & Hr4); split; auto.
  - intros j Ho; rewrite Hex; destruct po as [p|]; auto.
    destruct (Nat.eq_dec j p); auto.
  - intros j Hj; rewrite Hu', Hu4.
    destruct (Nat.eqb_spec j i) as [->|Hne].
    + rewrite nth_set_nth_eq by lia; now rewrite orb_true_r.
    + rewrite nth_set_nth_ne by auto; now rewrite orb_false_r.
  - exact Hfr.
Qed.

(** ** Every reachable state satisfies the invariant *)

Lemma decode_raw_absorbed (d : decoder) (sd : list elem) (i : nat) :
  invariant d -> i < symbols d -> length sd = symbol_length d ->
  absorbed (elementary (symbols d) i) sd (Some i) d (decode_raw sd i d).
Proof.
  intros Inv Hi Hsd.
  destruct (nth i (m_uncoded d) false) eqn:Hu.
  - destruct (decode_raw_uncoded d sd i Inv Hi Hu) as (-> & H); exact H.
  - destruct (nth i (m_coded d) false) eqn:Hc.
    + now apply decode_raw_swap.
    + apply decode_raw_empty; auto.
      unfold symbol_exists; now rewrite Hu, Hc.
Qed.

Lemma absorb_absorbed (d : decoder) (p : packet) :
  invariant d -> fits d p ->
  absorbed (packet_id (symbols d) p) (packet_data p) (raw_index p) d
           (absorb d p).
Proof.
  intros Inv Hp; destruct p as [sd i|sd sv]; destruct Hp as (H1 & H2).
  - now apply decode_raw_absorbed.
  - now apply decode_absorbed.
Qed.

Lemma reachable_invariant (d : decoder) : reachable d -> invariant d.
Proof.
  induction 1 as [kmax lmax k len Hk Hle H32|d k len _ IH Hk Hle
                 |d sd sv _ IH Hsd Hsv|d sd i _ IH Hi Hsd].
  - destruct (construct_lengths kmax lmax) as (Hu & Hc).
    apply initialize_invariant; try congruence; try lia.
  - apply initialize_invariant; auto; apply IH.
  - now apply decode_absorbed.
  - now apply decode_raw_absorbed.
Qed.


(** * The claims *)

(** C2 (rank invariant).  After every public operation ([initialize],
    [decode], [decode_raw], the swap path of [decode_raw] included,
    whether or not its re-absorption finds a pivot), that is in every
    reachable state, [rank] is the number of slots [i] with [uncoded[i]]
    or [coded[i]] set. *)
Theorem rank_counts_occupied (d : decoder) :
  reachable d -> rank d = N.of_nat (count_occupied d).
Proof. intros H; apply reachable_invariant in H; apply H. Qed.

(** C5, as amended.  Whenever the decoder has reached [rank == k] (so
    [is_complete] returns true), every slot [i] in [0,k) is occupied:
    [uncoded[i]] or [coded[i]] is set. *)
Theorem complete_all_occupied (d : decoder) (i : nat) :
  reachable d -> is_complete d = true -> i < symbols d ->
  nth i (m_uncoded d) false = true \/ nth i (m_coded d) false = true.
Proof.
  intros H Hc Hi; apply reachable_invariant in H.
  unfold is_complete in Hc; apply N.eqb_eq in Hc.
  rewrite (inv_rank _ H) in Hc; apply Nat2N.inj in Hc.
  pose proof (count_full _ 0 (symbols d) Hc i) as Ho.
  cbv beta in Ho; unfold symbol_exists in Ho.
  apply orb_true_iff in Ho; [tauto|lia].
Qed.


(** C10 (blank rows).  After [initialize] and after every [decode] or
    [decode_raw], that is in every reachable state, every unoccupied slot
    has an all-zero coefficient row; the raw path relies on it, because
    [store_uncoded_symbol] leaves the row as it finds it but for the
    coefficient at column [i], which it sets to one. *)
Theorem unoccupied_rows_blank (d : decoder) (sd : list elem) (i j : nat) :
  reachable d -> i < symbols d -> j < symbols d ->
  nth i (m_uncoded d) false = false -> nth i (m_coded d) false = false ->
  coefficient j (vector i d) = czero
  /\ vector i (dec (store_uncoded_symbol Caller i (mkMemory d sd [])))
     = set_coefficient i (vector i d) cone.
Proof.
  intros H Hi Hj Hu Hc; apply reachable_invariant in H; split.
  - apply (inv_blank _ H); auto.
    unfold symbol_exists; now rewrite Hu, Hc.
  - unfold store_uncoded_symbol.
    rewrite vector_store_data.
    apply (load_id_store_id (Slot i)).
    simpl; rewrite !length_set_nth.
    rewrite (shape_vector_storage _ (inv_shape _ H)).
    now rewrite (shape_symbol_storage _ (inv_shape _ H)).
Qed.

(** C9 (no inversion of zero).  In every call of the coded-packet
    algorithm, on the caller's buffers or on the stored row the swap path
    re-absorbs, binary field or not: when forward substitution returns a
    pivot, the assertions of [normalize] hold there, its pivot
    coefficient is not zero, and [invert] returns its inverse. *)
Theorem normalize_never_inverts_zero (data id : buffer) (m m1 : memory)
        (p : nat) :
  forward_substitute_to_pivot data id m = (m1, Some p) ->
  normalize_asserts id p m1 = true
  /\ coefficient p (load_id id m1) <> czero
  /\ cmul (invert (coefficient p (load_id id m1)))
          (coefficient p (load_id id m1)) = cone.
Proof.
  intros Hf.
  pose proof (forward_substitute_to_pivot_any data id m) as H.
  rewrite Hf in H; destruct H as (Hh & Hp & Hc & He).
  destruct (header_inv _ _ Hh) as (Hk & _).
  destruct (exists_false _ _ He) as (Hcd & Hun).
  pose proof (proj1 (nonzero_true _) Hc) as Hne.
  split; [|split; [exact Hne|now apply invert_l]].
  unfold normalize_asserts; rewrite Hk, Hcd, Hun, Hc.
  destruct (Nat.ltb_spec p (symbols (dec m))); [reflexivity|lia].
Qed.

(** ** Vectors in the span of the stored rows *)

Lemma own_combination_closed (d : decoder) :
  closed (fun x (_ : list elem) => own_combination d x).
Proof.
  intros x s y e c [Hx Hxt] [Hy Hyt]; split.
  - now rewrite length_multiply_subtract_id.
  - intros t Ht; rewrite coefficient_multiply_subtract by lia.
    rewrite (Hxt t Ht), (Hyt t Ht); unfold stored_combination.
    rewrite <- csum_mulsub; apply csum_ext; intros l Hl.
    change (nth l (multiply_subtract_id x y c) czero)
      with (coefficient l (multiply_subtract_id x y c)).
    rewrite coefficient_multiply_subtract by lia.
    unfold coefficient; destruct (symbol_exists l d); ring.
Qed.

Lemma own_combination_rows (d : decoder) :
  shape d -> rows_in (fun x (_ : list elem) => own_combination d x) d.
Proof.
  intros S j Hj Ho; split; [now apply S|].
  intros t Ht; unfold stored_combination.
  rewrite (csum_single (symbols d) j) by
    (auto; intros l Hl Hlj; destruct (symbol_exists l d) eqn:Hol; auto;
     change (nth l (vector j d) czero) with (coefficient l (vector j d));
     rewrite (shape_reduced _ S j l) by auto; ring).
  rewrite Ho.
  change (nth j (vector j d) czero) with (coefficient j (vector j d)).
  rewrite (shape_pivot _ S) by auto; ring.
Qed.

Lemma own_combination_span (d : decoder) (v : list coeff) :
  shape d -> length v = symbols d -> in_stored_span d v ->
  own_combination d v.
Proof.
  intros S Hv [a Ha]; split; auto.
  intros t Ht; rewrite (Ha t Ht); unfold stored_combination.
  apply csum_ext; intros l Hl.
  destruct (symbol_exists l d) eqn:Hol; auto.
  f_equal.
  change (nth l v czero) with (coefficient l v).
  rewrite (Ha l Hl); unfold stored_combination.
  rewrite (csum_single (symbols d) l); auto.
  - rewrite Hol, (shape_pivot _ S) by auto; ring.
  - intros i Hi Hil; destruct (symbol_exists i d) eqn:Hoi; auto.
    rewrite (shape_reduced _ S i l) by auto; ring.
Qed.

(** A vector that is its own combination and vanishes at the occupied
    columns vanishes. *)
Lemma own_combination_zero (d : decoder) (x : list coeff) (t : nat) :
  own_combination d x ->
  (forall l, l < symbols d -> symbol_exists l d = true ->
             coefficient l x = czero \/ coefficient t (vector l d) = czero) ->
  t < symbols d -> coefficient t x = czero.
Proof.
  intros [_ Hx] Hz Ht; rewrite (Hx t Ht); unfold stored_combination.
  apply csum_zero; intros l Hl.
  destruct (symbol_exists l d) eqn:Hol; auto.
  change (nth l x czero) with (coefficient l x).
  destruct (Hz l Hl Hol) as [-> | ->]; ring.
Qed.

(** C4 (a dependent packet changes nothing).  For every reachable
    decoder state and every coded packet whose coefficient vector lies in
    the span of the rows currently stored, [decode] returns with the
    decoder (rank, maximum pivot, both bitsets and all stored rows)
    unchanged; only the caller's buffers are transformed. *)
Theorem dependent_packet_ignored (d : decoder) (sd : list elem)
        (sv : list coeff) :
  reachable d -> length sd = symbol_length d -> length sv = symbols d ->
  in_stored_span d sv ->
  decode sd sv d = d.
Proof.
  intros H Hsd Hsv Hspan; apply reachable_invariant in H.
  pose proof (inv_shape _ H) as S.
  destruct (decode_absorbed d sd sv H Hsd Hsv)
    as (A & [E|(p & Hp & Hpe & Hpe' & _)]); auto.
  exfalso.
  pose proof (inv_shape _ (ab_invariant _ _ _ _ _ A)) as S'.
  pose proof (ab_symbols _ _ _ _ _ A) as Hk.
  assert (Hrows : rows_in (fun x (_ : list elem) => own_combination d x)
                          (decode sd sv d)).
  { apply (ab_forward _ _ _ _ _ A).
    - apply own_combination_closed.
    - now apply own_combination_rows.
    - now apply own_combination_span. }
  assert (Hz : coefficient p (vector p (decode sd sv d)) = czero).
  { apply (own_combination_zero d); auto.
    - apply Hrows; [lia|exact Hpe'].
    - intros l Hl Hol; left.
      apply (shape_reduced _ S'); auto; try lia.
      + intros ->; congruence.
      + now apply (ab_monotone _ _ _ _ _ A). }
  rewrite (shape_pivot _ S') in Hz; [|lia|exact Hpe'].
  now apply one_neq_zero.
Qed.

(** ** Payloads follow their coefficient rows *)




(** ** Combinations of the packets absorbed so far *)


Lemma spanned_by_closed (n : nat) (vs : list (list coeff)) :
  closed (fun x (_ : list elem) => spanned_by n vs x).
Proof.
  intros x s y e c (Hx & cx & Hcx & Hxt) (Hy & cy & Hcy & Hyt); split.
  - now rewrite length_multiply_subtract_id.
  - exists (multiply_subtract_id cx cy c); split.
    + now rewrite length_multiply_subtract_id.
    + intros t Ht; rewrite coefficient_multiply_subtract by lia.
      rewrite (Hxt t Ht), (Hyt t Ht); unfold combination.
      rewrite <- csum_mulsub; apply csum_ext; intros i Hi.
      change (nth i (multiply_subtract_id cx cy c) czero)
        with (coefficient i (multiply_subtract_id cx cy c)).
      rewrite coefficient_multiply_subtract by lia.
      unfold coefficient; ring.
Qed.






(** ** Decoding a block *)


Lemma rows_in_blank (Q : list coeff -> list elem -> Prop) (n len : nat)
      (d : decoder) :
  n <= length (m_uncoded d) -> n <= length (m_coded d) ->
  rows_in Q (initialize n len d).
Proof.
  intros Hu Hc j Hj Ho; simpl in Hj.
  rewrite initialize_exists in Ho by auto; discriminate.
Qed.



(** ** The reduced form is unique *)

Lemma own_combination_vanishing (d : decoder) :
  vanishing (symbols d) (own_combination d).
Proof.
  intros x Hx Hz; split; auto.
  intros t Ht; rewrite (Hz t Ht); unfold stored_combination.
  symmetry; apply csum_zero; intros l Hl.
  destruct (symbol_exists l d); auto.
  change (nth l x czero) with (coefficient l x).
  rewrite (Hz l Hl); ring.
Qed.












End Facts.

(** * The two fields are fields *)

Lemma gf2_laws : FieldLaws GF2.ops.
Proof.
  constructor; simpl.
  - exact BoolTheory.
  - discriminate.
  - intros [|] H; [reflexivity|now contradiction H].
  - intros [|]; split; intros H; try reflexivity; discriminate.
  - intros _ [|]; auto.
  - intros; now rewrite N.lxor_assoc.
  - apply N.lxor_comm.
  - apply N.lxor_0_l.
  - reflexivity.
  - reflexivity.
  - reflexivity.
  - intros [|] [|] x; reflexivity.
  - intros [|] [|] x; simpl;
      rewrite ?N.lxor_nilpotent, ?N.lxor_0_r, ?N.lxor_0_l; reflexivity.
  - intros [|] x y; reflexivity.
Qed.

Lemma gf5_laws : FieldLaws GF5.ops.
Proof.
  constructor; simpl.
  - constructor; repeat (intros []); reflexivity.
  - discriminate.
  - intros [] H; try reflexivity; now contradiction H.
  - intros []; split; intros H; try reflexivity; discriminate.
  - discriminate.
  - repeat (intros []); reflexivity.
  - repeat (intros []); reflexivity.
  - intros []; reflexivity.
  - repeat (intros []); reflexivity.
  - intros []; reflexivity.
  - intros []; reflexivity.
  - repeat (intros []); reflexivity.
  - repeat (intros []); reflexivity.
  - repeat (intros []); reflexivity.
Qed.

(** * The scenarios *)

Lemma fresh_reachable : reachable Scenario.fresh.
Proof. apply (reach_construct 2 2 2 2); [lia|lia|reflexivity]. Qed.

Lemma coded_first_reachable : reachable Scenario.coded_first.
Proof.
  apply reach_decode; [apply fresh_reachable|reflexivity|reflexivity].
Qed.





Lemma two_coded_reachable : reachable Scenario.two_coded.
Proof.
  apply reach_decode; [apply coded_first_reachable|reflexivity|reflexivity].
Qed.






(** C2 at work, after a swap whose displaced row found a pivot. *)
Lemma rank_counts_occupied_witness :
  rank Scenario.then_raw_A = N.of_nat (count_occupied Scenario.then_raw_A).
Proof.
  apply (@rank_counts_occupied GF2.ops gf2_laws).
  apply reach_decode_raw;
    [apply coded_first_reachable|vm_compute; lia|reflexivity].
Defined.



(** C4 at work: [(11, A xor B)] is the sum of the two stored rows. *)
Lemma dependent_packet_ignored_witness :
  @decode GF2.ops Scenario.A_xor_B [true; true] Scenario.two_coded
  = Scenario.two_coded.
Proof.
  apply (@dependent_packet_ignored GF2.ops gf2_laws).
  - apply two_coded_reachable.
  - reflexivity.
  - reflexivity.
  - exists [true; true].
    intros [|[|j]] Hj; [reflexivity|reflexivity|simpl in Hj; lia].
Defined.

(** C5 as stated fails: two coded packets complete the block and leave
    both slots coded. *)
Lemma complete_counterexample :
  reachable Scenario.two_coded
  /\ is_complete Scenario.two_coded = true
  /\ ~ (forall i, i < symbols Scenario.two_coded ->
                  nth i (m_uncoded Scenario.two_coded) false = true).
Proof.
  split; [apply two_coded_reachable|split; [reflexivity|]].
  intros H; specialize (H 0); vm_compute in H.
  assert (H' : false = true) by (apply H; lia); discriminate.
Qed.

(** C5 as amended, at work on that state. *)
Lemma complete_all_occupied_witness :
  nth 0 (m_uncoded Scenario.two_coded) false = true
  \/ nth 0 (m_coded Scenario.two_coded) false = true.
Proof.
  apply (@complete_all_occupied GF2.ops gf2_laws Scenario.two_coded 0).
  - apply two_coded_reachable.
  - reflexivity.
  - vm_compute; lia.
Defined.

(** C6 as stated fails: after the coded packet and the raw symbol [B],
    slot 0 is still marked coded. *)
Lemma scenario_swap_counterexample :
  ~ (m_uncoded Scenario.then_raw_B = [true; true]
     /\ symbol 0 Scenario.then_raw_B = Scenario.A
     /\ symbol 1 Scenario.then_raw_B = Scenario.B).
Proof. intros [H _]; vm_compute in H; discriminate. Qed.

(** C6, as amended.  In GF(2) with [k = 2], [m = 2] and source symbols
    [A = AA BB], [B = CC DD]: after absorbing the coded packet
    [(sv = 11, sd = A xor B = 66 66)] and then calling [decode_raw] with [B]
    at index 1, the decoder has [uncoded = [F,T]], [coded = [T,F]],
    [S[0] = A] and [S[1] = B]; slot 0 stays marked coded, with the reduced
    row [V[0] = 10]. *)
Theorem scenario_swap :
  m_uncoded Scenario.then_raw_B = [false; true]
  /\ m_coded Scenario.then_raw_B = [true; false]
  /\ symbol 0 Scenario.then_raw_B = Scenario.A
  /\ symbol 1 Scenario.then_raw_B = Scenario.B
  /\ vector 0 Scenario.then_raw_B = [true; false]
  /\ vector 1 Scenario.then_raw_B = [false; true]
  /\ rank Scenario.then_raw_B = 2%N.
Proof. repeat split. Qed.



(** C9 at work over GF(5): with symbol 0 stored, the packet [(2, 3)] is
    reduced to [(0, 3)] and finds pivot 1, whose coefficient 3 has the
    inverse 2. *)
Lemma normalize_never_inverts_zero_witness :
  let m :=
    mkMemory (@decode_raw GF5.ops [GF5.R4] 0 Scenario.fresh5)
             [GF5.R1] [GF5.R2; GF5.R3] in
  let m1 := fst (forward_substitute_to_pivot Caller Caller m) in
  normalize_asserts Caller 1 m1 = true
  /\ coefficient 1 (load_id Caller m1) <> czero
  /\ cmul (invert (coefficient 1 (load_id Caller m1)))
          (coefficient 1 (load_id Caller m1)) = cone.
Proof.
  apply (@normalize_never_inverts_zero
           GF5.ops gf5_laws Caller Caller
           (mkMemory (@decode_raw GF5.ops [GF5.R4] 0 Scenario.fresh5)
                     [GF5.R1] [GF5.R2; GF5.R3])).
  reflexivity.
Defined.

(** C10 at work: slot 1 is empty after the coded packet. *)
Lemma unoccupied_rows_blank_witness :
  coefficient 0 (vector 1 Scenario.coded_first) = czero
  /\ vector 1 (dec (store_uncoded_symbol
                      Caller 1 (mkMemory Scenario.coded_first Scenario.B [])))
     = set_coefficient 1 (vector 1 Scenario.coded_first) cone.
Proof.
  apply (@unoccupied_rows_blank GF2.ops gf2_laws Scenario.coded_first
                                Scenario.B 1 0).
  - apply coded_first_reachable.
  - vm_compute; lia.
  - vm_compute; lia.
  - reflexivity.
  - reflexivity.
Defined.

From Stdlib Require Import Permutation.

Section MoreFacts.
Context {O : FieldOps} {L : FieldLaws O}.
Add Ring coeff_More : coeff_ring.

(** * Further properties of the decoder *)

Lemma count_all (f : nat -> bool) (a n : nat) :
  (forall i, a <= i < a + n -> f i = true) ->
  length (filter f (seq a n)) = n.
Proof.
  revert a; induction n as [|n IH]; intros a H; [reflexivity|].
  simpl; rewrite (H a) by lia; simpl; f_equal.
  apply IH; intros i Hi; apply H; lia.
Qed.



(** X1 (reduced echelon form).  In every reachable state the row of an
    occupied slot [i] has [symbols] coefficients, a one at its own column
    [i], zeros at every column before [i] and zeros at the column of every
    other occupied slot. *)
Theorem occupied_rows_reduced (d : decoder) (i : nat) :
  reachable d -> i < symbols d -> symbol_exists i d = true ->
  length (vector i d) = symbols d
  /\ coefficient i (vector i d) = cone
  /\ (forall j, j < i -> coefficient j (vector i d) = czero)
  /\ (forall j, j < symbols d -> j <> i -> symbol_exists j d = true ->
                coefficient j (vector i d) = czero).
Proof.
  intros H Hi Ho; apply reachable_invariant in H.
  pose proof (inv_shape _ H) as S.
  split; [now apply S|split; [now apply S|split]].
  - intros j Hj; now apply (shape_lower _ S).
  - intros j Hj Hne Hoj; now apply (shape_reduced _ S).
Qed.

(** X2 (uncoded rows).  In every reachable state a slot marked uncoded is
    not marked coded, and its coefficient row is the elementary row: it has
    no non-zero element outside the pivot position, which is what lets
    [backward_substitute] skip it. *)
Theorem uncoded_rows_elementary (d : decoder) (i : nat) :
  reachable d -> i < symbols d -> nth i (m_uncoded d) false = true ->
  vector i d = elementary (symbols d) i
  /\ nth i (m_coded d) false = false.
Proof.
  intros H Hi Hu; apply reachable_invariant in H.
  pose proof (inv_shape _ H) as S.
  split; [now apply uncoded_row|now apply S].
Qed.

(** X3 (maximum pivot).  In every reachable state [m_maximum_pivot] is an
    index of the block and no occupied slot lies above it: the loops that
    run up to [m_maximum_pivot] stay inside the block and miss no stored
    row. *)
Theorem maximum_pivot_bounds (d : decoder) (i : nat) :
  reachable d ->
  m_maximum_pivot d < symbols d
  /\ (i < symbols d -> symbol_exists i d = true -> i <= m_maximum_pivot d).
Proof.
  intros H; apply reachable_invariant in H.
  pose proof (inv_shape _ H) as S.
  split; [apply S|intros Hi Ho; now apply S].
Qed.

(** X4 (rank and completion).  In every reachable state the rank is at
    most [symbols], which is below [2 ^ 32], so the 32-bit counter never
    wraps; and [is_complete] holds exactly when every slot of the block is
    occupied. *)
Theorem complete_iff_all_occupied (d : decoder) :
  reachable d ->
  (rank d <= N.of_nat (symbols d) < 2 ^ 32)%N
  /\ (is_complete d = true
      <-> forall i, i < symbols d -> symbol_exists i d = true).
Proof.
  intros H; apply reachable_invariant in H.
  pose proof (inv_rank _ H) as Hr; unfold rank_counts in Hr.
  unfold rank, is_complete; rewrite Hr; split.
  - pose proof (count_le (fun i => symbol_exists i d) 0 (symbols d)).
    pose proof (shape_uint32 _ (inv_shape _ H)).
    unfold count_occupied; lia.
  - rewrite N.eqb_eq; split.
    + intros Hc i Hi; apply Nat2N.inj in Hc.
      apply (count_full _ 0 (symbols d) Hc i); lia.
    + intros Hall; f_equal; apply count_all.
      intros i Hi; apply Hall; lia.
Qed.

(** X5 (monotone absorption).  A call of [decode] or [decode_raw] within
    its preconditions keeps the dimensions of the block, raises the rank by
    one or not at all, and frees no slot: an occupied slot stays occupied
    and an uncoded slot stays uncoded. *)
Theorem absorption_monotone (d : decoder) (p : packet) (j : nat) :
  reachable d -> fits d p ->
  symbols (absorb d p) = symbols d
  /\ symbol_length (absorb d p) = symbol_length d
  /\ (rank (absorb d p) = rank d \/ rank (absorb d p) = (rank d + 1)%N)
  /\ (symbol_exists j d = true -> symbol_exists j (absorb d p) = true)
  /\ (j < symbols d -> nth j (m_uncoded d) false = true ->
      nth j (m_uncoded (absorb d p)) false = true).
Proof.
  intros H Hfit; apply reachable_invariant in H.
  pose proof (absorb_absorbed d p H Hfit) as A.
  split; [apply A|split; [apply A|split; [|split]]].
  - unfold rank; destruct (ab_rank _ _ _ _ _ A) as [Hr|[Hr _]]; auto.
  - apply A.
  - intros Hj Hu; rewrite (ab_uncoded _ _ _ _ _ A) by auto.
    now rewrite Hu.
Qed.




(** X9 (innovative packets).  [decode] raises the rank exactly when the
    coefficient vector it is given lies outside the span of the stored
    rows, and leaves the decoder as it was exactly when the vector lies
    inside. *)
Theorem rank_increases_iff_innovative (d : decoder) (sd : list elem)
        (sv : list coeff) :
  reachable d -> length sd = symbol_length d -> length sv = symbols d ->
  (rank (decode sd sv d) = (rank d + 1)%N <-> ~ in_stored_span d sv)
  /\ (decode sd sv d = d <-> in_stored_span d sv).
Proof.
  intros H Hsd Hsv; apply reachable_invariant in H.
  pose proof (inv_shape _ H) as S.
  destruct (decode_absorbed d sd sv H Hsd Hsv) as (A & Hcase).
  assert (Hin : m_rank (decode sd sv d) = m_rank d -> in_stored_span d sv).
  { intros Hr; destruct (ab_rank _ _ _ _ _ A) as [Hr'|[_ HQ]]; [lia|].
    destruct (HQ (own_combination d)) as (_ & Hown).
    - apply own_combination_closed.
    - apply own_combination_vanishing.
    - now apply own_combination_rows.
    - exists sv; exact Hown. }
  assert (Hout : in_stored_span d sv -> decode sd sv d = d).
  { intros Hspan.
    destruct Hcase as [E|(p & Hp & Hpe & Hpe' & _)]; auto.
    exfalso.
    pose proof (inv_shape _ (ab_invariant _ _ _ _ _ A)) as S'.
    pose proof (ab_symbols _ _ _ _ _ A) as Hk.
    assert (Hrows : rows_in (fun x (_ : list elem) => own_combination d x)
                            (decode sd sv d)).
    { apply (ab_forward _ _ _ _ _ A).
      - apply own_combination_closed.
      - now apply own_combination_rows.
      - now apply own_combination_span. }
    assert (Hz : coefficient p (vector p (decode sd sv d)) = czero).
    { apply (own_combination_zero d); auto.
      - apply Hrows; [lia|exact Hpe'].
      - intros l Hl Hol; left.
        apply (shape_reduced _ S'); auto; try lia.
        + intros ->; congruence.
        + now apply (ab_monotone _ _ _ _ _ A). }
    rewrite (shape_pivot _ S') in Hz; [|lia|exact Hpe'].
    now apply one_neq_zero. }
  unfold rank; split; split.
  - intros Hr Hspan; rewrite (Hout Hspan) in Hr; lia.
  - intros Hn; destruct (ab_rank _ _ _ _ _ A) as [Hr|[Hr _]]; auto.
    now contradiction Hn; apply Hin.
  - intros E; apply Hin; now rewrite E.
  - exact Hout.
Qed.


(** ** Rows of uncoded slots *)






(** ** The steps of the coded path *)

(** The memories [decode_with_vector] passes from step to step when a
    pivot is found: none of the steps before [store_coded_symbol] writes
    the header of the decoder. *)
Lemma decode_with_vector_steps (data id : buffer) (m : memory) :
  working data id m ->
  match forward_substitute_to_pivot data id m with
  | (m1, None) => True
  | (m1, Some p) =>
      let m2 := if is_binary then m1 else normalize data id p m1 in
      let m3 := forward_substitute_from_pivot data id p m2 in
      let m4 := backward_substitute data id p m3 in
      p < symbols (dec m) /\ symbol_exists p (dec m) = false
      /\ nonzero (coefficient p (load_id id m1)) = true
      /\ header (dec m1) = header (dec m)
      /\ header (dec m2) = header (dec m)
      /\ header (dec m3) = header (dec m)
      /\ header (dec m4) = header (dec m)
      /\ working data id m4
  end.
Proof.
  intros W.
  pose proof (forward_substitute_to_pivot_spec data id m W) as H1.
  destruct (forward_substitute_to_pivot data id m) as [m1 [p|]]; [|exact I].
  destruct H1 as (W1 & B1 & HQ1 & Hp & Hpe1 & Hc1 & Hlow1).
  rewrite (normalize_always data id p m1 Hc1); cbv zeta.
  destruct (header_inv _ _ (bo_header _ _ _ _ B1)) as (Hk1 & _).
  destruct (normalize_spec data id p m1 W1 Hc1 Hlow1)
    as (W2 & B2 & HQ2 & Hp2 & Hlow2).
  set (m2 := normalize data id p m1) in *.
  destruct (forward_substitute_from_pivot_spec data id p m2 W2 Hp2 Hlow2)
    as (W3 & B3 & HQ3 & Hp3 & Hlow3 & Hocc3).
  set (m3 := forward_substitute_from_pivot data id p m2) in *.
  pose proof (buffers_only_trans _ _ _ _ _ B1 B2) as B12.
  pose proof (buffers_only_trans _ _ _ _ _ B12 B3) as B13.
  destruct (header_inv _ _ (bo_header _ _ _ _ B13)) as (Hk3 & _).
  assert (He3 : forall j, symbol_exists j (dec m3) = symbol_exists j (dec m))
    by (intros; eapply buffers_only_exists; eauto).
  assert (Hpe : symbol_exists p (dec m) = false).
  { now rewrite <- (buffers_only_exists _ _ _ _ p B1). }
  assert (Hocc3' : forall j, j < symbols (dec m3) ->
                             symbol_exists j (dec m3) = true ->
                             coefficient j (load_id id m3) = czero).
  { intros j Hj Ho.
    destruct (header_inv _ _ (bo_header _ _ _ _ B3)) as (Hk23 & _).
    apply Hocc3; [lia| |].
    - intros ->; rewrite He3 in Ho; congruence.
    - now rewrite <- (buffers_only_exists _ _ _ _ j B3). }
  destruct (backward_substitute_spec data id p m3 W3)
    as (W4 & R4 & _); auto; [lia|now rewrite He3|].
  split; [exact Hp|split; [exact Hpe|split; [exact Hc1|]]].
  split; [apply B1|split; [apply B12|split; [apply B13|split]]].
  - rewrite (ro_header _ _ _ _ R4); apply B13.
  - exact W4.
Qed.

Lemma indices_assert (m : memory) (a n : nat) :
  a + n <= symbols (dec m) ->
  forallb (fun i => index_asserts i m) (seq a n) = true.
Proof.
  intros H; apply forallb_forall; intros i Hi.
  apply in_seq in Hi; apply Nat.ltb_lt; lia.
Qed.

(** The assertions of the steps after [normalize], on a memory with the
    header of a decoder in shape and a free slot [p]. *)
Lemma step_asserts_hold (p : nat) (m m' : memory) :
  shape (dec m) -> p < symbols (dec m) -> symbol_exists p (dec m) = false ->
  header (dec m') = header (dec m) ->
  forward_substitute_from_pivot_asserts p m' = true
  /\ backward_substitute_asserts p m' = true
  /\ store_coded_symbol_asserts p m' = true
  /\ store_uncoded_symbol_asserts p m' = true.
Proof.
  intros S Hp Hpe Hh.
  pose proof (shape_maximum_pivot _ S) as Hmp.
  destruct (exists_false _ _ Hpe) as (Hcd & Hun).
  destruct (header_inv _ _ Hh) as (Hk & _ & _ & Hm & Hu & Hd).
  unfold forward_substitute_from_pivot_asserts, backward_substitute_asserts,
    store_coded_symbol_asserts, store_uncoded_symbol_asserts.
  rewrite !indices_assert by (rewrite Hk, Hm; lia).
  unfold index_asserts; rewrite Hk, Hu, Hd, Hcd, Hun.
  apply Nat.ltb_lt in Hp; rewrite Hp; auto.
Qed.

Lemma decode_with_vector_asserts_hold (data id : buffer) (m : memory) :
  working data id m -> decode_with_vector_asserts data id m = true.
Proof.
  intros W; unfold decode_with_vector_asserts.
  pose proof (decode_with_vector_steps data id m W) as H.
  destruct (forward_substitute_to_pivot data id m) as [m1 [p|]];
    [|reflexivity].
  cbv zeta in H.
  destruct H as (Hp & Hpe & Hc1 & H1 & H2 & H3 & H4 & _).
  pose proof (work_shape _ _ _ W) as S.
  destruct (exists_false _ _ Hpe) as (Hcd & Hun).
  destruct (header_inv _ _ H1) as (Hk1 & _ & _ & _ & Hu1 & Hd1).
  destruct (step_asserts_hold p m _ S Hp Hpe H2) as (-> & _).
  destruct (step_asserts_hold p m _ S Hp Hpe H3) as (_ & -> & _).
  destruct (step_asserts_hold p m _ S Hp Hpe H4) as (_ & _ & -> & _).
  unfold normalize_asserts.
  rewrite Hk1, Hu1, Hd1, Hcd, Hun, Hc1.
  apply Nat.ltb_lt in Hp; rewrite Hp; simpl.
  now rewrite orb_true_r.
Qed.

(** X13 (the assertions of the coded path).  On a reachable decoder and
    buffers of the block's dimensions, no assertion that [decode] meets
    fires: those of [normalize] (entered outside the binary field only),
    of [forward_substitute_from_pivot], of [backward_substitute] and of
    [store_coded_symbol] all hold on the memory each is entered with, and
    so does [assert(index < symbols())] of [symbol_exists] and [symbol] at
    every index the two loops that run up to [m_maximum_pivot] can hand
    them. *)
Theorem decode_asserts_hold (d : decoder) (sd : list elem)
        (sv : list coeff) :
  reachable d -> length sd = symbol_length d -> length sv = symbols d ->
  decode_with_vector_asserts Caller Caller (mkMemory d sd sv) = true.
Proof.
  intros H Hsd Hsv; apply reachable_invariant in H.
  apply decode_with_vector_asserts_hold, working_caller; auto.
  apply H.
Qed.

(** X14 (the assertions of the raw path).  On a reachable decoder, an
    index of the block and a payload of the block's length, no assertion
    that [decode_raw] meets fires: on the swap path the slot is coded and
    not uncoded and its pivot coefficient is one, the re-absorption of the
    displaced row meets every assertion of the coded path, those of
    [symbol_exists] and [symbol] in its loops among them, and the slot is
    unmarked when [store_uncoded_symbol] is entered; on the path of an
    empty slot the assertions of [store_uncoded_symbol] and of
    [backward_substitute] and its loop hold. *)
Theorem decode_raw_asserts_hold (d : decoder) (sd : list elem) (i : nat) :
  reachable d -> i < symbols d -> length sd = symbol_length d ->
  decode_raw_asserts sd i d.
Proof.
  intros H Hi Hsd; apply reachable_invariant in H.
  pose proof (inv_shape _ H) as S.
  unfold decode_raw_asserts.
  destruct (nth i (m_uncoded d) false) eqn:Hiu; [exact I|].
  destruct (nth i (m_coded d) false) eqn:Hic; cbv zeta.
  - unfold swap_decode_asserts.
    change (dec (mkMemory d sd [])) with d.
    split; [exact Hic|split; [exact Hiu|split; [|split]]].
    + now apply Nat.ltb_lt.
    + apply (shape_pivot _ S); auto; now apply coded_exists.
    + cbv zeta.
      change (store_data
                (Slot i)
                (subtract_data
                   (symbol i
                      (dec (store_id
                              (Slot i)
                              (set_coefficient
                                 i
                                 (vector
                                    i (dec (on_dec (with_coded i false)
                                                   (mkMemory d sd []))))
                                 czero)
                              (on_dec (with_coded i false)
                                      (mkMemory d sd [])))))
                   (load_data
                      Caller
                      (store_id
                         (Slot i)
                         (set_coefficient
                            i
                            (vector
                               i (dec (on_dec (with_coded i false)
                                              (mkMemory d sd []))))
                            czero)
                         (on_dec (with_coded i false) (mkMemory d sd [])))))
                (store_id
                   (Slot i)
                   (set_coefficient
                      i
                      (vector i (dec (on_dec (with_coded i false)
                                             (mkMemory d sd []))))
                      czero)
                   (on_dec (with_coded i false) (mkMemory d sd []))))
        with (displaced sd i d).
      destruct (displaced_spec d sd i H Hi Hsd Hic) as (W3 & _).
      split; [now apply decode_with_vector_asserts_hold|].
      destruct (swap_reabsorb d sd i H Hi Hsd Hic)
        as (po & W4 & _ & Hk4 & _ & _ & _ & _ & He4 & _).
      specialize (He4 i); destruct (Nat.eq_dec i i); [|congruence].
      apply (step_asserts_hold
               i (decode_with_vector (Slot i) (Slot i) (displaced sd i d)));
        [apply W4|lia|exact He4|apply header_store_id].
  - assert (Hie : symbol_exists i d = false)
      by (unfold symbol_exists; now rewrite Hiu, Hic).
    split.
    + now apply (step_asserts_hold i (mkMemory d sd [])).
    + now apply (step_asserts_hold i (mkMemory d sd [])).
Qed.

(** X15 (the caller's buffers).  [decode] works in place on the buffers it
    is given.  When it finds no pivot the decoder is as before and the
    caller's coefficient buffer is left holding zeros; when it finds the
    pivot [p] the caller's two buffers are left holding the very row that
    slot [p] now stores, reduced and normalised, not the packet that came
    in. *)
Theorem decode_caller_buffers (d : decoder) (sd : list elem)
        (sv : list coeff) :
  reachable d -> length sd = symbol_length d -> length sv = symbols d ->
  (dec (decode_mem sd sv d) = d
   /\ zero_row (symbols d) (caller_id (decode_mem sd sv d)))
  \/ (exists p,
         p < symbols d /\ symbol_exists p d = false
         /\ nth p (m_coded (decode sd sv d)) false = true
         /\ vector p (decode sd sv d) = caller_id (decode_mem sd sv d)
         /\ symbol p (decode sd sv d) = caller_data (decode_mem sd sv d)).
Proof.
  intros H Hsd Hsv; apply reachable_invariant in H.
  pose proof (inv_shape _ H) as S.
  pose proof (working_caller d sd sv S Hsd Hsv) as W.
  unfold decode, decode_mem; rewrite decode_with_vector_eq.
  pose proof (forward_substitute_to_pivot_spec Caller Caller _ W) as H1.
  pose proof (decode_with_vector_steps Caller Caller _ W) as H2.
  destruct (forward_substitute_to_pivot Caller Caller (mkMemory d sd sv))
    as [m1 [p|]].
  - right; exists p.
    destruct H1 as (_ & _ & _ & _ & _ & Hc1 & _).
    rewrite (normalize_always Caller Caller p m1 Hc1) in H2.
    cbv zeta in H2.
    destruct H2 as (Hp & Hpe & _ & _ & _ & _ & H4 & W4).
    set (m4 := backward_substitute
                 Caller Caller p
                 (forward_substitute_from_pivot
                    Caller Caller p (normalize Caller Caller p m1))) in *.
    change (dec (mkMemory d sd sv)) with d in *.
    destruct (header_inv _ _ H4) as (Hk4 & _).
    pose proof (work_shape _ _ _ W4) as S4.
    assert (Hp4 : p < symbols (dec m4)) by lia.
    assert (Hpe4 : symbol_exists p (dec m4) = false).
    { now rewrite (symbol_exists_header _ _ p H4). }
    rewrite (store_coded_symbol_eq Caller Caller p m4 W4 Hp4).
    assert (W4p : working (Slot p) (Slot p) m4).
    { constructor; simpl; auto.
      - now apply (shape_vector_length _ S4).
      - now apply (shape_symbol_length _ S4). }
    destruct (store_buffers (Slot p) (Slot p) (load_id Caller m4)
                            (load_data Caller m4) m4)
      as (B5 & Ev5 & Es5).
    { eapply working_in_range_id; eauto. }
    { eapply working_in_range_data; eauto. }
    { simpl load_id at 2; rewrite (work_id_length _ _ _ W4).
      symmetry; now apply (shape_vector_length _ S4). }
    { simpl load_data at 2; rewrite (work_data_length _ _ _ W4).
      symmetry; now apply (shape_symbol_length _ S4). }
    set (m5 := store_data (Slot p) (load_data Caller m4)
                          (store_id (Slot p) (load_id Caller m4) m4)) in *.
    change (vector p (dec m5) = caller_id m4) in Ev5.
    change (symbol p (dec m5) = caller_data m4) in Es5.
    change (dec (on_dec (marked false p) m5)) with (marked false p (dec m5)).
    change (caller_id (on_dec (marked false p) m5)) with (caller_id m4).
    change (caller_data (on_dec (marked false p) m5)) with (caller_data m4).
    pose proof (working_buffers_only _ _ _ _ W4p B5) as W5p.
    destruct (header_inv _ _ (bo_header _ _ _ _ B5)) as (Hk5 & _).
    split; [exact Hp|split; [exact Hpe|split; [|split]]].
    + rewrite marked_coded; [|apply W5p|lia].
      destruct (Nat.eq_dec p p); [reflexivity|congruence].
    + now rewrite marked_vector.
    + now rewrite marked_symbol.
  - left; destruct H1 as (W1 & B & _ & Hz); split; [|exact Hz].
    apply decoder_ext.
    + apply B.
    + apply storage_ext; [apply B|].
      intros j; apply (bo_vector _ _ _ _ B); discriminate.
    + apply storage_ext; [apply B|].
      intros j; apply (bo_symbol _ _ _ _ B); discriminate.
Qed.

(** ** Sequences of packets *)

Lemma fits_dimensions (d d' : decoder) (p : packet) :
  symbols d' = symbols d -> symbol_length d' = symbol_length d ->
  fits d p -> fits d' p.
Proof. intros Hk Hl; destruct p; simpl; now rewrite Hk, Hl. Qed.

(** What absorbing the packets [ps], one after the other, makes of the
    decoder. *)
Lemma absorb_all_absorbed (ps : list packet) :
  forall d,
    invariant d -> Forall (fits d) ps ->
    invariant (absorb_all ps d)
    /\ symbols (absorb_all ps d) = symbols d
    /\ symbol_length (absorb_all ps d) = symbol_length d
    /\ (forall Q, closed Q -> rows_in Q d ->
                  Forall (fun p => Q (packet_id (symbols d) p)
                                     (packet_data p)) ps ->
                  rows_in Q (absorb_all ps d))
    /\ (forall Qv, closed (fun x _ => Qv x) -> vanishing (symbols d) Qv ->
                   rows_in (fun x _ => Qv x) (absorb_all ps d) ->
                   rows_in (fun x _ => Qv x) d
                   /\ Forall (fun p => Qv (packet_id (symbols d) p)) ps)
    /\ (forall j, symbol_exists j d = true ->
                  symbol_exists j (absorb_all ps d) = true)
    /\ (forall j, j < symbols d ->
                  nth j (m_uncoded (absorb_all ps d)) false
                  = (nth j (m_uncoded d) false || raw_among j ps))
    /\ (forall j, j < symbols d ->
                  symbol_exists j (absorb_all ps d) = false ->
                  vector j (absorb_all ps d) = vector j d
                  /\ symbol j (absorb_all ps d) = symbol j d).
Proof.
  induction ps as [|p ps IH]; intros d Inv Hfit.
  - simpl; split; [exact Inv|split; [reflexivity|split; [reflexivity|]]].
    split; [auto|split; [auto|split; [auto|split; [|auto]]]].
    intros j Hj; now rewrite orb_false_r.
  - inversion Hfit as [|p' ps' Hp Hps]; subst p' ps'.
    pose proof (absorb_absorbed d p Inv Hp) as A.
    pose proof (ab_symbols _ _ _ _ _ A) as Hk.
    pose proof (ab_symbol_length _ _ _ _ _ A) as Hl.
    assert (Hps' : Forall (fits (absorb d p)) ps).
    { eapply Forall_impl; [|exact Hps].
      intros q; now apply fits_dimensions. }
    destruct (IH (absorb d p) (ab_invariant _ _ _ _ _ A) Hps')
      as (Inv' & Hk' & Hl' & Hfwd & Hrev & Hmon & Hun & Hfr).
    change (absorb_all (p :: ps) d) with (absorb_all ps (absorb d p)).
    rewrite Hk in *.
    split; [exact Inv'|split; [congruence|split; [congruence|]]].
    split; [|split; [|split; [|split]]].
    + intros Q HQ Hrows Hall.
      inversion Hall as [|p' ps' Hq Hqs]; subst p' ps'.
      apply Hfwd; auto.
      apply (ab_forward _ _ _ _ _ A); auto.
    + intros Qv HQ Hvan Hrows.
      destruct (Hrev Qv HQ Hvan Hrows) as (Hrows1 & Hall1).
      destruct (ab_reverse _ _ _ _ _ A Qv HQ Hvan Hrows1) as (Hrows0 & Hq).
      split; [exact Hrows0|now constructor].
    + intros j Ho; apply Hmon; now apply (ab_monotone _ _ _ _ _ A).
    + intros j Hj; rewrite Hun by auto.
      rewrite (ab_uncoded _ _ _ _ _ A) by auto.
      simpl; now rewrite orb_assoc.
    + intros j Hj Ho.
      destruct (Hfr j Hj Ho) as (-> & ->).
      apply (ab_frame _ _ _ _ _ A); auto.
      destruct (symbol_exists j (absorb d p)) eqn:Ho'; auto.
      now rewrite (Hmon j Ho') in Ho.
Qed.




Lemma spanned_by_member (n : nat) (vs : list (list coeff))
      (v : list coeff) :
  In v vs -> length v = n -> spanned_by n vs v.
Proof.
  intros Hin Hv; split; [exact Hv|].
  destruct (In_nth vs v [] Hin) as (i & Hi & Hnth).
  exists (elementary (length vs) i); split; [apply length_elementary|].
  intros t Ht; unfold combination.
  rewrite (csum_single (length vs) i) by
      (auto; intros l Hl Hne;
       change (nth l (elementary (length vs) i) czero)
         with (coefficient l (elementary (length vs) i));
       rewrite coefficient_elementary_ne by auto; ring).
  change (nth i (elementary (length vs) i) czero)
    with (coefficient i (elementary (length vs) i)).
  rewrite coefficient_elementary_eq by auto.
  rewrite Hnth; ring.
Qed.

Lemma length_packet_id (d : decoder) (p : packet) :
  fits d p -> length (packet_id (symbols d) p) = symbols d.
Proof.
  destruct p as [sd i|sd sv]; simpl; [intros _|intros (_ & H); exact H].
  apply length_elementary.
Qed.

(** X17 (the span of what was received).  From a freshly initialised
    decoder, after any sequence of packets: every stored coefficient row
    is a combination of the coefficient vectors received, and every
    coefficient vector received lies in the span of the stored rows.
    Nothing is made up and nothing received is lost, on the swap path
    neither. *)
Theorem stored_span_is_received_span (max_symbols max_symbol_size : nat)
        (n len : nat) (ps : list packet) (p : packet) (j : nat) :
  0 < n -> n <= max_symbols -> (N.of_nat max_symbols < 2 ^ 32)%N ->
  Forall (fits (initialize n len (construct max_symbols max_symbol_size)))
         ps ->
  (In p ps ->
   in_stored_span
     (absorb_all ps (initialize n len
                                (construct max_symbols max_symbol_size)))
     (packet_id n p))
  /\ (j < n ->
      symbol_exists
        j (absorb_all ps (initialize n len
                                     (construct max_symbols
                                                max_symbol_size))) = true ->
      spanned_by
        n (map (packet_id n) ps)
        (vector j (absorb_all ps
                              (initialize n len
                                          (construct max_symbols
                                                     max_symbol_size))))).
Proof.
  intros Hn Hle H32 Hfit.
  destruct (construct_lengths max_symbols max_symbol_size) as (Hu & Hc).
  set (d0 := initialize n len (construct max_symbols max_symbol_size)) in *.
  assert (Inv : invariant d0).
  { apply initialize_invariant; auto; try congruence; lia. }
  destruct (absorb_all_absorbed ps d0 Inv Hfit)
    as (Inv' & Hk' & _ & Hfwd & Hrev & _).
  change (symbols d0) with n in *.
  split.
  - intros Hin.
    destruct (Hrev (own_combination (absorb_all ps d0))) as (_ & Hall).
    + apply own_combination_closed.
    + rewrite <- Hk'; apply own_combination_vanishing.
    + apply own_combination_rows, Inv'.
    + rewrite Forall_forall in Hall.
      exists (packet_id n p); apply (Hall p Hin).
  - intros Hj Ho.
    apply (Hfwd (fun x _ => spanned_by n (map (packet_id n) ps) x)); auto.
    + apply spanned_by_closed.
    + apply rows_in_blank; lia.
    + rewrite Forall_forall in *; intros q Hq.
      apply spanned_by_member; [now apply in_map|].
      apply (length_packet_id d0), Hfit, Hq.
    + now rewrite Hk'.
Qed.

(** X18 (a complete decoder stays complete).  Once [is_complete] holds,
    every further packet leaves the rank at [symbols]: a coded packet
    leaves the whole decoder as it was, and a raw symbol can do no more
    than turn its slot from coded to uncoded. *)
Theorem complete_stays_complete (d : decoder) (p : packet) :
  reachable d -> is_complete d = true -> fits d p ->
  is_complete (absorb d p) = true
  /\ rank (absorb d p) = rank d
  /\ match p with
     | Coded symbol_data symbol_id => decode symbol_data symbol_id d = d
     | Raw symbol_data symbol_index =>
         nth symbol_index (m_uncoded (decode_raw symbol_data symbol_index d))
             false = true
     end.
Proof.
  intros H Hc Hfit; apply reachable_invariant in H.
  pose proof (absorb_absorbed d p H Hfit) as A.
  pose proof (ab_invariant _ _ _ _ _ A) as Inv'.
  pose proof (ab_symbols _ _ _ _ _ A) as Hk.
  unfold is_complete in Hc; apply N.eqb_eq in Hc.
  assert (Hle : (m_rank (absorb d p) <= N.of_nat (symbols d))%N).
  { rewrite (inv_rank _ Inv'), <- Hk.
    pose proof (count_le (fun i => symbol_exists i (absorb d p)) 0
                         (symbols (absorb d p))).
    unfold count_occupied; lia. }
  assert (Hr : m_rank (absorb d p) = m_rank d).
  { destruct (ab_rank _ _ _ _ _ A) as [Hr|[Hr _]]; [lia|exact Hr]. }
  unfold is_complete, rank; rewrite Hr, Hk.
  split; [now apply N.eqb_eq|split; [reflexivity|]].
  destruct p as [sd i|sd sv]; simpl in *.
  - destruct Hfit as (Hi & _).
    rewrite (ab_uncoded _ _ _ _ _ A) by auto.
    now rewrite Nat.eqb_refl, orb_true_r.
  - destruct Hfit as (Hsd & Hsv).
    destruct (decode_absorbed d sd sv H Hsd Hsv)
      as (_ & [E|(q & _ & _ & _ & Hq)]); [exact E|lia].
Qed.
End MoreFacts.

(** * The deep symbol storage *)

Lemma mul32_small (a b : N) :
  (a * b < 2 ^ 32)%N -> DeepSymbolStorage.mul32 a b = (a * b)%N.
Proof. intros H; unfold DeepSymbolStorage.mul32; now apply N.mod_small. Qed.

Lemma window_repeat (offset size : N) (n : nat) (b : Byte.byte) :
  (offset + size <= N.of_nat n)%N ->
  DeepSymbolStorage.window offset size (repeat b n)
  = repeat b (N.to_nat size).
Proof.
  intros H; unfold DeepSymbolStorage.window.
  replace n with (N.to_nat offset + (n - N.to_nat offset)) by lia.
  rewrite repeat_app, skipn_app, repeat_length, Nat.sub_diag.
  rewrite skipn_all2 by (rewrite repeat_length; lia).
  simpl.
  replace (n - N.to_nat offset)
    with (N.to_nat size + (n - N.to_nat offset - N.to_nat size)) by lia.
  rewrite repeat_app, firstn_app, repeat_length, Nat.sub_diag.
  rewrite firstn_all2 by (rewrite repeat_length; lia).
  simpl; now rewrite app_nil_r.
Qed.

Lemma map_const_repeat {A B : Type} (b : B) (l : list A) :
  map (fun _ => b) l = repeat b (length l).
Proof. induction l; simpl; congruence. Qed.

Lemma length_resize (n : nat) (v : Byte.byte) (l : list Byte.byte) :
  length (DeepSymbolStorage.resize n v l) = n.
Proof.
  unfold DeepSymbolStorage.resize.
  rewrite length_app, length_firstn, repeat_length; lia.
Qed.

Lemma window_app_l (offset size : N) (a x : list Byte.byte) :
  (offset + size <= N.of_nat (length a))%N ->
  DeepSymbolStorage.window offset size (a ++ x)
  = DeepSymbolStorage.window offset size a.
Proof.
  intros H; unfold DeepSymbolStorage.window.
  rewrite skipn_app, firstn_app, length_skipn.
  replace (N.to_nat size - (length a - N.to_nat offset)) with 0 by lia.
  now rewrite firstn_O, app_nil_r.
Qed.

Lemma window_app_r (offset size : N) (a x : list Byte.byte) :
  (N.of_nat (length a) <= offset)%N ->
  DeepSymbolStorage.window offset size (a ++ x)
  = DeepSymbolStorage.window (offset - N.of_nat (length a)) size x.
Proof.
  intros H; unfold DeepSymbolStorage.window.
  rewrite skipn_app, skipn_all2 by lia; simpl.
  do 2 f_equal; lia.
Qed.

Lemma window_all (size : N) (a x : list Byte.byte) :
  N.of_nat (length a) = size -> DeepSymbolStorage.window 0 size (a ++ x) = a.
Proof.
  intros H; unfold DeepSymbolStorage.window; simpl.
  rewrite firstn_app, firstn_all2 by lia.
  replace (N.to_nat size - length a) with 0 by lia.
  now rewrite firstn_O, app_nil_r.
Qed.

(** A buffer split around the bytes a write at [offset] replaces. *)
Lemma written_split (offset : nat) (src data : list Byte.byte) :
  offset + length src <= length data ->
  data = firstn offset data
         ++ firstn (length src) (skipn offset data)
         ++ skipn (length src) (skipn offset data).
Proof. intros H; now rewrite firstn_skipn, firstn_skipn. Qed.

(** *** The buffer as rows

    What relates the one buffer of the storage to the rows the decoder
    is modelled on: when the buffer holds the block, the dimensions being
    within what was constructed and the products not wrapping, the zeroed
    buffer reads as rows of zeros, and a write through [symbol(index)]
    replaces row [index] and leaves every other row. *)

Lemma nth_map_seq {B : Type} (f : nat -> B) (n j : nat) (d : B) :
  j < n -> nth j (map f (seq 0 n)) d = f j.
Proof.
  intros Hj.
  rewrite (nth_indep _ d (f 0)) by (now rewrite length_map, length_seq).
  rewrite map_nth, seq_nth; auto.
Qed.

Lemma rows_initialize (symbols' symbol_size' : N)
      (s : DeepSymbolStorage.storage) :
  DeepSymbolStorage.holds_block
    (DeepSymbolStorage.initialize symbols' symbol_size' s) ->
  DeepSymbolStorage.rows
    (DeepSymbolStorage.initialize symbols' symbol_size' s)
  = repeat (repeat Byte.x00 (N.to_nat symbol_size')) (N.to_nat symbols').
Proof.
  intros (Hfit & H32); simpl in Hfit, H32; rewrite length_map in Hfit, H32.
  unfold DeepSymbolStorage.rows; simpl.
  apply (nth_ext _ _ [] []).
  - now rewrite length_map, length_seq, repeat_length.
  - rewrite length_map, length_seq; intros j Hj.
    rewrite nth_map_seq, nth_repeat_lt by auto.
    rewrite mul32_small by nia.
    rewrite map_const_repeat; apply window_repeat; nia.
Qed.

Lemma rows_write_symbol (s : DeepSymbolStorage.storage) (index : N)
      (bytes : list Byte.byte) :
  DeepSymbolStorage.holds_block s ->
  (index < DeepSymbolStorage.symbols s)%N ->
  N.of_nat (length bytes) = DeepSymbolStorage.symbol_size s ->
  DeepSymbolStorage.holds_block
    (DeepSymbolStorage.write_symbol index bytes s)
  /\ DeepSymbolStorage.rows (DeepSymbolStorage.write_symbol index bytes s)
     = set_nth (N.to_nat index) bytes (DeepSymbolStorage.rows s).
Proof.
  destruct s as [k sz data]; simpl.
  intros (Hfit & H32) Hi Hlen; simpl in Hfit, H32.
  assert (Hoff : (index * sz + sz <= k * sz)%N) by nia.
  unfold DeepSymbolStorage.write_symbol, DeepSymbolStorage.holds_block,
    DeepSymbolStorage.rows; simpl.
  rewrite mul32_small by nia.
  set (off := N.to_nat (index * sz)).
  assert (Hfirst : length (firstn off data) = off)
    by (rewrite length_firstn; lia).
  assert (Hsize : length (firstn off data
                          ++ bytes ++ skipn (off + length bytes) data)
                  = length data).
  { rewrite !length_app, Hfirst, length_skipn; lia. }
  rewrite Hsize; split; [split; assumption|].
  apply (nth_ext _ _ [] []).
  - now rewrite length_set_nth, !length_map.
  - rewrite length_map, length_seq; intros j Hj.
    rewrite nth_map_seq by auto.
    assert (Hjo : (N.of_nat j * sz + sz <= k * sz)%N) by nia.
    rewrite mul32_small by nia.
    destruct (Nat.eq_dec j (N.to_nat index)) as [->|Hne].
    + rewrite nth_set_nth_eq by (now rewrite length_map, length_seq).
      rewrite N2Nat.id, window_app_r by lia.
      replace (index * sz - N.of_nat (length (firstn off data)))%N
        with 0%N by lia.
      now apply window_all.
    + rewrite nth_set_nth_ne by auto.
      rewrite nth_map_seq by auto.
      rewrite mul32_small by nia.
      replace (off + length bytes) with (length bytes + off) by lia.
      rewrite <- skipn_skipn.
      symmetry; rewrite (written_split off bytes data) at 1 by lia.
      destruct (N.lt_ge_cases (N.of_nat j) index) as [Hlt|Hge].
      * assert ((N.of_nat j * sz + sz <= index * sz)%N) by nia.
        rewrite !window_app_l by lia; reflexivity.
      * assert (Hji : (index < N.of_nat j)%N) by lia.
        assert ((index * sz + sz <= N.of_nat j * sz)%N) by nia.
        rewrite !(window_app_r _ _ (firstn off data)) by lia.
        rewrite !window_app_r
          by (rewrite ?length_firstn, ?length_skipn; lia).
        f_equal.
        rewrite (length_firstn (length bytes)), length_skipn; lia.
Qed.

(** The dimensions of [reachable_within] are dimensions the buffer
    holds: [construct] passes its assertion, the initialised buffer holds
    the block, and its rows are the rows of zeros the decoder starts
    from. *)
Lemma dimensions_hold_block (max_symbols max_symbol_size : nat)
      (symbols' symbol_size' : nat) (s : DeepSymbolStorage.storage) :
  0 < symbols' -> symbols' <= max_symbols ->
  0 < max_symbol_size -> symbol_size' <= max_symbol_size ->
  (N.of_nat max_symbols * N.of_nat max_symbol_size < 2 ^ 32)%N ->
  exists s1,
    DeepSymbolStorage.construct (N.of_nat max_symbols)
                                (N.of_nat max_symbol_size) s = Some s1
    /\ DeepSymbolStorage.holds_block
         (DeepSymbolStorage.initialize (N.of_nat symbols')
                                       (N.of_nat symbol_size') s1)
    /\ DeepSymbolStorage.rows
         (DeepSymbolStorage.initialize (N.of_nat symbols')
                                       (N.of_nat symbol_size') s1)
       = repeat (repeat Byte.x00 symbol_size') symbols'.
Proof.
  intros Hk Hle Hz Hlz H32.
  unfold DeepSymbolStorage.construct.
  rewrite mul32_small by lia.
  destruct (N.ltb_spec 0 (N.of_nat max_symbols * N.of_nat max_symbol_size))
    as [_|]; [|nia].
  eexists; split; [reflexivity|].
  assert (Hb : DeepSymbolStorage.holds_block
                 (DeepSymbolStorage.initialize
                    (N.of_nat symbols') (N.of_nat symbol_size')
                    (DeepSymbolStorage.mkStorage
                       (DeepSymbolStorage.symbols s)
                       (DeepSymbolStorage.symbol_size s)
                       (DeepSymbolStorage.resize
                          (N.to_nat (N.of_nat max_symbols
                                     * N.of_nat max_symbol_size))
                          Byte.x00 (DeepSymbolStorage.m_data s))))).
  { unfold DeepSymbolStorage.holds_block; simpl.
    rewrite length_map, length_resize; split; nia. }
  split; [exact Hb|].
  rewrite (rows_initialize _ _ _ Hb), !Nat2N.id; reflexivity.
Qed.

Lemma copy_bytes_copies (dest src : list Byte.byte) :
  length src <= length dest ->
  DeepSymbolStorage.copy_bytes dest src = src ++ skipn (length src) dest.
Proof. reflexivity. Qed.

(** X19 (a fresh buffer).  When [max_symbols * max_symbol_size] is
    positive and fits 32 bits, [construct] passes its assertion and
    allocates that many bytes; after [initialize] with dimensions within
    the maxima the buffer holds the block, and [symbol(index)] of every
    index of the block is the offset [index * symbol_size], lies with its
    [symbol_size] bytes inside the buffer, and reads as zeros. *)
Theorem storage_initialized_zero (max_symbols max_symbol_size : N)
        (symbols' symbol_size' index : N) (s : DeepSymbolStorage.storage) :
  (0 < max_symbols * max_symbol_size < 2 ^ 32)%N ->
  (symbols' <= max_symbols)%N -> (symbol_size' <= max_symbol_size)%N ->
  (index < symbols')%N ->
  exists s1,
    DeepSymbolStorage.construct max_symbols max_symbol_size s = Some s1
    /\ N.of_nat (length (DeepSymbolStorage.m_data s1))
       = (max_symbols * max_symbol_size)%N
    /\ DeepSymbolStorage.holds_block
         (DeepSymbolStorage.initialize symbols' symbol_size' s1)
    /\ DeepSymbolStorage.symbol
         index (DeepSymbolStorage.initialize symbols' symbol_size' s1)
       = Some (index * symbol_size')%N
    /\ (index * symbol_size' + symbol_size'
        <= N.of_nat
             (length (DeepSymbolStorage.m_data
                        (DeepSymbolStorage.initialize symbols' symbol_size'
                                                      s1))))%N
    /\ DeepSymbolStorage.read_symbol
         index (DeepSymbolStorage.initialize symbols' symbol_size' s1)
       = Some (repeat Byte.x00 (N.to_nat symbol_size')).
Proof.
  intros Hcap Hk Hz Hi.
  assert (Hmul : (index * symbol_size' + symbol_size'
                  <= max_symbols * max_symbol_size)%N) by nia.
  assert (Hblock : (symbols' * symbol_size'
                    <= max_symbols * max_symbol_size)%N) by nia.
  unfold DeepSymbolStorage.construct.
  rewrite mul32_small by lia.
  destruct (N.ltb_spec 0 (max_symbols * max_symbol_size)) as [_|]; [|lia].
  eexists; split; [reflexivity|].
  simpl DeepSymbolStorage.m_data; rewrite length_resize.
  split; [lia|].
  unfold DeepSymbolStorage.holds_block, DeepSymbolStorage.read_symbol,
    DeepSymbolStorage.symbol; simpl.
  destruct (N.ltb_spec index symbols') as [_|]; [|lia].
  rewrite mul32_small by nia.
  rewrite length_map, length_resize.
  split; [split; lia|split; [reflexivity|split; [lia|]]].
  rewrite map_const_repeat, length_resize.
  f_equal; apply window_repeat; lia.
Qed.

Section CopyFacts.
Variable copy_storage : list Byte.byte -> list Byte.byte -> list Byte.byte.
Hypothesis copy_storage_copies :
  forall dest src,
    length src <= length dest ->
    copy_storage dest src = src ++ skipn (length src) dest.

(** X20 (writing one symbol).  With a [copy_storage] that writes the
    source over the first bytes of the destination, on a buffer that holds
    the block: [set_symbol(index, symbol)] with [symbol_size] bytes and an
    index of the block passes its assertions, keeps the dimensions and the
    size of the buffer, makes [symbol(index)] read as the bytes written, and
    leaves what every other symbol of the block reads as. *)
Theorem set_symbol_read_symbol (s : DeepSymbolStorage.storage)
        (index other : N) (symbol' : list Byte.byte) :
  DeepSymbolStorage.holds_block s ->
  N.of_nat (length symbol') = DeepSymbolStorage.symbol_size s ->
  (index < DeepSymbolStorage.symbols s)%N ->
  exists s',
    DeepSymbolStorage.set_symbol copy_storage index symbol' s = Some s'
    /\ DeepSymbolStorage.symbols s' = DeepSymbolStorage.symbols s
    /\ DeepSymbolStorage.symbol_size s' = DeepSymbolStorage.symbol_size s
    /\ length (DeepSymbolStorage.m_data s')
       = length (DeepSymbolStorage.m_data s)
    /\ DeepSymbolStorage.read_symbol index s' = Some symbol'
    /\ ((other < DeepSymbolStorage.symbols s)%N -> other <> index ->
        DeepSymbolStorage.read_symbol other s'
        = DeepSymbolStorage.read_symbol other s).
Proof.
  destruct s as [k sz data]; simpl.
  intros (Hfit & H32) Hlen Hi; simpl in Hfit, H32.
  unfold DeepSymbolStorage.set_symbol; simpl.
  rewrite Hlen, N.eqb_refl.
  destruct (N.ltb_spec index k) as [_|]; [|lia].
  simpl andb; cbv iota.
  assert (Hoff : (index * sz + sz <= k * sz)%N) by nia.
  rewrite mul32_small by nia.
  set (off := N.to_nat (index * sz)).
  rewrite copy_storage_copies by (rewrite length_skipn; lia).
  eexists; split; [reflexivity|]; simpl.
  split; [reflexivity|split; [reflexivity|]].
  assert (Hfirst : length (firstn off data) = off)
    by (rewrite length_firstn; lia).
  split; [|split].
  - rewrite !length_app, Hfirst, !length_skipn; lia.
  - unfold DeepSymbolStorage.read_symbol, DeepSymbolStorage.symbol; simpl.
    destruct (N.ltb_spec index k) as [_|]; [|lia].
    rewrite mul32_small by nia.
    f_equal.
    rewrite window_app_r by lia.
    replace (index * sz - N.of_nat (length (firstn off data)))%N
      with 0%N by lia.
    now apply window_all.
  - intros Ho Hne.
    unfold DeepSymbolStorage.read_symbol, DeepSymbolStorage.symbol; simpl.
    destruct (N.ltb_spec other k) as [_|]; [|lia].
    rewrite mul32_small by nia.
    f_equal.
    assert (Hoo : (other * sz + sz <= k * sz)%N) by nia.
    rewrite (written_split off symbol' data) at 3 by lia.
    destruct (N.lt_ge_cases other index) as [Hlt|Hge].
    + assert ((other * sz + sz <= index * sz)%N) by nia.
      rewrite !window_app_l by lia; reflexivity.
    + assert ((index * sz + sz <= other * sz)%N) by nia.
      rewrite !(window_app_r _ _ (firstn off data)) by lia.
      rewrite !window_app_r
        by (rewrite ?length_firstn, ?length_skipn; lia).
      f_equal.
      rewrite (length_firstn (length symbol')), length_skipn; lia.
Qed.

(** X21 (writing the block).  With the same [copy_storage], on a buffer
    that holds the block: [set_symbols] with exactly
    [symbols * symbol_size] bytes passes its assertions, keeps the
    dimensions and the size of the buffer, and makes [symbol(index)] of
    every index of the block read as the [symbol_size] bytes of the input
    at [index * symbol_size]. *)
Theorem set_symbols_read_symbol (s : DeepSymbolStorage.storage) (index : N)
        (symbol_storage : list Byte.byte) :
  DeepSymbolStorage.holds_block s ->
  (0 < N.of_nat (length symbol_storage))%N ->
  N.of_nat (length symbol_storage)
  = (DeepSymbolStorage.symbols s * DeepSymbolStorage.symbol_size s)%N ->
  (index < DeepSymbolStorage.symbols s)%N ->
  exists s',
    DeepSymbolStorage.set_symbols copy_storage symbol_storage s = Some s'
    /\ DeepSymbolStorage.symbols s' = DeepSymbolStorage.symbols s
    /\ DeepSymbolStorage.symbol_size s' = DeepSymbolStorage.symbol_size s
    /\ length (DeepSymbolStorage.m_data s')
       = length (DeepSymbolStorage.m_data s)
    /\ DeepSymbolStorage.read_symbol index s'
       = Some (DeepSymbolStorage.window
                 (index * DeepSymbolStorage.symbol_size s)
                 (DeepSymbolStorage.symbol_size s) symbol_storage).
Proof.
  destruct s as [k sz data]; simpl.
  intros (Hfit & H32) Hpos Hlen Hi; simpl in Hfit, H32.
  unfold DeepSymbolStorage.set_symbols; simpl.
  rewrite mul32_small by lia.
  rewrite Hlen, N.eqb_refl.
  destruct (N.ltb_spec 0 (k * sz)) as [_|]; [|lia].
  simpl andb; cbv iota.
  rewrite copy_storage_copies by lia.
  eexists; split; [reflexivity|]; simpl.
  split; [reflexivity|split; [reflexivity|split]].
  - rewrite length_app, length_skipn; lia.
  - unfold DeepSymbolStorage.read_symbol, DeepSymbolStorage.symbol; simpl.
    destruct (N.ltb_spec index k) as [_|]; [|lia].
    rewrite mul32_small by nia.
    f_equal; apply window_app_l; nia.
Qed.
End CopyFacts.

(** * The further properties at work on the scenarios *)

Lemma then_raw_B_reachable : reachable Scenario.then_raw_B.
Proof.
  apply reach_decode_raw;
    [apply coded_first_reachable|vm_compute; lia|reflexivity].
Qed.

Lemma fresh5_reachable : reachable Scenario.fresh5.
Proof. apply (reach_construct 2 1 2 1); [lia|lia|reflexivity]. Qed.








(** X1 at work: row 0 after the coded packet and the raw symbol [B]. *)
Lemma occupied_rows_reduced_witness :
  length (vector 0 Scenario.then_raw_B) = symbols Scenario.then_raw_B
  /\ coefficient 0 (vector 0 Scenario.then_raw_B) = cone
  /\ (forall j, j < 0 -> coefficient j (vector 0 Scenario.then_raw_B) = czero)
  /\ (forall j, j < symbols Scenario.then_raw_B -> j <> 0 ->
                symbol_exists j Scenario.then_raw_B = true ->
                coefficient j (vector 0 Scenario.then_raw_B) = czero).
Proof.
  apply (@occupied_rows_reduced GF2.ops gf2_laws Scenario.then_raw_B 0).
  - apply then_raw_B_reachable.
  - vm_compute; lia.
  - reflexivity.
Defined.

(** X2 at work: slot 1 holds the raw symbol [B]. *)
Lemma uncoded_rows_elementary_witness :
  vector 1 Scenario.then_raw_B
  = @elementary GF2.ops (symbols Scenario.then_raw_B) 1
  /\ nth 1 (m_coded Scenario.then_raw_B) false = false.
Proof.
  apply (@uncoded_rows_elementary GF2.ops gf2_laws Scenario.then_raw_B 1).
  - apply then_raw_B_reachable.
  - vm_compute; lia.
  - reflexivity.
Defined.

(** X3 at work. *)
Lemma maximum_pivot_bounds_witness :
  m_maximum_pivot Scenario.then_raw_B < symbols Scenario.then_raw_B
  /\ (1 < symbols Scenario.then_raw_B ->
      symbol_exists 1 Scenario.then_raw_B = true ->
      1 <= m_maximum_pivot Scenario.then_raw_B).
Proof.
  apply (@maximum_pivot_bounds GF2.ops gf2_laws Scenario.then_raw_B 1).
  apply then_raw_B_reachable.
Defined.

(** X4 at work: two coded packets complete the block. *)
Lemma complete_iff_all_occupied_witness :
  (rank Scenario.two_coded <= N.of_nat (symbols Scenario.two_coded)
   < 2 ^ 32)%N
  /\ (is_complete Scenario.two_coded = true
      <-> forall i, i < symbols Scenario.two_coded ->
                    symbol_exists i Scenario.two_coded = true).
Proof.
  apply (@complete_iff_all_occupied GF2.ops gf2_laws Scenario.two_coded).
  apply two_coded_reachable.
Defined.

(** X5 at work on a swap. *)
Lemma absorption_monotone_witness :
  symbols (absorb Scenario.coded_first (@Raw GF2.ops Scenario.A 0))
  = symbols Scenario.coded_first
  /\ symbol_length (absorb Scenario.coded_first (@Raw GF2.ops Scenario.A 0))
     = symbol_length Scenario.coded_first
  /\ (rank (absorb Scenario.coded_first (@Raw GF2.ops Scenario.A 0))
      = rank Scenario.coded_first
      \/ rank (absorb Scenario.coded_first (@Raw GF2.ops Scenario.A 0))
         = (rank Scenario.coded_first + 1)%N)
  /\ (symbol_exists 0 Scenario.coded_first = true ->
      symbol_exists 0 (absorb Scenario.coded_first
                              (@Raw GF2.ops Scenario.A 0)) = true)
  /\ (0 < symbols Scenario.coded_first ->
      nth 0 (m_uncoded Scenario.coded_first) false = true ->
      nth 0 (m_uncoded (absorb Scenario.coded_first
                               (@Raw GF2.ops Scenario.A 0))) false = true).
Proof.
  apply (@absorption_monotone GF2.ops gf2_laws Scenario.coded_first
                              (@Raw GF2.ops Scenario.A 0) 0).
  - apply coded_first_reachable.
  - split; [vm_compute; lia|reflexivity].
Defined.




(** X9 at work: [(01, B)] after [(11, A xor B)]. *)
Lemma rank_increases_iff_innovative_witness :
  (rank (@decode GF2.ops Scenario.B [false; true] Scenario.coded_first)
   = (rank Scenario.coded_first + 1)%N
   <-> ~ in_stored_span Scenario.coded_first [false; true])
  /\ (@decode GF2.ops Scenario.B [false; true] Scenario.coded_first
      = Scenario.coded_first
      <-> in_stored_span Scenario.coded_first [false; true]).
Proof.
  apply (@rank_increases_iff_innovative GF2.ops gf2_laws).
  - apply coded_first_reachable.
  - reflexivity.
  - reflexivity.
Defined.




(** X13 at work over GF(5), where [normalize] is entered. *)
Lemma decode_asserts_hold_witness :
  decode_with_vector_asserts
    Caller Caller
    (@mkMemory GF5.ops Scenario.fresh5 [GF5.R1] [GF5.R2; GF5.R3]) = true.
Proof.
  apply (@decode_asserts_hold GF5.ops gf5_laws).
  - apply fresh5_reachable.
  - reflexivity.
  - reflexivity.
Defined.

(** X14 at work on the swap path. *)
Lemma decode_raw_asserts_hold_witness :
  @decode_raw_asserts GF2.ops Scenario.A 0 Scenario.coded_first.
Proof.
  apply (@decode_raw_asserts_hold GF2.ops gf2_laws).
  - apply coded_first_reachable.
  - vm_compute; lia.
  - reflexivity.
Defined.

(** X15 at work over GF(5). *)
Lemma decode_caller_buffers_witness :
  (dec (@decode_mem GF5.ops [GF5.R1] [GF5.R2; GF5.R3] Scenario.fresh5)
   = Scenario.fresh5
   /\ zero_row (symbols Scenario.fresh5)
               (caller_id (@decode_mem GF5.ops [GF5.R1] [GF5.R2; GF5.R3]
                                      Scenario.fresh5)))
  \/ (exists p,
         p < symbols Scenario.fresh5
         /\ symbol_exists p Scenario.fresh5 = false
         /\ nth p (m_coded (@decode GF5.ops [GF5.R1] [GF5.R2; GF5.R3]
                                   Scenario.fresh5)) false = true
         /\ vector p (@decode GF5.ops [GF5.R1] [GF5.R2; GF5.R3] Scenario.fresh5)
            = caller_id (@decode_mem GF5.ops [GF5.R1] [GF5.R2; GF5.R3]
                                    Scenario.fresh5)
         /\ symbol p (@decode GF5.ops [GF5.R1] [GF5.R2; GF5.R3] Scenario.fresh5)
            = caller_data (@decode_mem GF5.ops [GF5.R1] [GF5.R2; GF5.R3]
                                      Scenario.fresh5)).
Proof.
  apply (@decode_caller_buffers GF5.ops gf5_laws).
  - apply fresh5_reachable.
  - reflexivity.
  - reflexivity.
Defined.


(** X17 at work over GF(5). *)
Lemma stored_span_is_received_span_witness :
  (In Scenario.coded5 [Scenario.coded5; Scenario.raw5] ->
   in_stored_span
     (absorb_all [Scenario.coded5; Scenario.raw5]
                 (initialize 2 1 (@construct GF5.ops 2 1)))
     (packet_id 2 Scenario.coded5))
  /\ (1 < 2 ->
      symbol_exists
        1 (absorb_all [Scenario.coded5; Scenario.raw5]
                      (initialize 2 1 (@construct GF5.ops 2 1))) = true ->
      spanned_by
        2 (map (packet_id 2) [Scenario.coded5; Scenario.raw5])
        (vector 1 (absorb_all [Scenario.coded5; Scenario.raw5]
                              (initialize 2 1 (@construct GF5.ops 2 1))))).
Proof.
  apply (@stored_span_is_received_span
           GF5.ops gf5_laws 2 1 2 1 [Scenario.coded5; Scenario.raw5]
           Scenario.coded5 1).
  - lia.
  - lia.
  - reflexivity.
  - apply Forall_cons; [split; reflexivity|].
    apply Forall_cons; [split; [vm_compute; lia|reflexivity]|].
    apply Forall_nil.
Defined.

(** X18 at work: a raw symbol for the coded slot 0 of a complete
    decoder. *)
Lemma complete_stays_complete_witness :
  is_complete (absorb Scenario.two_coded (@Raw GF2.ops Scenario.A 0)) = true
  /\ rank (absorb Scenario.two_coded (@Raw GF2.ops Scenario.A 0))
     = rank Scenario.two_coded
  /\ nth 0 (m_uncoded (@decode_raw GF2.ops Scenario.A 0 Scenario.two_coded))
         false = true.
Proof.
  apply (@complete_stays_complete GF2.ops gf2_laws Scenario.two_coded
                                  (@Raw GF2.ops Scenario.A 0)).
  - apply two_coded_reachable.
  - reflexivity.
  - split; [vm_compute; lia|reflexivity].
Defined.

(** X19 at work: two symbols of two bytes in a buffer made for three. *)
Lemma storage_initialized_zero_witness :
  exists s1,
    DeepSymbolStorage.construct 3 2 (DeepSymbolStorage.mkStorage 0 0 [])
    = Some s1
    /\ N.of_nat (length (DeepSymbolStorage.m_data s1)) = (3 * 2)%N
    /\ DeepSymbolStorage.holds_block (DeepSymbolStorage.initialize 2 2 s1)
    /\ DeepSymbolStorage.symbol 1 (DeepSymbolStorage.initialize 2 2 s1)
       = Some (1 * 2)%N
    /\ (1 * 2 + 2
        <= N.of_nat
             (length (DeepSymbolStorage.m_data
                        (DeepSymbolStorage.initialize 2 2 s1))))%N
    /\ DeepSymbolStorage.read_symbol 1 (DeepSymbolStorage.initialize 2 2 s1)
       = Some (repeat Byte.x00 (N.to_nat 2)).
Proof.
  apply (storage_initialized_zero 3 2 2 2 1
                                  (DeepSymbolStorage.mkStorage 0 0 [])).
  - split; reflexivity.
  - vm_compute; discriminate.
  - vm_compute; discriminate.
  - reflexivity.
Defined.

Lemma two_by_two_holds_block :
  DeepSymbolStorage.holds_block DeepSymbolStorage.two_by_two.
Proof. split; [vm_compute; discriminate|reflexivity]. Qed.

(** X20 at work: symbol 1 written, symbol 0 read. *)
Lemma set_symbol_read_symbol_witness :
  exists s',
    DeepSymbolStorage.set_symbol DeepSymbolStorage.copy_bytes 1
                                 [Byte.xaa; Byte.xbb]
                                 DeepSymbolStorage.two_by_two = Some s'
    /\ DeepSymbolStorage.symbols s'
       = DeepSymbolStorage.symbols DeepSymbolStorage.two_by_two
    /\ DeepSymbolStorage.symbol_size s'
       = DeepSymbolStorage.symbol_size DeepSymbolStorage.two_by_two
    /\ length (DeepSymbolStorage.m_data s')
       = length (DeepSymbolStorage.m_data DeepSymbolStorage.two_by_two)
    /\ DeepSymbolStorage.read_symbol 1 s' = Some [Byte.xaa; Byte.xbb]
    /\ ((0 < DeepSymbolStorage.symbols DeepSymbolStorage.two_by_two)%N ->
        0%N <> 1%N ->
        DeepSymbolStorage.read_symbol 0 s'
        = DeepSymbolStorage.read_symbol 0 DeepSymbolStorage.two_by_two).
Proof.
  apply (set_symbol_read_symbol DeepSymbolStorage.copy_bytes
                                copy_bytes_copies
                                DeepSymbolStorage.two_by_two 1 0
                                [Byte.xaa; Byte.xbb]).
  - apply two_by_two_holds_block.
  - reflexivity.
  - reflexivity.
Defined.

(** X21 at work. *)
Lemma set_symbols_read_symbol_witness :
  exists s',
    DeepSymbolStorage.set_symbols
      DeepSymbolStorage.copy_bytes
      [Byte.xaa; Byte.xbb; Byte.xcc; Byte.xdd]
      DeepSymbolStorage.two_by_two = Some s'
    /\ DeepSymbolStorage.symbols s'
       = DeepSymbolStorage.symbols DeepSymbolStorage.two_by_two
    /\ DeepSymbolStorage.symbol_size s'
       = DeepSymbolStorage.symbol_size DeepSymbolStorage.two_by_two
    /\ length (DeepSymbolStorage.m_data s')
       = length (DeepSymbolStorage.m_data DeepSymbolStorage.two_by_two)
    /\ DeepSymbolStorage.read_symbol 1 s'
       = Some (DeepSymbolStorage.window
                 (1 * DeepSymbolStorage.symbol_size
                        DeepSymbolStorage.two_by_two)
                 (DeepSymbolStorage.symbol_size DeepSymbolStorage.two_by_two)
                 [Byte.xaa; Byte.xbb; Byte.xcc; Byte.xdd]).
Proof.
  apply (set_symbols_read_symbol DeepSymbolStorage.copy_bytes
                                 copy_bytes_copies
                                 DeepSymbolStorage.two_by_two 1
                                 [Byte.xaa; Byte.xbb; Byte.xcc; Byte.xdd]).
  - apply two_by_two_holds_block.
  - reflexivity.
  - reflexivity.
  - reflexivity.
Defined.
